(** * Verification of the APR patch applier (Scripts/apr/patch_applier.py)

    The development embeds [within_scope], [count_change_lines],
    [apply_changes] and [rollback] of [patch_applier.py] together with the
    parts of the Python standard library they call ([str.splitlines],
    [fnmatch.fnmatch], [difflib.ndiff], [pathlib]) and proves the
    properties the specification states about them.

    Conventions of the model:
    - a Python [str] is a [string]; its characters are the code points
      U+0000..U+00FF;
    - the library functions follow CPython 3.11; of [difflib.ndiff] the
      lines that start with [-], [+] and a blank are produced, the guide
      lines that start with [?] are not, and a similarity ratio is kept
      as an exact fraction;
    - a resolved [pathlib.Path] is the list of its components below [/];
      the working tree has no symbolic links, so [Path.resolve] is the
      lexical normalisation done by [os.path.realpath], which raises
      [ValueError] for a path that holds a NUL;
    - the disk is a finite map from paths to nodes, a file holding the text
      that was written to it; a path is looked up by walking its components
      from [/], which is a directory, and an entry below a missing
      directory or below a file is not reachable;
    - the system calls fail as on Linux: with [ENAMETOOLONG] for a path of
      [PATH_MAX] bytes or more and at a component of more than [NAME_MAX]
      bytes, with [ENOTDIR] below a file and with [ENOENT] at a missing
      entry, whichever the walk meets first; permissions never stand in
      the way;
    - files are UTF-8 and the platform is POSIX, so [write_text] stores the
      text unchanged and [read_text] applies the universal-newline
      translation of text mode;
    - an exception leaves the effects already performed in place. *)

From Stdlib Require Import ZArith Ascii String.
From stdpp Require Import base decidable option list sorting gmap strings.

Local Open Scope string_scope.
Local Open Scope list_scope.
Local Open Scope nat_scope.

(** ** Text *)

Module Text.

Definition chars (s : string) : list ascii := list_ascii_of_string s.
Definition of_chars (l : list ascii) : string := string_of_list_ascii l.

Definition LF : ascii := ascii_of_nat 10.
Definition CR : ascii := ascii_of_nat 13.
Definition NUL : ascii := ascii_of_nat 0.

(** The number of bytes of [s.encode("utf-8")]: two for a code point
    from U+0080 on. *)
Definition encoded_length (s : string) : nat :=
  sum_list_with (λ c, if nat_of_ascii c <? 128 then 1 else 2) (chars s).

(** The line boundaries of [str.splitlines] below U+0100, [CR LF] apart:
    LF, VT, FF, CR, FS, GS, RS and NEL. *)
Definition is_boundary (c : ascii) : bool :=
  let n := nat_of_ascii c in
  (n =? 10) || (n =? 11) || (n =? 12) || (n =? 13) ||
  (n =? 28) || (n =? 29) || (n =? 30) || (n =? 133).

(** [cur] is the current line, reversed. *)
Fixpoint splitlines_from (cur : list ascii) (s : list ascii) : list string :=
  match s with
  | [] => match cur with [] => [] | _ => [of_chars (rev cur)] end
  | c :: s' =>
      if is_boundary c then
        match s' with
        | c' :: s'' =>
            if bool_decide (c = CR) && bool_decide (c' = LF)
            then of_chars (rev (c' :: c :: cur)) :: splitlines_from [] s''
            else of_chars (rev (c :: cur)) :: splitlines_from [] s'
        | [] => of_chars (rev (c :: cur)) :: splitlines_from [] s'
        end
      else splitlines_from (c :: cur) s'
  end.

(** [s.splitlines(True)] *)
Definition splitlines (s : string) : list string := splitlines_from [] (chars s).

(** Reading in text mode with [newline=None]: [CR LF] and a lone [CR]
    become [LF]. *)
Fixpoint universal_newlines_chars (s : list ascii) : list ascii :=
  match s with
  | [] => []
  | c :: s' =>
      if bool_decide (c = CR) then
        match s' with
        | c' :: s'' =>
            if bool_decide (c' = LF) then LF :: universal_newlines_chars s''
            else LF :: universal_newlines_chars s'
        | [] => [LF]
        end
      else c :: universal_newlines_chars s'
  end.

Definition universal_newlines (s : string) : string :=
  of_chars (universal_newlines_chars (chars s)).

(** [s.split(sep)] for a one-character separator. *)
Fixpoint split_from (sep : ascii) (cur : list ascii) (s : list ascii) : list string :=
  match s with
  | [] => [of_chars (rev cur)]
  | c :: s' =>
      if bool_decide (c = sep) then of_chars (rev cur) :: split_from sep [] s'
      else split_from sep (c :: cur) s'
  end.

Definition split (sep : ascii) (s : string) : list string :=
  split_from sep [] (chars s).

(** [sep.join(parts)] *)
Fixpoint join (sep : string) (parts : list string) : string :=
  match parts with
  | [] => ""
  | [p] => p
  | p :: ps => p +:+ sep +:+ join sep ps
  end.

(** [s.rfind(c)]: the last index of [c], if any. *)
Fixpoint rfind_from (c : ascii) (i : nat) (last : option nat) (s : list ascii) : option nat :=
  match s with
  | [] => last
  | d :: s' => rfind_from c (S i) (if bool_decide (d = c) then Some i else last) s'
  end.

Definition rfind (c : ascii) (s : string) : option nat := rfind_from c 0 None (chars s).

Definition substring_from (i : nat) (s : string) : string := of_chars (drop i (chars s)).
Definition substring_to (i : nat) (s : string) : string := of_chars (take i (chars s)).

Definition startswith (c : ascii) (s : string) : bool :=
  match s with String d _ => bool_decide (d = c) | EmptyString => false end.

End Text.

(** ** fnmatch *)

Module Fnmatch.

(** What [fnmatch.translate] turns a pattern into: [*], [?], a character
    set (negated or not, as ranges; a single character is the range from
    it to itself) or a literal character. *)
Inductive item :=
| Star
| AnyChar
| CharSet (negated : bool) (ranges : list (ascii * ascii))
| Lit (c : ascii).

Definition in_range (c : ascii) (r : ascii * ascii) : bool :=
  (nat_of_ascii r.1 <=? nat_of_ascii c) && (nat_of_ascii c <=? nat_of_ascii r.2).

Definition hyphen : ascii := "-"%char.

(** The body of a set: [lo-hi] is a range, anything else stands for
    itself; a hyphen that starts the body or follows a range is literal,
    and a range whose ends are out of order is empty. *)
Fixpoint set_ranges (body : list ascii) : list (ascii * ascii) :=
  match body with
  | lo :: rest =>
      match rest with
      | h :: hi :: rest' =>
          if bool_decide (h = hyphen) then (lo, hi) :: set_ranges rest'
          else (lo, lo) :: set_ranges rest
      | _ => (lo, lo) :: set_ranges rest
      end
  | [] => []
  end.

(** Scan for the [']'] that closes a set; the result is the text before
    it and the text after it. *)
Fixpoint find_close (s : list ascii) : option (list ascii * list ascii) :=
  match s with
  | [] => None
  | c :: s' =>
      if bool_decide (c = "]"%char) then Some ([], s')
      else match find_close s' with
           | Some (body, rest) => Some (c :: body, rest)
           | None => None
           end
  end.

(** After the opening bracket: an optional [!], then an optional [']']
    that belongs to the set, then the scan for the closing bracket. *)
Definition parse_set (s : list ascii) : option (item * list ascii) :=
  let '(neg, s1) :=
    match s with
    | c :: s' => if bool_decide (c = "!"%char) then (true, s') else (false, s)
    | [] => (false, s)
    end in
  let '(first, s2) :=
    match s1 with
    | c :: s' => if bool_decide (c = "]"%char) then ([c], s') else ([], s1)
    | [] => ([], s1)
    end in
  match find_close s2 with
  | Some (body, rest) => Some (CharSet neg (set_ranges (first ++ body)), rest)
  | None => None
  end.

Fixpoint translate_chars (fuel : nat) (pat : list ascii) : list item :=
  match fuel, pat with
  | S fuel', c :: pat' =>
      if bool_decide (c = "*"%char) then Star :: translate_chars fuel' pat'
      else if bool_decide (c = "?"%char) then AnyChar :: translate_chars fuel' pat'
      else if bool_decide (c = "["%char) then
        match parse_set pat' with
        | Some (it, rest) => it :: translate_chars fuel' rest
        | None => Lit c :: translate_chars fuel' pat'
        end
      else Lit c :: translate_chars fuel' pat'
  | _, _ => []
  end.

(** Every step consumes at least one character of the pattern, so the
    length of the pattern is enough fuel ([translate_chars_fuel] below). *)
Definition translate (pat : string) : list item :=
  translate_chars (length (Text.chars pat)) (Text.chars pat).

Definition item_matches (it : item) (c : ascii) : bool :=
  match it with
  | Star | AnyChar => true
  | CharSet neg ranges => xorb neg (existsb (in_range c) ranges)
  | Lit d => bool_decide (c = d)
  end.

(** The compiled expression must match the whole name; [*] matches any
    run of characters, [/] and line ends included. *)
Fixpoint matches (p : list item) (s : list ascii) : bool :=
  match p with
  | [] => match s with [] => true | _ => false end
  | Star :: p' =>
      (fix star (s : list ascii) : bool :=
         matches p' s || match s with [] => false | _ :: s' => star s' end) s
  | it :: p' =>
      match s with
      | c :: s' => item_matches it c && matches p' s'
      | [] => false
      end
  end.

(** [fnmatch.fnmatch(name, pat)]; [os.path.normcase] is the identity on
    POSIX. *)
Definition fnmatch (name pat : string) : bool :=
  matches (translate pat) (Text.chars name).

End Fnmatch.

Definition nl : string := String Text.LF EmptyString.

(** ** difflib *)

Module Difflib.

(** A matching block [(i, j, k)]: [a[i:i+k] == b[j:j+k]]. *)
Definition block : Type := nat * nat * nat.

Definition block_le (x y : block) : Prop :=
  let '(i1, j1, k1) := x in
  let '(i2, j2, k2) := y in
  i1 < i2 ∨ (i1 = i2 ∧ (j1 < j2 ∨ (j1 = j2 ∧ k1 ≤ k2))).

Global Instance block_le_dec : RelDecision block_le.
Proof. intros [[i1 j1] k1] [[i2 j2] k2]. unfold block_le. apply _. Defined.

Inductive tag := Replace | Delete | Insert | Equal.

Definition opcode : Type := tag * nat * nat * nat * nat.

Section SequenceMatcher.
Context `{Countable A}.
Variable isjunk : A → bool.
Variables a b : list A.

Definition setdefault_append (b2j : gmap A (list nat)) (ie : nat * A) : gmap A (list nat) :=
  <[ie.2 := default [] (b2j !! ie.2) ++ [ie.1]]> b2j.

(** [__chain_b]: the positions of every element of [b], junk purged,
    and with 200 elements or more the popular ones purged too. *)
Definition chain_b : gmap A (list nat) :=
  let b2j := foldl setdefault_append ∅ (imap pair b) in
  let b2j := filter (λ kv, isjunk kv.1 = false) b2j in
  let n := length b in
  if 200 <=? n then
    let ntest := n / 100 + 1 in
    filter (λ kv, length kv.2 ≤ ntest) b2j
  else b2j.

(** [self.bjunk.__contains__]: the junk elements that occur in [b]. *)
Definition isbjunk (x : A) : bool := isjunk x && bool_decide (x ∈ b).

(** [b2j.get(a[i], nothing)] *)
Definition b2j_get (b2j : gmap A (list nat)) (i : nat) : list nat :=
  match a !! i with
  | Some x => default [] (b2j !! x)
  | None => []
  end.

(** [j2len.get(j-1, 0)] *)
Definition j2lenget_pred (j2len : gmap nat nat) (j : nat) : nat :=
  match j with
  | 0 => 0
  | S j' => default 0 (j2len !! j')
  end.

(** The inner loop of [find_longest_match] over the positions of
    [a[i]] in [b]; the subtractions stay above zero because a match
    that ends at [(i, j)] is no longer than [i+1] or [j+1]. *)
Fixpoint scan_row (i blo bhi : nat) (j2len : gmap nat nat) (js : list nat)
    (newj2len : gmap nat nat) (best : block) : gmap nat nat * block :=
  match js with
  | [] => (newj2len, best)
  | j :: js' =>
      if j <? blo then scan_row i blo bhi j2len js' newj2len best
      else if bhi <=? j then (newj2len, best)
      else
        let k := j2lenget_pred j2len j + 1 in
        scan_row i blo bhi j2len js' (<[j := k]> newj2len)
          (if best.2 <? k then (i + 1 - k, j + 1 - k, k) else best)
  end.

Definition row_step (b2j : gmap A (list nat)) (blo bhi : nat)
    (st : gmap nat nat * block) (i : nat) : gmap nat nat * block :=
  scan_row i blo bhi st.1 (b2j_get b2j i) ∅ st.2.

Definition longest_junk_free (b2j : gmap A (list nat)) (alo ahi blo bhi : nat) : block :=
  (foldl (row_step b2j blo bhi) (∅, (alo, blo, 0)) (seq alo (ahi - alo))).2.

(** [a[i] == b[j]] for positions the loop guards keep in range, with
    the test [P] on [b[j]]. *)
Definition same_at (P : A → bool) (i j : nat) : bool :=
  match b !! j with
  | Some y => P y && bool_decide (a !! i = Some y)
  | None => false
  end.

(** [while besti > alo and bestj > blo and P(b[bestj-1]) and
    a[besti-1] == b[bestj-1]] *)
Fixpoint extend_left (P : A → bool) (alo blo besti bestj bestsize : nat) : block :=
  match besti, bestj with
  | S i', S j' =>
      if (alo <? besti) && (blo <? bestj) && same_at P i' j'
      then extend_left P alo blo i' j' (S bestsize)
      else (besti, bestj, bestsize)
  | _, _ => (besti, bestj, bestsize)
  end.

(** [while besti+bestsize < ahi and bestj+bestsize < bhi and
    P(b[bestj+bestsize]) and a[besti+bestsize] == b[bestj+bestsize]];
    [gap] is [ahi - (besti+bestsize)], which every round lowers by one. *)
Fixpoint extend_right (P : A → bool) (ahi bhi besti bestj gap bestsize : nat) : nat :=
  match gap with
  | 0 => bestsize
  | S gap' =>
      if (besti + bestsize <? ahi) && (bestj + bestsize <? bhi)
         && same_at P (besti + bestsize) (bestj + bestsize)
      then extend_right P ahi bhi besti bestj gap' (S bestsize)
      else bestsize
  end.

Definition extend (P : A → bool) (alo ahi blo bhi : nat) (best : block) : block :=
  let '(besti, bestj, bestsize) := extend_left P alo blo best.1.1 best.1.2 best.2 in
  (besti, bestj,
   extend_right P ahi bhi besti bestj (ahi - (besti + bestsize)) bestsize).

Definition find_longest_match (b2j : gmap A (list nat)) (alo ahi blo bhi : nat) : block :=
  let best := longest_junk_free b2j alo ahi blo bhi in
  let best := extend (λ y, negb (isbjunk y)) alo ahi blo bhi best in
  extend isbjunk alo ahi blo bhi best.

(** The work list of [get_matching_blocks]; its head is the end of the
    Python list, where [pop] and [append] work. [None] when the fuel
    runs out before the list is empty. *)
Fixpoint matching_loop (b2j : gmap A (list nat)) (fuel : nat)
    (queue : list (nat * nat * nat * nat)) (matching_blocks : list block)
    : option (list block) :=
  match queue with
  | [] => Some matching_blocks
  | (alo, ahi, blo, bhi) :: queue =>
      match fuel with
      | 0 => None
      | S fuel =>
          let '(i, j, k) := find_longest_match b2j alo ahi blo bhi in
          if k =? 0 then matching_loop b2j fuel queue matching_blocks
          else
            let queue :=
              if (alo <? i) && (blo <? j) then (alo, i, blo, j) :: queue else queue in
            let queue :=
              if (i + k <? ahi) && (j + k <? bhi) then (i + k, ahi, j + k, bhi) :: queue
              else queue in
            matching_loop b2j fuel queue (matching_blocks ++ [(i, j, k)])
      end
  end.

(** Adjacent equal blocks are merged: the state is [(i1, j1, k1)] and
    the blocks kept so far. *)
Definition collapse_step (st : block * list block) (x : block) : block * list block :=
  let '((i1, j1, k1), non_adjacent) := st in
  let '(i2, j2, k2) := x in
  if (i1 + k1 =? i2) && (j1 + k1 =? j2) then ((i1, j1, k1 + k2), non_adjacent)
  else ((i2, j2, k2), if k1 =? 0 then non_adjacent else non_adjacent ++ [(i1, j1, k1)]).

Definition collapse (matching_blocks : list block) : list block :=
  let '((i1, j1, k1), non_adjacent) := foldl collapse_step ((0, 0, 0), []) matching_blocks in
  if k1 =? 0 then non_adjacent else non_adjacent ++ [(i1, j1, k1)].

(** Every round of the loop removes a rectangle and adds rectangles of
    a smaller total half-perimeter, so [len(a) + len(b) + 1] rounds
    empty the work list ([matching_loop_total] below). *)
Definition get_matching_blocks : list block :=
  let la := length a in
  let lb := length b in
  match matching_loop chain_b (la + lb + 1) [(0, la, 0, lb)] [] with
  | Some matching_blocks => collapse (merge_sort block_le matching_blocks) ++ [(la, lb, 0)]
  | None => [(la, lb, 0)]
  end.

Definition opcode_step (st : nat * nat * list opcode) (x : block) : nat * nat * list opcode :=
  let '(i, j, answer) := st in
  let '(ai, bj, size) := x in
  let answer :=
    if (i <? ai) && (j <? bj) then answer ++ [(Replace, i, ai, j, bj)]
    else if i <? ai then answer ++ [(Delete, i, ai, j, bj)]
    else if j <? bj then answer ++ [(Insert, i, ai, j, bj)]
    else answer in
  (ai + size, bj + size,
   if size =? 0 then answer else answer ++ [(Equal, ai, ai + size, bj, bj + size)]).

Definition get_opcodes : list opcode :=
  (foldl opcode_step (0, 0, []) get_matching_blocks).2.

(** A ratio [2.0*M/T] is kept as the fraction [(2*M, T)], and as
    [(1, 1)] when both sequences are empty. *)
Definition calculate_ratio (matches : nat) : nat * nat :=
  let len := length a + length b in
  if len =? 0 then (1, 1) else (2 * matches, len).

Definition ratio : nat * nat :=
  calculate_ratio (sum_list (map snd get_matching_blocks)).

(** [quick_ratio()]: how many elements of [a] find a partner among
    the elements of [b], counted with multiplicity. *)
Definition count_elt (fullbcount : gmap A Z) (elt : A) : gmap A Z :=
  <[elt := (default 0 (fullbcount !! elt) + 1)%Z]> fullbcount.

Definition avail_step (fullbcount : gmap A Z) (st : gmap A Z * nat) (elt : A)
    : gmap A Z * nat :=
  let numb :=
    match st.1 !! elt with
    | Some numb => numb
    | None => default 0%Z (fullbcount !! elt)
    end in
  (<[elt := (numb - 1)%Z]> st.1, if (0 <? numb)%Z then st.2 + 1 else st.2).

Definition quick_ratio : nat * nat :=
  let fullbcount := foldl count_elt ∅ b in
  calculate_ratio (foldl (avail_step fullbcount) (∅, 0) a).2.

Definition real_quick_ratio : nat * nat :=
  calculate_ratio (length a `min` length b).

End SequenceMatcher.

(** Comparison of two ratios with positive denominators. *)
Definition ratio_lt (r1 r2 : nat * nat) : bool := r1.1 * r2.2 <? r2.1 * r1.2.

(** [IS_CHARACTER_JUNK]: a blank or a tab. *)
Definition IS_CHARACTER_JUNK (ch : ascii) : bool :=
  bool_decide (ch = " "%char) || bool_decide (ch = ascii_of_nat 9).

End Difflib.

(** ** Differ and ndiff *)

Module Differ.
Import Difflib.

(** [_dump]: the lines [x[lo:hi]], each behind the tag and a blank. *)
Definition dump (tag : string) (x : list string) (lo hi : nat) : list string :=
  (λ line, tag +:+ " " +:+ line) <$> take (hi - lo) (drop lo x).

Definition plain_replace (a : list string) (alo ahi : nat) (b : list string) (blo bhi : nat)
    : list string :=
  if bhi - blo <? ahi - alo
  then dump "+" b blo bhi ++ dump "-" a alo ahi
  else dump "-" a alo ahi ++ dump "+" b blo bhi.

(** The character matcher of [_fancy_replace]: [set_seq1(ai)],
    [set_seq2(bj)], junk as [IS_CHARACTER_JUNK]. *)
Definition closer_than (best_ratio : nat * nat) (ai bj : string) : bool :=
  let x := Text.chars ai in
  let y := Text.chars bj in
  ratio_lt best_ratio (real_quick_ratio x y)
  && ratio_lt best_ratio (quick_ratio x y)
  && ratio_lt best_ratio (ratio IS_CHARACTER_JUNK x y).

Record search := Search {
  best_ratio : nat * nat;
  best_ij : option (nat * nat);
  eq_ij : option (nat * nat)
}.

Definition search_step (a b : list string) (j : nat) (st : search) (i : nat) : search :=
  match a !! i, b !! j with
  | Some ai, Some bj =>
      if bool_decide (ai = bj) then
        match eq_ij st with
        | None => Search (best_ratio st) (best_ij st) (Some (i, j))
        | Some _ => st
        end
      else if closer_than (best_ratio st) ai bj
      then Search (ratio IS_CHARACTER_JUNK (Text.chars ai) (Text.chars bj)) (Some (i, j)) (eq_ij st)
      else st
  | _, _ => st
  end.

Definition search_pairs (a : list string) (alo ahi : nat) (b : list string) (blo bhi : nat)
    : search :=
  foldl (λ st j, foldl (search_step a b j) st (seq alo (ahi - alo)))
    (Search (74, 100) None None) (seq blo (bhi - blo)).

(** [_qformat] without the guide lines: a line that starts with [?]
    is neither an added nor a removed line. *)
Definition qformat (aline bline : string) : list string :=
  ["- " +:+ aline; "+ " +:+ bline].

Definition line_at (x : list string) (i : nat) : string := default "" (x !! i).

(** [_fancy_helper], given what [_fancy_replace] does on a range. *)
Definition fancy_helper (fancy : nat → nat → nat → nat → list string)
    (a : list string) (alo ahi : nat) (b : list string) (blo bhi : nat) : list string :=
  if alo <? ahi then
    if blo <? bhi then fancy alo ahi blo bhi
    else dump "-" a alo ahi
  else if blo <? bhi then dump "+" b blo bhi
  else [].

(** The body of [_fancy_replace]; [fancy] stands for the nested calls that
    [_fancy_helper] makes. *)
Definition fancy_round (fancy : nat → nat → nat → nat → list string)
    (a : list string) (alo ahi : nat) (b : list string) (blo bhi : nat) : list string :=
  let synch (best_i best_j : nat) (identical : bool) : list string :=
    fancy_helper fancy a alo best_i b blo best_j
    ++ (if identical then ["  " +:+ line_at a best_i]
        else qformat (line_at a best_i) (line_at b best_j))
    ++ fancy_helper fancy a (best_i + 1) ahi b (best_j + 1) bhi in
  let st := search_pairs a alo ahi b blo bhi in
  if ratio_lt (best_ratio st) (75, 100) then
    match eq_ij st with
    | None => plain_replace a alo ahi b blo bhi
    | Some (eqi, eqj) => synch eqi eqj true
    end
  else
    match best_ij st with
    | Some (best_i, best_j) => synch best_i best_j false
    | None => []
    end.

(** [_fancy_replace]. Every nested call leaves the synch pair out, so the
    number of lines in the two ranges is enough fuel
    ([fancy_replace_fuel] below). *)
Fixpoint fancy_replace (fuel : nat) (a : list string) (alo ahi : nat)
    (b : list string) (blo bhi : nat) : list string :=
  match fuel with
  | 0 => []
  | S fuel =>
      fancy_round (λ alo ahi blo bhi, fancy_replace fuel a alo ahi b blo bhi)
        a alo ahi b blo bhi
  end.

Definition compare_opcode (a b : list string) (op : opcode) : list string :=
  let '(tag, alo, ahi, blo, bhi) := op in
  match tag with
  | Replace => fancy_replace ((ahi - alo) + (bhi - blo)) a alo ahi b blo bhi
  | Delete => dump "-" a alo ahi
  | Insert => dump "+" b blo bhi
  | Equal => dump " " a alo ahi
  end.

(** [Differ(None, IS_CHARACTER_JUNK).compare(a, b)] *)
Definition compare (a b : list string) : list string :=
  concat (compare_opcode a b <$> get_opcodes (λ _, false) a b).

Definition ndiff (a b : list string) : list string := compare a b.

End Differ.

(** ** The diff sizer *)

(** [d and d[0] in "+-"] *)
Definition added_or_removed (d : string) : bool :=
  match d with
  | String c _ => bool_decide (c = "+"%char) || bool_decide (c = "-"%char)
  | EmptyString => false
  end.

Definition count_change_lines (old new : string) : nat :=
  let diff := Differ.ndiff (Text.splitlines old) (Text.splitlines new) in
  length (filter (λ d, added_or_removed d = true) diff).

Definition text_of_lines (lines : list string) : string :=
  foldr (λ l s, l +:+ nl +:+ s) "" lines.

(** ** pathlib *)

Module Pathlib.

(** A resolved absolute path: its components below the root directory. *)
Definition path : Type := list string.

(** One component in [os.path.realpath]: an empty component and [.] are
    skipped, [..] drops the last component ([/..] is [/]). *)
Definition resolve_step (p : path) (name : string) : path :=
  if bool_decide (name = "") || bool_decide (name = ".") then p
  else if bool_decide (name = "..") then removelast p
  else p ++ [name].

(** [os.path.realpath(repo_root / s)] for a resolved [repo_root] and an
    [s] without NUL: joining an absolute [s] replaces [repo_root]. *)
Definition realpath (repo_root : path) (s : string) : path :=
  foldl resolve_step (if Text.startswith "/" s then [] else repo_root) (Text.split "/" s).

(** [(repo_root / s).resolve()]. [realpath] calls [os.lstat] on every
    component it keeps; [None] stands for the [ValueError] that call
    raises when the path holds a NUL. *)
Definition resolve_joined (repo_root : path) (s : string) : option path :=
  if bool_decide (Text.NUL ∈ Text.chars s) then None else Some (realpath repo_root s).

(** [p.relative_to(other)]; [None] stands for the [ValueError] raised
    when [p] is not below [other]. *)
Fixpoint relative_to (p other : path) : option path :=
  match other, p with
  | [], _ => Some p
  | o :: other', c :: p' => if bool_decide (c = o) then relative_to p' other' else None
  | _ :: _, [] => None
  end.

Definition as_posix (rel : path) : string :=
  match rel with
  | [] => "."
  | _ => Text.join "/" rel
  end.

Definition name (p : path) : string := default "" (last p).

(** [PurePath.suffix]: from the last dot of the name on, unless that
    dot starts or ends the name. *)
Definition suffix (p : path) : string :=
  match Text.rfind "." (name p) with
  | Some i =>
      if (0 <? i) && (i <? String.length (name p) - 1)
      then Text.substring_from i (name p) else ""
  | None => ""
  end.

Definition valid_suffix (suffix : string) : bool :=
  negb (bool_decide ("/"%char ∈ Text.chars suffix))
  && (bool_decide (suffix = "") || Text.startswith "." suffix)
  && negb (bool_decide (suffix = ".")).

(** [PurePath.with_suffix]; [None] stands for its [ValueError] (an
    invalid suffix, or a path with an empty name). *)
Definition with_suffix (p : path) (new_suffix : string) : option path :=
  if negb (valid_suffix new_suffix) then None
  else if bool_decide (name p = "") then None
  else
    let old_suffix := suffix p in
    let stem :=
      if bool_decide (old_suffix = "") then name p
      else Text.substring_to (String.length (name p) - String.length old_suffix) (name p) in
    Some (removelast p ++ [stem +:+ new_suffix]).

End Pathlib.

Import Pathlib.

(** ** The working tree and the effects on it *)

Inductive exn :=
  ValueError | FileNotFoundError | NotADirectoryError | IsADirectoryError | OSError.

Inductive node := File (data : string) | Dir.

Inductive event := Write (p : path) (data : string) | Unlink (p : path).

(** The disk, and the journal of the mutations done so far, oldest
    first. *)
Record world := World { disk : gmap path node; journal : list event }.

Inductive outcome (A : Type) := Return (x : A) | Raise (e : exn).
Arguments Return {A} x.
Arguments Raise {A} e.

Definition io (A : Type) : Type := world → outcome A * world.

Global Instance io_ret : MRet io := λ A x w, (Return x, w).

Global Instance io_bind : MBind io := λ A B f m w,
  match m w with
  | (Return x, w') => f x w'
  | (Raise e, w') => (Raise e, w')
  end.

Definition raise {A} (e : exn) : io A := λ w, (Raise e, w).

Definition or_raise {A} (e : exn) (o : option A) : io A :=
  match o with
  | Some x => mret x
  | None => raise e
  end.

(** [try: m except Exception: pass] *)
Definition try_except_pass (m : io unit) : io unit := λ w,
  match m w with
  | (Raise _, w') => (Return (), w')
  | r => r
  end.

(** *** Looking a path up *)

Definition NAME_MAX : nat := 255.
Definition PATH_MAX : nat := 4096.

(** The bytes of the path as the system call gets it: a slash before
    every component. *)
Definition path_length (p : path) : nat :=
  match p with
  | [] => 1
  | _ => sum_list_with (λ c, 1 + Text.encoded_length c) p
  end.

(** What [os.stat] finds, or the error it fails with. *)
Inductive found := Found (n : node) | ENOENT | ENOTDIR | ENAMETOOLONG.

(** The walk from the directory or file [n] at [dir] along [rest]. *)
Fixpoint walk (d : gmap path node) (dir : path) (n : node) (rest : list string) : found :=
  match rest with
  | [] => Found n
  | c :: rest' =>
      match n with
      | File _ => ENOTDIR
      | Dir =>
          if NAME_MAX <? Text.encoded_length c then ENAMETOOLONG
          else
            match d !! (dir ++ [c]) with
            | Some n' => walk d (dir ++ [c]) n' rest'
            | None => ENOENT
            end
      end
  end.

Definition stat (d : gmap path node) (p : path) : found :=
  if PATH_MAX <=? path_length p then ENAMETOOLONG else walk d [] Dir p.

(** Nothing is found at [p], which [Path.exists()] answers with [False]. *)
Definition absent (d : gmap path node) (p : path) : Prop :=
  stat d p = ENOENT ∨ stat d p = ENOTDIR.

(** [Path.exists()]: [ENOENT] and [ENOTDIR] are answered with [False],
    any other error is raised. *)
Definition exists_ (p : path) : io bool := λ w,
  match stat (disk w) p with
  | Found _ => (Return true, w)
  | ENOENT | ENOTDIR => (Return false, w)
  | ENAMETOOLONG => (Raise OSError, w)
  end.

(** [Path.read_text(encoding="utf-8")] *)
Definition read_text (p : path) : io string := λ w,
  match stat (disk w) p with
  | Found (File data) => (Return (Text.universal_newlines data), w)
  | Found Dir => (Raise IsADirectoryError, w)
  | ENOENT => (Raise FileNotFoundError, w)
  | ENOTDIR => (Raise NotADirectoryError, w)
  | ENAMETOOLONG => (Raise OSError, w)
  end.

(** [Path.write_text(data, encoding="utf-8")]: the file is created when
    only its last component is missing. *)
Definition write_text (p : path) (data : string) : io unit := λ w,
  let written := (Return (), World (<[p := File data]> (disk w)) (journal w ++ [Write p data])) in
  match stat (disk w) p with
  | Found (File _) => written
  | Found Dir => (Raise IsADirectoryError, w)
  | ENOENT =>
      match stat (disk w) (removelast p) with
      | Found Dir => written
      | _ => (Raise FileNotFoundError, w)
      end
  | ENOTDIR => (Raise NotADirectoryError, w)
  | ENAMETOOLONG => (Raise OSError, w)
  end.

(** [Path.unlink()] *)
Definition unlink (p : path) : io unit := λ w,
  match stat (disk w) p with
  | Found (File _) => (Return (), World (delete p (disk w)) (journal w ++ [Unlink p]))
  | Found Dir => (Raise IsADirectoryError, w)
  | ENOENT => (Raise FileNotFoundError, w)
  | ENOTDIR => (Raise NotADirectoryError, w)
  | ENAMETOOLONG => (Raise OSError, w)
  end.

(** [for x in xs: body(x)] with the loop variables threaded through *)
Fixpoint for_each {A S} (body : S → A → io S) (xs : list A) (st : S) : io S :=
  match xs with
  | [] => mret st
  | x :: xs' => st' ← body st x; for_each body xs' st'
  end.

(** ** The scope guard *)

(** The configuration keys the applier reads; [None] is an absent key. *)
Record config := Config {
  excludes : option (list string);
  file_scopes : option (list string);
  max_change_lines : option Z
}.

Definition within_scope (rel_path : string) (cfg : config) : bool :=
  if existsb (Fnmatch.fnmatch rel_path) (default [] (excludes cfg)) then false
  else
    match file_scopes cfg with
    | None | Some [] => true
    | Some pats => existsb (Fnmatch.fnmatch rel_path) pats
    end.

(** ** The patch applier *)

Record file_change := FileChange { change_path : string; change_content : option string }.

Record patch := Patch { changes : option (list file_change) }.

Inductive reason := out_of_scope | not_found | max_change_lines_exceeded.

Record applied_entry := Applied { applied_path : string; changed_lines : nat }.

Record rejected_entry := Rejected { rejected_path : string; rejected_reason : reason }.

(** The dictionary [apply_changes] returns. *)
Record apply_result := ApplyResult {
  applied : list applied_entry;
  rejected : list rejected_entry;
  total_changed : nat;
  backups : list string
}.

(** The variables of the loop in [apply_changes]. *)
Module Locals.
Record t := Make {
  changes_applied : list applied_entry;
  backups : list path;
  rejected : list rejected_entry;
  total_changed : nat
}.

Definition init : t := Make [] [] [] 0.

Definition reject (st : t) (rel : string) (why : reason) : t :=
  Make (changes_applied st) (backups st) (rejected st ++ [Rejected rel why]) (total_changed st).
End Locals.

(** [int(cfg.get("max_change_lines", 120))] *)
Definition budget (cfg : config) : Z := default 120%Z (max_change_lines cfg).

Definition backup_suffix : string := ".apr.bak".

(** The body of the loop over [patch["changes"]]. *)
Definition apply_change (repo_root : path) (cfg : config) (st : Locals.t) (change : file_change)
    : io Locals.t :=
  path ← or_raise ValueError (resolve_joined repo_root (change_path change));
  rel_parts ← or_raise ValueError (relative_to path repo_root);
  let rel := as_posix rel_parts in
  if negb (within_scope rel cfg) then mret (Locals.reject st rel out_of_scope)
  else
    found ← exists_ path;
    if negb found then mret (Locals.reject st rel not_found)
    else
      old ← read_text path;
      let new := default "" (change_content change) in
      let changed := count_change_lines old new in
      if (budget cfg <? Z.of_nat (Locals.total_changed st + changed))%Z
      then mret (Locals.reject st rel max_change_lines_exceeded)
      else
        bak ← or_raise ValueError (with_suffix path (suffix path +:+ backup_suffix));
        _ ← write_text bak old;
        _ ← write_text path new;
        mret (Locals.Make
                (Locals.changes_applied st ++ [Applied rel changed])
                (Locals.backups st ++ [bak])
                (Locals.rejected st)
                (Locals.total_changed st + changed)).

Fixpoint relative_backups (repo_root : path) (bs : list path) : io (list string) :=
  match bs with
  | [] => mret []
  | b :: bs' =>
      rel ← or_raise ValueError (relative_to b repo_root);
      rest ← relative_backups repo_root bs';
      mret (as_posix rel :: rest)
  end.

Definition apply_changes (repo_root : path) (cfg : config) (p : patch) : io apply_result :=
  st ← for_each (apply_change repo_root cfg) (default [] (changes p)) Locals.init;
  bs ← relative_backups repo_root (Locals.backups st);
  mret (ApplyResult (Locals.changes_applied st) (Locals.rejected st)
          (Locals.total_changed st) bs).

(** The body of the loop over [result["backups"]]. *)
Definition restore_backup (repo_root : path) (_ : unit) (b : string) : io unit :=
  bak ← or_raise ValueError (resolve_joined repo_root b);
  found ← exists_ bak;
  if found : bool then
    orig ← or_raise ValueError (with_suffix bak "");
    try_except_pass (data ← read_text bak; _ ← write_text orig data; unlink bak)
  else mret ().

Definition rollback (repo_root : path) (result : apply_result) : io unit :=
  for_each (restore_backup repo_root) (backups result) ().

(** ** The rounds of the loop as a relation *)

(** What one round of the loop does, case by case. *)
Inductive step_outcome (repo_root : path) (cfg : config) (st : Locals.t) (change : file_change)
    (w : world) : outcome Locals.t * world → Prop :=
| step_unresolved :
    resolve_joined repo_root (change_path change) = None →
    step_outcome repo_root cfg st change w (Raise ValueError, w)
| step_escapes target :
    resolve_joined repo_root (change_path change) = Some target →
    relative_to target repo_root = None →
    step_outcome repo_root cfg st change w (Raise ValueError, w)
| step_out_of_scope target rel_parts :
    resolve_joined repo_root (change_path change) = Some target →
    relative_to target repo_root = Some rel_parts →
    within_scope (as_posix rel_parts) cfg = false →
    step_outcome repo_root cfg st change w
      (Return (Locals.reject st (as_posix rel_parts) out_of_scope), w)
| step_not_found target rel_parts :
    resolve_joined repo_root (change_path change) = Some target →
    relative_to target repo_root = Some rel_parts →
    within_scope (as_posix rel_parts) cfg = true →
    absent (disk w) target →
    step_outcome repo_root cfg st change w
      (Return (Locals.reject st (as_posix rel_parts) not_found), w)
| step_untestable target rel_parts :
    resolve_joined repo_root (change_path change) = Some target →
    relative_to target repo_root = Some rel_parts →
    within_scope (as_posix rel_parts) cfg = true →
    stat (disk w) target = ENAMETOOLONG →
    step_outcome repo_root cfg st change w (Raise OSError, w)
| step_directory target rel_parts :
    resolve_joined repo_root (change_path change) = Some target →
    relative_to target repo_root = Some rel_parts →
    within_scope (as_posix rel_parts) cfg = true →
    stat (disk w) target = Found Dir →
    step_outcome repo_root cfg st change w (Raise IsADirectoryError, w)
| step_over_budget target rel_parts data :
    resolve_joined repo_root (change_path change) = Some target →
    relative_to target repo_root = Some rel_parts →
    within_scope (as_posix rel_parts) cfg = true →
    stat (disk w) target = Found (File data) →
    (budget cfg < Z.of_nat (Locals.total_changed st +
       count_change_lines (Text.universal_newlines data) (default "" (change_content change))))%Z →
    step_outcome repo_root cfg st change w
      (Return (Locals.reject st (as_posix rel_parts) max_change_lines_exceeded), w)
| step_bad_backup target rel_parts data e :
    resolve_joined repo_root (change_path change) = Some target →
    relative_to target repo_root = Some rel_parts →
    within_scope (as_posix rel_parts) cfg = true →
    stat (disk w) target = Found (File data) →
    (Z.of_nat (Locals.total_changed st +
       count_change_lines (Text.universal_newlines data) (default "" (change_content change)))
     ≤ budget cfg)%Z →
    (with_suffix target (suffix target +:+ backup_suffix) = None ∧ e = ValueError)
    ∨ (∃ bak, with_suffix target (suffix target +:+ backup_suffix) = Some bak
        ∧ ((stat (disk w) bak = Found Dir ∧ e = IsADirectoryError)
           ∨ (stat (disk w) bak = ENAMETOOLONG ∧ e = OSError))) →
    step_outcome repo_root cfg st change w (Raise e, w)
| step_applied target rel_parts data bak :
    let old := Text.universal_newlines data in
    let new := default "" (change_content change) in
    resolve_joined repo_root (change_path change) = Some target →
    relative_to target repo_root = Some rel_parts →
    within_scope (as_posix rel_parts) cfg = true →
    stat (disk w) target = Found (File data) →
    disk w !! target = Some (File data) →
    (Z.of_nat (Locals.total_changed st + count_change_lines old new) ≤ budget cfg)%Z →
    with_suffix target (suffix target +:+ backup_suffix) = Some bak →
    stat (disk w) bak = ENOENT ∨ (∃ x, stat (disk w) bak = Found (File x)) →
    step_outcome repo_root cfg st change w
      (Return (Locals.Make
                 (Locals.changes_applied st ++ [Applied (as_posix rel_parts) (count_change_lines old new)])
                 (Locals.backups st ++ [bak])
                 (Locals.rejected st)
                 (Locals.total_changed st + count_change_lines old new)),
       World (<[target := File new]> (<[bak := File old]> (disk w)))
             (journal w ++ [Write bak old; Write target new])).

(** The repository-relative path of a change that resolves inside the
    repository. *)
Definition repo_relative (repo_root : path) (change : file_change) : option string :=
  target ← resolve_joined repo_root (change_path change);
  as_posix <$> relative_to target repo_root.

(** [snapshotted d evs targets d']: from the disk [d], the mutations [evs]
    are one pair of writes per entry of [targets], in order, and lead to
    the disk [d']. In each pair the backup of the target is written first,
    with the text read from the target on the disk reached so far, and the
    target is overwritten next. *)
Inductive snapshotted (d : gmap path node)
    : list event → list path → gmap path node → Prop :=
| snapshotted_nil : snapshotted d [] [] d
| snapshotted_snoc evs targets d' target data new bak :
    snapshotted d evs targets d' →
    d' !! target = Some (File data) →
    with_suffix target (suffix target +:+ backup_suffix) = Some bak →
    snapshotted d
      (evs ++ [Write bak (Text.universal_newlines data); Write target new])
      (targets ++ [target])
      (<[target := File new]> (<[bak := File (Text.universal_newlines data)]> d')).

(** ** A working tree for the scenarios *)

Module Scenario.

Definition repo_root : path := ["Users"; "dev"; "MimiSupply"].

Definition in_repo (rel : list string) : path := repo_root ++ rel.

Definition cart_swift : string :=
  text_of_lines ["struct Cart {"; "  var items: [Item] = []"; "}"].

Definition cart_swift_fixed : string :=
  text_of_lines ["struct Cart {"; "  var items: [Item] = []"; "  var total = 0"; "}"].

Definition item_swift : string := text_of_lines ["struct Item {}"].

Definition tree : gmap path node :=
  <[in_repo ["App"; "Cart.swift"] := File cart_swift]>
  (<[in_repo ["App"; "Item.swift"] := File item_swift]>
  (<[in_repo ["Secrets"; "Keys.swift"] := File (text_of_lines ["let key = 1"])]>
  (<[in_repo ["App"] := Dir]>
  (<[in_repo ["Secrets"] := Dir]>
  (<[in_repo [] := Dir]>
  (<[["Users"; "dev"] := Dir]>
  (<[["Users"] := Dir]> ∅))))))).

Definition start : world := World tree [].

(** Scenario A of the specification. *)
Definition cfg : config := Config (Some []) (Some ["App/*.swift"]) (Some 10%Z).

Definition fix_cart : file_change := FileChange "App/Cart.swift" (Some cart_swift_fixed).

(** A change to [App/Cart.swift] that costs eight lines and one to
    [App/Item.swift] that costs five. *)
Definition rewrite_cart : file_change :=
  FileChange "App/Cart.swift" (Some (text_of_lines ["final class Cart {"; "  let id = 1"; "  let n = 2"; "  let open = true"; "} // Cart"])).

Definition rewrite_item : file_change :=
  FileChange "App/Item.swift" (Some (text_of_lines ["final class Item {"; "  let id = 1"; "  let n = 2"; "} // Item"])).

(** A change to a file of [App/] that is not there and whose name has 262
    bytes. *)
Definition overlong : file_change :=
  FileChange ("App/" +:+ Text.of_chars (replicate 256 "a"%char) +:+ ".swift") (Some "x").

End Scenario.

(** ** Notions used to reason about the matcher *)

Section positions.
Context `{Countable A}.

(** The positions of [x] in [b], counted from [i], in increasing order. *)
Fixpoint positions_from (x : A) (i : nat) (b : list A) : list nat :=
  match b with
  | [] => []
  | y :: b' => (if decide (x = y) then [i] else []) ++ positions_from x (S i) b'
  end.

(** [live_run live a t]: how many elements of [a], going back from
    position [t], are [live] without a gap. *)
Fixpoint live_run (live : A → bool) (a : list A) (t : nat) : nat :=
  match a !! t with
  | Some x =>
      if live x then S (match t with 0 => 0 | S t' => live_run live a t' end) else 0
  | None => 0
  end.
End positions.

(** What a round of the inner loop of [find_longest_match] records for
    the position [j]. *)
Definition record_len (j2len : gmap nat nat) (m : gmap nat nat) (j : nat) : gmap nat nat :=
  <[j := Difflib.j2lenget_pred j2len j + 1]> m.

Section diagonal.
Context `{Countable A}.

(** What holds of the state of [find_longest_match] when a sequence is
    matched against itself, before row [i]: the best block lies on the
    diagonal and is at least as long as every live run above row [i],
    no recorded length exceeds the live runs that end at its column and
    at the last row, and the entry on the diagonal is that run. *)
Record diag_inv (live : A → bool) (a : list A) (i : nat)
    (st : gmap nat nat * Difflib.block) : Prop := DiagInv {
  inv_best : ∃ p s, st.2 = (p, p, s) ∧ p + s ≤ i;
  inv_runs : ∀ t, t < i → live_run live a t ≤ st.2.2;
  inv_len : ∀ j k, st.1 !! j = Some k →
      k ≤ live_run live a j ∧ match i with 0 => False | S i' => k ≤ live_run live a i' end;
  inv_diag : ∀ i' x, i = S i' → a !! i' = Some x → live x = true →
      st.1 !! i' = Some (live_run live a i')
}.
End diagonal.

(** A block inside the rectangle [alo..ahi] by [blo..bhi]. *)
Definition inside (alo ahi blo bhi : nat) (best : Difflib.block) : Prop :=
  alo ≤ best.1.1 ∧ blo ≤ best.1.2 ∧ best.1.1 + best.2 ≤ ahi ∧ best.1.2 + best.2 ≤ bhi.

(** The lengths recorded before row [i] fit between the corner of the
    rectangle and the pair they end at. *)
Definition lens_inside (alo blo bhi i : nat) (j2len : gmap nat nat) : Prop :=
  ∀ j k, j2len !! j = Some k → blo ≤ j < bhi ∧ k + alo ≤ i ∧ k + blo ≤ j + 1.

(** The half-perimeter of the rectangles still to be searched, plus one
    for each of them. *)
Definition pending (queue : list (nat * nat * nat * nat)) : nat :=
  sum_list_with (λ r, (r.1.1.2 - r.1.1.1) + (r.2 - r.1.2) + 1) queue.

Definition well_formed (r : nat * nat * nat * nat) : Prop :=
  r.1.1.1 ≤ r.1.1.2 ∧ r.1.2 ≤ r.2.

(** The pairs a search of [_fancy_replace] has found lie in the ranges
    searched. *)
Definition found_in_range (alo ahi blo bhi : nat) (st : Differ.search) : Prop :=
  (∀ i j, Differ.best_ij st = Some (i, j) → alo ≤ i < ahi ∧ blo ≤ j < bhi)
  ∧ (∀ i j, Differ.eq_ij st = Some (i, j) → alo ≤ i < ahi ∧ blo ≤ j < bhi).

(** ** Notions used to describe what the applier touches *)

(** A target the applier may overwrite: it lies in the repository and its
    relative path is in scope. *)
Definition in_scope_target (repo_root : path) (cfg : config) (t : path) : Prop :=
  ∃ rel_parts, relative_to t repo_root = Some rel_parts
               ∧ within_scope (as_posix rel_parts) cfg = true.

(** The reason of a rejection agrees with the scope guard. *)
Definition truthful (cfg : config) (e : rejected_entry) : Prop :=
  match rejected_reason e with
  | out_of_scope => within_scope (rejected_path e) cfg = false
  | not_found | max_change_lines_exceeded => within_scope (rejected_path e) cfg = true
  end.

(** A component of a path that [Path.resolve] returns: a name that is
    neither empty, [.] nor [..] and holds neither a slash nor a NUL. *)
Definition component (c : string) : Prop :=
  c ≠ "" ∧ c ≠ "." ∧ c ≠ ".." ∧ (¬ "/"%char ∈ Text.chars c) ∧ (¬ Text.NUL ∈ Text.chars c).

(** A resolved path, as the repository root is. *)
Definition resolved (p : path) : Prop := Forall component p.

(** A path the system calls accept whatever the disk holds: it is
    shorter than [PATH_MAX] and so is each of its names than [NAME_MAX]. *)
Definition short_enough (p : path) : Prop :=
  path_length p < PATH_MAX ∧ Forall (λ c, Text.encoded_length c ≤ NAME_MAX) p.

(** A place for a backup that [rollback] can consume: a path named
    [base.apr.bak] in a directory that is found, which is not a directory
    itself and has no directory at [base.apr]. *)
Definition backup_slot (d : gmap path node) (bak : path) : Prop :=
  ∃ dir base,
    bak = dir ++ [base +:+ ".apr.bak"]
    ∧ short_enough bak
    ∧ stat d dir = Found Dir
    ∧ d !! bak ≠ Some Dir
    ∧ stat d (dir ++ [base +:+ ".apr"]) ≠ Found Dir.

(** A pattern, or a part of one, in which no character is special to
    [fnmatch]. *)
Definition literal (pat : string) : Prop :=
  Forall (λ c, c ≠ "*"%char ∧ c ≠ "?"%char ∧ c ≠ "["%char) (Text.chars pat).
(** * Properties *)

(** ** The effect monad *)

Lemma bind_unfold {A B} (m : io A) (f : A → io B) w :
  (x ← m; f x) w = match m w with (Return x, w') => f x w' | (Raise e, w') => (Raise e, w') end.
Proof. reflexivity. Qed.

(** A run whose outcome is known, with the world it reaches. *)
Lemma io_returns {A} (m : io A) (w : world) (x : A) :
  (m w).1 = Return x → m w = (Return x, (m w).2).
Proof. destruct (m w) as [o w']. cbn. by intros ->. Qed.

Lemma io_raises {A} (m : io A) (w : world) (e : exn) :
  (m w).1 = Raise e → m w = (Raise e, (m w).2).
Proof. destruct (m w) as [o w']. cbn. by intros ->. Qed.

Lemma for_each_cons {A S} (body : S → A → io S) x xs st w :
  for_each body (x :: xs) st w =
  match body st x w with
  | (Return st', w') => for_each body xs st' w'
  | (Raise e, w') => (Raise e, w')
  end.
Proof. reflexivity. Qed.

Lemma for_each_app {A S} (body : S → A → io S) xs ys st w :
  for_each body (xs ++ ys) st w =
  match for_each body xs st w with
  | (Return st', w') => for_each body ys st' w'
  | (Raise e, w') => (Raise e, w')
  end.
Proof.
  revert st w. induction xs as [|x xs IH]; intros st w; [done|].
  rewrite <- app_comm_cons, !for_each_cons.
  destruct (body st x w) as [[st'|e] w']; [apply IH|done].
Qed.

(** ** Reasoning about the loop *)

Lemma for_each_ind {A S} (body : S → A → io S) (I : list A → S → world → Prop) xs st0 w0 :
  I [] st0 w0 →
  (∀ seen x st w st' w',
     I seen st w → body st x w = (Return st', w') → I (seen ++ [x]) st' w') →
  ∀ st' w', for_each body xs st0 w0 = (Return st', w') → I xs st' w'.
Proof.
  intros H0 Hstep.
  assert (∀ seen st w st' w',
            I seen st w → for_each body xs st w = (Return st', w') → I (seen ++ xs) st' w')
    as Hgen.
  { induction xs as [|x xs IH]; intros seen st w st' w' HI Hrun.
    - cbn in Hrun. injection Hrun as <- <-. by rewrite app_nil_r.
    - rewrite for_each_cons in Hrun.
      destruct (body st x w) as [[st1|e] w1] eqn:Hb; [|done].
      rewrite (cons_middle x seen xs), app_assoc. eapply IH; [|done]. by eapply Hstep. }
  intros st' w'. by apply (Hgen []).
Qed.

(** ** Strings and paths *)

Lemma chars_app s1 s2 : Text.chars (s1 +:+ s2) = Text.chars s1 ++ Text.chars s2.
Proof.
  unfold Text.chars. induction s1 as [|c s1 IH]; [done|].
  change (String c s1 +:+ s2) with (String c (s1 +:+ s2)).
  cbn [list_ascii_of_string]. by rewrite IH.
Qed.

Lemma of_chars_app l1 l2 : Text.of_chars (l1 ++ l2) = Text.of_chars l1 +:+ Text.of_chars l2.
Proof.
  unfold Text.of_chars. induction l1 as [|c l1 IH]; [done|].
  cbn [app string_of_list_ascii]. rewrite IH. reflexivity.
Qed.

Lemma of_chars_chars s : Text.of_chars (Text.chars s) = s.
Proof. apply string_of_list_ascii_of_string. Qed.

Lemma chars_of_chars l : Text.chars (Text.of_chars l) = l.
Proof. apply list_ascii_of_string_of_list_ascii. Qed.

Lemma length_chars s : length (Text.chars s) = String.length s.
Proof. unfold Text.chars. induction s as [|c s IH]; [done|]. cbn. by rewrite IH. Qed.

Lemma chars_inj s1 s2 : Text.chars s1 = Text.chars s2 → s1 = s2.
Proof. intros Heq. by rewrite <- (of_chars_chars s1), Heq, of_chars_chars. Qed.

Lemma string_app_assoc s1 s2 s3 : (s1 +:+ s2) +:+ s3 = s1 +:+ (s2 +:+ s3).
Proof. apply chars_inj. by rewrite !chars_app, app_assoc. Qed.

Lemma string_app_length s1 s2 :
  String.length (s1 +:+ s2) = String.length s1 + String.length s2.
Proof. by rewrite <- !length_chars, chars_app, length_app. Qed.

Lemma string_app_nonempty_ne s sfx : sfx ≠ "" → s +:+ sfx ≠ s.
Proof.
  intros Hne Heq. apply (f_equal String.length) in Heq.
  rewrite string_app_length in Heq. destruct sfx; [done|]. cbn in Heq. lia.
Qed.

Lemma relative_to_Some p other rel : relative_to p other = Some rel ↔ p = other ++ rel.
Proof.
  revert p. induction other as [|o other IH]; intros p.
  - destruct p; cbn; (split; [by intros [= ->]|by intros ->]).
  - destruct p as [|c p]; [done|]. cbn [relative_to app]. case_bool_decide as Hc.
    + subst c. rewrite IH. split; [by intros ->|by intros [= ->]].
    + split; [done|]. intros [= -> ->]. done.
Qed.

Lemma relative_to_app other rel : relative_to (other ++ rel) other = Some rel.
Proof. by apply relative_to_Some. Qed.

(** The stem and the suffix of a name put together give the name back. *)
Lemma stem_suffix p :
  suffix p ≠ "" →
  Text.substring_to (String.length (name p) - String.length (suffix p)) (name p) +:+ suffix p
  = name p.
Proof.
  unfold suffix. destruct (Text.rfind "." (name p)) as [i|]; [|done].
  destruct ((0 <? i) && (i <? String.length (name p) - 1)) eqn:Hi; [|done].
  intros _. apply andb_prop in Hi as [_ Hi%Nat.ltb_lt].
  unfold Text.substring_from, Text.substring_to. apply chars_inj.
  rewrite chars_app, !chars_of_chars, <- !length_chars, chars_of_chars, length_drop.
  replace (length (Text.chars (name p)) - (length (Text.chars (name p)) - i)) with i.
  - apply take_drop.
  - rewrite <- length_chars in Hi. lia.
Qed.

(** The backup of a file sits next to it, under the file's name followed
    by [.apr.bak]. *)
Lemma with_suffix_backup p bak :
  with_suffix p (suffix p +:+ backup_suffix) = Some bak →
  ∃ dir base, p = dir ++ [base] ∧ bak = dir ++ [base +:+ backup_suffix].
Proof.
  unfold with_suffix. destruct (negb (valid_suffix _)); [done|].
  case_bool_decide as Hname; [done|]. intros [= <-].
  destruct p as [|c p _] using rev_ind; [done|].
  exists p, c. split; [done|]. rewrite removelast_last. f_equal. f_equal.
  assert (name (p ++ [c]) = c) as Hc by (unfold name; by rewrite last_snoc).
  case_bool_decide as Hsfx.
  - by rewrite Hsfx, Hc.
  - by rewrite <- string_app_assoc, stem_suffix, Hc.
Qed.

Lemma join_cons sep p ps :
  ps ≠ [] → Text.join sep (p :: ps) = p +:+ sep +:+ Text.join sep ps.
Proof. by destruct ps. Qed.

Lemma join_snoc_suffix dir base sfx :
  Text.join "/" (dir ++ [base +:+ sfx]) = Text.join "/" (dir ++ [base]) +:+ sfx.
Proof.
  induction dir as [|d dir IH]; [done|].
  cbn [app]. rewrite !join_cons, IH by (by destruct dir).
  by rewrite !string_app_assoc.
Qed.

Lemma as_posix_snoc_suffix dir base sfx :
  as_posix (dir ++ [base +:+ sfx]) = as_posix (dir ++ [base]) +:+ sfx.
Proof.
  unfold as_posix. destruct dir as [|d dir]; [done|]. apply (join_snoc_suffix (d :: dir)).
Qed.

(** Relative to the repository, the backup is the file's relative path
    with [.apr.bak] appended. *)
Lemma backup_relative repo_root target rel_parts bak parts :
  relative_to target repo_root = Some rel_parts →
  with_suffix target (suffix target +:+ backup_suffix) = Some bak →
  relative_to bak repo_root = Some parts →
  as_posix parts = as_posix rel_parts +:+ backup_suffix.
Proof.
  intros ->%relative_to_Some (dir & base & Hp & ->)%with_suffix_backup
    Hbak%relative_to_Some.
  destruct rel_parts as [|c rel _] using rev_ind.
  - rewrite app_nil_r in Hp. subst repo_root.
    rewrite <- app_assoc in Hbak. apply app_inv_head in Hbak.
    destruct parts; [|by destruct parts]. cbn in Hbak. injection Hbak as Hbak.
    by apply string_app_nonempty_ne in Hbak.
  - rewrite app_assoc in Hp. apply app_inj_tail in Hp as [<- <-].
    rewrite <- app_assoc in Hbak. apply app_inv_head in Hbak as <-.
    apply as_posix_snoc_suffix.
Qed.

(** ** fnmatch *)

Lemma find_close_shorter s body rest :
  Fnmatch.find_close s = Some (body, rest) → length rest < length s.
Proof.
  revert body. induction s as [|c s IH]; intros body Hfind; [done|].
  cbn [Fnmatch.find_close] in Hfind. case_bool_decide.
  - injection Hfind as <- <-. cbn. lia.
  - destruct (Fnmatch.find_close s) as [[body' rest']|]; [|done].
    injection Hfind as <- <-. specialize (IH _ eq_refl). cbn. lia.
Qed.

Lemma parse_set_shorter s it rest :
  Fnmatch.parse_set s = Some (it, rest) → length rest ≤ length s.
Proof.
  unfold Fnmatch.parse_set. intros Hparse.
  destruct s as [|c s].
  - by cbn in Hparse.
  - destruct (bool_decide (c = "!"%char)).
    + destruct s as [|d s]; [by cbn in Hparse|].
      destruct (bool_decide (d = "]"%char)).
      * destruct (Fnmatch.find_close s) as [[body r]|] eqn:Hf; [|done].
        injection Hparse as <- <-. apply find_close_shorter in Hf. cbn. lia.
      * destruct (Fnmatch.find_close (d :: s)) as [[body r]|] eqn:Hf; [|done].
        injection Hparse as <- <-. apply find_close_shorter in Hf. cbn in *. lia.
    + destruct (bool_decide (c = "]"%char)).
      * destruct (Fnmatch.find_close s) as [[body r]|] eqn:Hf; [|done].
        injection Hparse as <- <-. apply find_close_shorter in Hf. cbn. lia.
      * destruct (Fnmatch.find_close (c :: s)) as [[body r]|] eqn:Hf; [|done].
        injection Hparse as <- <-. apply find_close_shorter in Hf. cbn in *. lia.
Qed.

(** The length of the pattern is enough fuel for [translate_chars]. *)
Lemma translate_chars_fuel fuel1 fuel2 pat :
  length pat ≤ fuel1 → length pat ≤ fuel2 →
  Fnmatch.translate_chars fuel1 pat = Fnmatch.translate_chars fuel2 pat.
Proof.
  revert fuel2 pat. induction fuel1 as [|fuel1 IH]; intros fuel2 pat H1 H2.
  - destruct pat; [|cbn in H1; lia]. by destruct fuel2.
  - destruct pat as [|c pat]; [by destruct fuel2|].
    destruct fuel2 as [|fuel2]; [cbn in H2; lia|].
    cbn [length] in H1, H2. cbn [Fnmatch.translate_chars].
    repeat case_bool_decide; try (f_equal; apply IH; lia).
    destruct (Fnmatch.parse_set pat) as [[it rest]|] eqn:Hparse.
    + apply parse_set_shorter in Hparse. f_equal. apply IH; lia.
    + f_equal. apply IH; lia.
Qed.

(** ** The matcher stays inside its rectangle and terminates *)

Import Difflib.

Section matcher_bounds.
Context `{Countable A}.
Implicit Types (a b : list A) (P : A → bool) (best : block).

Lemma scan_row_inside alo blo bhi i j2len js newj2len best :
  alo ≤ i →
  lens_inside alo blo bhi i j2len →
  lens_inside alo blo bhi (S i) newj2len →
  inside alo (S i) blo bhi best →
  lens_inside alo blo bhi (S i) (scan_row i blo bhi j2len js newj2len best).1
  ∧ inside alo (S i) blo bhi (scan_row i blo bhi j2len js newj2len best).2.
Proof.
  intros Hi Hold. revert newj2len best.
  induction js as [|j js IH]; intros newj2len best Hnew Hbest; [done|].
  cbn [scan_row]. destruct (Nat.ltb_spec j blo); [by apply IH|].
  destruct (Nat.leb_spec bhi j); [done|].
  assert (j2lenget_pred j2len j + 1 + alo ≤ S i ∧ j2lenget_pred j2len j + 1 + blo ≤ j + 1)
    as [Hki Hkj].
  { destruct j as [|j']; cbn [j2lenget_pred]; [lia|].
    destruct (j2len !! j') as [k'|] eqn:Hk'; cbn [default from_option id]; [|lia].
    destruct (Hold j' k' Hk') as (? & ? & ?). lia. }
  apply IH.
  - intros j0 k0 Hlook. destruct (decide (j = j0)) as [->|Hne].
    + rewrite lookup_insert_eq in Hlook. injection Hlook as <-. lia.
    + rewrite lookup_insert_ne in Hlook by done. by apply Hnew.
  - destruct (best.2 <? _); [|done]. unfold inside. cbn [fst snd]. lia.
Qed.

Lemma longest_junk_free_inside a b2j alo ahi blo bhi :
  alo ≤ ahi → blo ≤ bhi →
  inside alo ahi blo bhi (longest_junk_free a b2j alo ahi blo bhi).
Proof.
  intros Ha Hb. unfold longest_junk_free.
  assert (∀ n, alo + n ≤ ahi →
            lens_inside alo blo bhi (alo + n)
              (foldl (row_step a b2j blo bhi) (∅, (alo, blo, 0)) (seq alo n)).1
            ∧ inside alo (alo + n) blo bhi
                (foldl (row_step a b2j blo bhi) (∅, (alo, blo, 0)) (seq alo n)).2) as Hall.
  { induction n as [|n IH]; intros Hn.
    - cbn [seq foldl fst snd]. split.
      + intros j k. by rewrite lookup_empty.
      + unfold inside. cbn. lia.
    - rewrite seq_S, foldl_app. cbn [foldl]. destruct IH as [Hlens Hin]; [lia|].
      unfold row_step at 1 3. replace (alo + S n) with (S (alo + n)) by lia.
      apply scan_row_inside; [lia|done| |].
      + intros j k. by rewrite lookup_empty.
      + destruct Hin as (? & ? & ? & ?). unfold inside. lia. }
  destruct (Hall (ahi - alo)) as [_ Hin]; [lia|].
  by replace (alo + (ahi - alo)) with ahi in Hin by lia.
Qed.

Lemma extend_left_inside a b P alo blo besti bestj bestsize :
  alo ≤ besti → blo ≤ bestj →
  ∃ d, d ≤ besti ∧ d ≤ bestj ∧ alo ≤ besti - d ∧ blo ≤ bestj - d
       ∧ extend_left a b P alo blo besti bestj bestsize
         = (besti - d, bestj - d, bestsize + d).
Proof.
  revert bestj bestsize. induction besti as [|i IH]; intros bestj bestsize Hi Hj.
  - exists 0. cbn. rewrite Nat.add_0_r, Nat.sub_0_r. repeat split; (done || lia).
  - destruct bestj as [|j].
    { exists 0. cbn. rewrite Nat.add_0_r. repeat split; (done || lia). }
    cbn [extend_left].
    destruct ((alo <? S i) && (blo <? S j) && same_at a b P i j) eqn:Hgo.
    + apply andb_prop in Hgo as [[Hai%Nat.ltb_lt Hbj%Nat.ltb_lt]%andb_prop _].
      destruct (IH j (S bestsize)) as (d & ? & ? & ? & ? & ->); [lia|lia|].
      exists (S d). cbn [Nat.sub]. repeat split; try lia. f_equal. lia.
    + exists 0. rewrite Nat.add_0_r, !Nat.sub_0_r. repeat split; (done || lia).
Qed.

Lemma extend_right_inside a b P ahi bhi besti bestj gap bestsize :
  besti + bestsize ≤ ahi → bestj + bestsize ≤ bhi →
  bestsize ≤ extend_right a b P ahi bhi besti bestj gap bestsize
  ∧ besti + extend_right a b P ahi bhi besti bestj gap bestsize ≤ ahi
  ∧ bestj + extend_right a b P ahi bhi besti bestj gap bestsize ≤ bhi.
Proof.
  revert bestsize. induction gap as [|gap IH]; intros bestsize Hi Hj; cbn [extend_right];
    [lia|].
  destruct ((besti + bestsize <? ahi) && (bestj + bestsize <? bhi) && _) eqn:Hgo; [|lia].
  apply andb_prop in Hgo as [[Hai%Nat.ltb_lt Hbj%Nat.ltb_lt]%andb_prop _].
  destruct (IH (S bestsize)) as (? & ? & ?); lia.
Qed.

Lemma extend_inside a b P alo ahi blo bhi best :
  inside alo ahi blo bhi best → inside alo ahi blo bhi (extend a b P alo ahi blo bhi best).
Proof.
  intros (Hi & Hj & Hia & Hjb). unfold extend.
  destruct (extend_left_inside a b P alo blo best.1.1 best.1.2 best.2 Hi Hj)
    as (d & ? & ? & ? & ? & ->).
  pose proof (extend_right_inside a b P ahi bhi (best.1.1 - d) (best.1.2 - d)
                (ahi - (best.1.1 - d + (best.2 + d))) (best.2 + d)) as Hr.
  destruct Hr as (? & ? & ?); [lia|lia|]. unfold inside. cbn [fst snd]. lia.
Qed.

(** The block [find_longest_match] returns lies inside the rectangle it
    was asked to search. *)
Lemma find_longest_match_inside isjunk a b b2j alo ahi blo bhi :
  alo ≤ ahi → blo ≤ bhi →
  inside alo ahi blo bhi (find_longest_match isjunk a b b2j alo ahi blo bhi).
Proof.
  intros Ha Hb. unfold find_longest_match.
  by apply extend_inside, extend_inside, longest_junk_free_inside.
Qed.

Lemma matching_loop_enough_fuel isjunk a b b2j fuel queue matching_blocks :
  Forall well_formed queue → pending queue ≤ fuel →
  is_Some (matching_loop isjunk a b b2j fuel queue matching_blocks).
Proof.
  revert queue matching_blocks.
  induction fuel as [|fuel IH]; intros queue matching_blocks Hwf Hfuel.
  - destruct queue as [|[[[alo ahi] blo] bhi] queue]; [by eexists|].
    unfold pending in Hfuel. cbn in Hfuel. lia.
  - destruct queue as [|[[[alo ahi] blo] bhi] queue]; [by eexists|].
    apply Forall_cons in Hwf as [[Ha Hb] Hwf]. cbn [fst snd] in Ha, Hb.
    unfold pending in Hfuel. cbn [sum_list_with fst snd] in Hfuel. fold (pending queue) in Hfuel.
    cbn [matching_loop].
    pose proof (find_longest_match_inside isjunk a b b2j alo ahi blo bhi Ha Hb) as Hin.
    destruct (find_longest_match isjunk a b b2j alo ahi blo bhi) as [[i j] k].
    destruct Hin as (Hi & Hj & Hik & Hjk). cbn [fst snd] in Hi, Hj, Hik, Hjk.
    destruct (Nat.eqb_spec k 0) as [->|Hk]; [apply IH; [done|lia]|].
    apply IH.
    + destruct ((i + k <? ahi) && (j + k <? bhi)); destruct ((alo <? i) && (blo <? j));
        repeat (apply Forall_cons; split); try done; unfold well_formed; cbn [fst snd]; lia.
    + destruct ((i + k <? ahi) && (j + k <? bhi)); destruct ((alo <? i) && (blo <? j));
        unfold pending; cbn [sum_list_with fst snd]; fold (pending queue); lia.
Qed.

(** [get_matching_blocks] never runs out of fuel. *)
Lemma matching_loop_total isjunk a b :
  is_Some (matching_loop isjunk a b (chain_b isjunk b) (length a + length b + 1)
             [(0, length a, 0, length b)] []).
Proof.
  apply matching_loop_enough_fuel.
  - repeat constructor; cbn; lia.
  - unfold pending. cbn. lia.
Qed.
End matcher_bounds.

(** ** The nested calls of the line replacer *)

Lemma search_step_in_range a b alo ahi blo bhi j st i :
  alo ≤ i < ahi → blo ≤ j < bhi →
  found_in_range alo ahi blo bhi st →
  found_in_range alo ahi blo bhi (Differ.search_step a b j st i).
Proof.
  intros Hi Hj Hst. pose proof Hst as [Hbest Heq]. unfold Differ.search_step.
  destruct (a !! i) as [ai|]; [|done]. destruct (b !! j) as [bj|]; [|done].
  case_bool_decide.
  - destruct (Differ.eq_ij st) eqn:Hfound; [done|]. split; cbn; [done|].
    by intros ? ? [= <- <-].
  - destruct (Differ.closer_than _ _ _); [|done]. split; cbn; [|done].
    by intros ? ? [= <- <-].
Qed.

Lemma search_pairs_in_range a alo ahi b blo bhi :
  found_in_range alo ahi blo bhi (Differ.search_pairs a alo ahi b blo bhi).
Proof.
  unfold Differ.search_pairs.
  assert (∀ js st, Forall (λ j, blo ≤ j < bhi) js → found_in_range alo ahi blo bhi st →
            found_in_range alo ahi blo bhi
              (foldl (λ st j, foldl (Differ.search_step a b j) st (seq alo (ahi - alo))) st js))
    as Houter.
  { intros js st Hjs. revert st. induction Hjs as [|j js Hj _ IH]; intros st Hst; [done|].
    cbn [foldl]. apply IH.
    assert (∀ l st, Forall (λ i, alo ≤ i < ahi) l → found_in_range alo ahi blo bhi st →
              found_in_range alo ahi blo bhi (foldl (Differ.search_step a b j) st l)) as Hinner.
    { intros l st' Hl. revert st'. induction Hl as [|i l Hi _ IHl]; intros st' Hst'; [done|].
      cbn [foldl]. by apply IHl, search_step_in_range. }
    apply Hinner; [|done]. apply Forall_forall. intros i Hin%elem_of_seq. lia. }
  apply Houter.
  - apply Forall_forall. intros j Hin%elem_of_seq. lia.
  - by split.
Qed.

Lemma fancy_round_ext fancy1 fancy2 a alo ahi b blo bhi :
  (∀ alo' ahi' blo' bhi',
     alo' < ahi' → blo' < bhi' →
     (ahi' - alo') + (bhi' - blo') + 2 ≤ (ahi - alo) + (bhi - blo) →
     fancy1 alo' ahi' blo' bhi' = fancy2 alo' ahi' blo' bhi') →
  Differ.fancy_round fancy1 a alo ahi b blo bhi = Differ.fancy_round fancy2 a alo ahi b blo bhi.
Proof.
  intros Hext. unfold Differ.fancy_round.
  destruct (search_pairs_in_range a alo ahi b blo bhi) as [Hbest Heq].
  assert (∀ i j identical, alo ≤ i < ahi ∧ blo ≤ j < bhi →
    Differ.fancy_helper fancy1 a alo i b blo j
    ++ (if identical : bool then ["  " +:+ Differ.line_at a i]
        else Differ.qformat (Differ.line_at a i) (Differ.line_at b j))
    ++ Differ.fancy_helper fancy1 a (i + 1) ahi b (j + 1) bhi
    = Differ.fancy_helper fancy2 a alo i b blo j
      ++ (if identical then ["  " +:+ Differ.line_at a i]
          else Differ.qformat (Differ.line_at a i) (Differ.line_at b j))
      ++ Differ.fancy_helper fancy2 a (i + 1) ahi b (j + 1) bhi) as Hsynch.
  { intros i j identical [Hi Hj]. unfold Differ.fancy_helper. f_equal; [|f_equal].
    - destruct (Nat.ltb_spec alo i); [|done]. destruct (Nat.ltb_spec blo j); [|done].
      apply Hext; lia.
    - destruct (Nat.ltb_spec (i + 1) ahi); [|done].
      destruct (Nat.ltb_spec (j + 1) bhi); [|done]. apply Hext; lia. }
  destruct (ratio_lt _ _).
  - destruct (Differ.eq_ij _) as [[eqi eqj]|]; [|done].
    exact (Hsynch eqi eqj true (Heq eqi eqj eq_refl)).
  - destruct (Differ.best_ij _) as [[best_i best_j]|]; [|done].
    exact (Hsynch best_i best_j false (Hbest best_i best_j eq_refl)).
Qed.

(** The number of lines in the two ranges is enough fuel for
    [fancy_replace]: more fuel gives the same lines. *)
Lemma fancy_replace_fuel a b fuel extra alo ahi blo bhi :
  alo < ahi → blo < bhi → (ahi - alo) + (bhi - blo) ≤ fuel →
  Differ.fancy_replace (fuel + extra) a alo ahi b blo bhi
  = Differ.fancy_replace fuel a alo ahi b blo bhi.
Proof.
  revert alo ahi blo bhi. induction fuel as [|fuel IH]; intros alo ahi blo bhi Ha Hb Hfuel;
    [lia|].
  cbn [Nat.add Differ.fancy_replace]. apply fancy_round_ext.
  intros alo' ahi' blo' bhi' Ha' Hb' Hsize. apply IH; lia.
Qed.

(** ** The matcher on a sequence and itself *)

Section matcher_facts.
Context `{Countable A}.
Implicit Types (a b : list A) (x y : A) (i j k : nat).

Lemma b2j_fold_lookup b i m x :
  default [] (foldl setdefault_append m (imap (λ n y, (i + n, y)) b) !! x)
  = default [] (m !! x) ++ positions_from x i b.
Proof.
  revert i m. induction b as [|y b IH]; intros i m.
  - cbn. by rewrite app_nil_r.
  - cbn [imap foldl positions_from].
    rewrite (imap_ext _ (λ n y, (S i + n, y))) by (intros; cbn; f_equal; lia).
    rewrite IH. unfold setdefault_append at 1. cbn [fst snd].
    rewrite Nat.add_0_r, app_assoc. f_equal.
    destruct (decide (x = y)) as [->|Hne].
    + by rewrite lookup_insert_eq.
    + rewrite lookup_insert_ne by done. by rewrite app_nil_r.
Qed.

Lemma chain_b_lookup isjunk b x js :
  chain_b isjunk b !! x = Some js → js = positions_from x 0 b.
Proof.
  intros Hlook.
  assert (foldl setdefault_append ∅ (imap pair b) !! x = Some js) as Hall.
  { unfold chain_b in Hlook. destruct (200 <=? length b).
    - apply map_lookup_filter_Some in Hlook as [Hlook _].
      by apply map_lookup_filter_Some in Hlook as [Hlook _].
    - by apply map_lookup_filter_Some in Hlook as [Hlook _]. }
  pose proof (b2j_fold_lookup b 0 ∅ x) as Hpos.
  rewrite (imap_ext _ pair) in Hpos by done.
  by rewrite Hall, lookup_empty in Hpos.
Qed.

Lemma positions_from_bounds x i b j :
  j ∈ positions_from x i b → i ≤ j < i + length b ∧ b !! (j - i) = Some x.
Proof.
  revert i. induction b as [|y b IH]; intros i Hin; [by apply elem_of_nil in Hin|].
  cbn [positions_from] in Hin. apply elem_of_app in Hin as [Hin|Hin].
  - destruct (decide (x = y)) as [->|]; [|by apply elem_of_nil in Hin].
    apply list_elem_of_singleton in Hin as ->. rewrite Nat.sub_diag. cbn. split; [lia|done].
  - apply IH in Hin as [? Hl]. cbn [length]. split; [lia|].
    replace (j - i) with (S (j - S i)) by lia. done.
Qed.

(** The positions of [x] split around any position [t] that holds [x]. *)
Lemma positions_from_split x i b t :
  b !! t = Some x →
  ∃ low high,
    positions_from x i b = low ++ [i + t] ++ high
    ∧ Forall (λ j, j < i + t) low ∧ Forall (λ j, i + t < j) high.
Proof.
  revert i t. induction b as [|y b IH]; intros i t Ht; [done|].
  cbn [positions_from]. destruct t as [|t].
  - injection Ht as ->. rewrite decide_True by done.
    exists [], (positions_from x (S i) b). rewrite Nat.add_0_r. split; [done|].
    split; [constructor|]. apply Forall_forall. intros j Hj.
    apply positions_from_bounds in Hj. lia.
  - cbn in Ht. destruct (IH (S i) t Ht) as (low & high & -> & Hlow & Hhigh).
    exists ((if decide (x = y) then [i] else []) ++ low), high.
    replace (S i + t) with (i + S t) in * by lia.
    split; [by rewrite <- app_assoc|]. split; [|done].
    apply Forall_app. split; [|done].
    destruct (decide (x = y)); constructor; [lia|constructor].
Qed.
End matcher_facts.

Section diagonal_facts.
Context `{Countable A}.
Variable a : list A.
Variable b2j : gmap A (list nat).
Hypothesis b2j_positions : ∀ x js, b2j !! x = Some js → js = positions_from x 0 a.

Let live (x : A) : bool := bool_decide (is_Some (b2j !! x)).
Let run : nat → nat := live_run live a.
Let before (t : nat) : nat := match t with 0 => 0 | S t' => run t' end.

Lemma run_live t x : a !! t = Some x → live x = true → run t = S (before t).
Proof. intros Ht Hx. unfold run. destruct t; cbn [live_run]; by rewrite Ht, Hx. Qed.

Lemma run_dead t x : a !! t = Some x → live x = false → run t = 0.
Proof. intros Ht Hx. unfold run. destruct t; cbn [live_run]; by rewrite Ht, Hx. Qed.

Lemma run_le t : run t ≤ S t.
Proof.
  unfold run. induction t as [|t IH]; cbn [live_run];
    destruct (a !! _) as [x|]; try lia; destruct (live x); lia.
Qed.

Lemma scan_row_quiet i bhi j2len js new best :
  (∀ j, j ∈ js → j < bhi ∧ j2lenget_pred j2len j + 1 ≤ best.2) →
  scan_row i 0 bhi j2len js new best = (foldl (record_len j2len) new js, best).
Proof.
  revert new. induction js as [|j js IH]; intros new Hjs; [done|].
  destruct (Hjs j) as [Hlt Hk]; [by left|].
  cbn [scan_row foldl]. change (j <? 0) with false. cbn match.
  rewrite (proj2 (Nat.leb_gt bhi j)) by done.
  rewrite (proj2 (Nat.ltb_ge _ _)) by done.
  apply IH. intros j' Hj'. apply Hjs. by right.
Qed.

Lemma scan_row_app i blo bhi j2len l1 l2 new best :
  Forall (λ j, j < bhi) l1 →
  scan_row i blo bhi j2len (l1 ++ l2) new best
  = scan_row i blo bhi j2len l2 (scan_row i blo bhi j2len l1 new best).1
      (scan_row i blo bhi j2len l1 new best).2.
Proof.
  intros Hl1. revert new best.
  induction Hl1 as [|j l1 Hj _ IH]; intros new best; [done|].
  cbn [app scan_row]. destruct (j <? blo); [apply IH|].
  rewrite (proj2 (Nat.leb_gt bhi j)) by done. apply IH.
Qed.

Lemma record_lookup j2len js m j k :
  foldl (record_len j2len) m js !! j = Some k →
  (j ∈ js ∧ k = j2lenget_pred j2len j + 1) ∨ m !! j = Some k.
Proof.
  revert m. induction js as [|j' js IH]; intros m Hlook; [by right|].
  cbn [foldl] in Hlook. apply IH in Hlook as [[Hin ->]|Hlook].
  - left. split; [by right|done].
  - unfold record_len in Hlook. destruct (decide (j' = j)) as [->|Hne].
    + rewrite lookup_insert_eq in Hlook. injection Hlook as <-. left. split; [by left|done].
    + rewrite lookup_insert_ne in Hlook by done. by right.
Qed.

Lemma record_lookup_other j2len js m j :
  j ∉ js → foldl (record_len j2len) m js !! j = m !! j.
Proof.
  revert m. induction js as [|j' js IH]; intros m Hnot; [done|].
  cbn [foldl]. rewrite IH by (intros ?; apply Hnot; by right).
  unfold record_len. rewrite lookup_insert_ne; [done|]. intros ->. apply Hnot. by left.
Qed.

(** The length recorded for a pair of live positions stays within both
    runs. *)
Lemma next_len_bound i st j x :
  diag_inv live a i st → a !! j = Some x → a !! i = Some x → live x = true →
  j2lenget_pred st.1 j + 1 ≤ run j ∧ j2lenget_pred st.1 j + 1 ≤ run i.
Proof.
  intros Hinv Hj Hi Hx. rewrite (run_live j x), (run_live i x) by done.
  destruct j as [|j]; cbn [j2lenget_pred before]; [lia|].
  destruct (st.1 !! j) as [k|] eqn:Hk; cbn [default from_option id]; [|lia].
  destruct (inv_len _ _ _ _ Hinv j k Hk) as [Hkj Hki].
  destruct i as [|i]; [done|]. cbn [before]. unfold run. lia.
Qed.

Lemma next_len_diag i st x :
  diag_inv live a i st → a !! i = Some x → live x = true →
  j2lenget_pred st.1 i + 1 = run i.
Proof.
  intros Hinv Hi Hx. rewrite (run_live i x) by done.
  destruct i as [|i]; cbn [j2lenget_pred before]; [lia|].
  destruct (a !! i) as [y|] eqn:Hy.
  - destruct (live y) eqn:Hly.
    + rewrite (inv_diag _ _ _ _ Hinv i y eq_refl Hy Hly). cbn. unfold run. lia.
    + rewrite (run_dead i y) by done.
      destruct (st.1 !! i) as [k|] eqn:Hk; cbn [default from_option id]; [|lia].
      destruct (inv_len _ _ _ _ Hinv i k Hk) as [Hkj _].
      fold run in Hkj. rewrite (run_dead i y) in Hkj by done. lia.
  - apply lookup_ge_None in Hy. apply lookup_lt_Some in Hi. lia.
Qed.

Lemma row_step_diag i st :
  i < length a → diag_inv live a i st →
  diag_inv live a (S i) (row_step a b2j 0 (length a) st i).
Proof.
  intros Hi Hinv. unfold row_step, b2j_get.
  destruct (lookup_lt_is_Some_2 a i Hi) as [x Hx]. rewrite Hx.
  destruct (inv_best _ _ _ _ Hinv) as (p & s & Hbest & Hps).
  destruct (b2j !! x) as [js|] eqn:Hjs; cbn [default from_option id].
  2:{ assert (live x = false) as Hdead
        by (unfold live; rewrite Hjs; apply bool_decide_eq_false_2; by intros [? ?]).
      cbn [scan_row]. constructor; cbn [fst snd].
      - exists p, s. split; [done|lia].
      - intros t Ht. destruct (decide (t = i)) as [->|].
        + fold run. rewrite (run_dead i x) by done. lia.
        + apply (inv_runs _ _ _ _ Hinv). lia.
      - intros j k Hk. by rewrite lookup_empty in Hk.
      - intros i' y [= <-] Hy Hly. congruence. }
  assert (live x = true) as Hlive
    by (unfold live; rewrite Hjs; apply bool_decide_eq_true_2; eauto).
  apply b2j_positions in Hjs as ->.
  destruct (positions_from_split x 0 a i Hx) as (low & high & Hsplit & Hlow & Hhigh).
  cbn [Nat.add] in Hsplit, Hlow, Hhigh.
  assert (∀ j, j ∈ positions_from x 0 a → j < length a ∧ a !! j = Some x) as Hpos.
  { intros j Hj. apply positions_from_bounds in Hj as [? Hj].
    rewrite Nat.sub_0_r in Hj. split; [lia|done]. }
  assert (∀ j, j ∈ low → j < length a ∧ a !! j = Some x) as Hlowpos
    by (intros j Hj; apply Hpos; rewrite Hsplit; apply elem_of_app; by left).
  assert (∀ j, j ∈ high → j < length a ∧ a !! j = Some x) as Hhighpos
    by (intros j Hj; apply Hpos; rewrite Hsplit; apply elem_of_app; right;
        apply elem_of_app; by right).
  rewrite Hsplit.
  rewrite scan_row_app by (apply Forall_forall; intros j Hj; by apply Hlowpos).
  rewrite (scan_row_quiet i (length a) st.1 low ∅ st.2).
  2:{ intros j Hj. split; [by apply Hlowpos|].
      destruct (next_len_bound i st j x Hinv) as [Hkj _]; try done; [by apply Hlowpos|].
      rewrite Forall_forall in Hlow.
      pose proof (inv_runs _ _ _ _ Hinv j (Hlow j Hj)) as Hrun. fold run in Hrun. lia. }
  cbn [fst snd app scan_row]. change (i <? 0) with false. cbn match.
  rewrite (proj2 (Nat.leb_gt (length a) i)) by done.
  rewrite (next_len_diag i st x) by done.
  set (best' := if st.2.2 <? run i then (i + 1 - run i, i + 1 - run i, run i) else st.2).
  assert (st.2.2 ≤ best'.2 ∧ run i ≤ best'.2
          ∧ ∃ p' s', best' = (p', p', s') ∧ p' + s' ≤ S i) as (Hgrow & Hrun_i & Hdiag).
  { unfold best'. destruct (Nat.ltb_spec st.2.2 (run i)); cbn [snd].
    - split; [lia|]. split; [lia|]. eexists _, _. split; [done|].
      pose proof (run_le i). lia.
    - split; [lia|]. split; [lia|]. exists p, s. split; [done|lia]. }
  rewrite (scan_row_quiet i (length a) st.1 high _ best').
  2:{ intros j Hj. split; [by apply Hhighpos|].
      destruct (next_len_bound i st j x Hinv) as [_ Hki]; try done; [by apply Hhighpos|].
      lia. }
  constructor; cbn [fst snd].
  - done.
  - intros t Ht. destruct (decide (t = i)) as [->|]; [done|].
    pose proof (inv_runs _ _ _ _ Hinv t ltac:(lia)). lia.
  - intros j k Hk. fold run.
    assert (j ∈ positions_from x 0 a ∧ k = j2lenget_pred st.1 j + 1 ∨ (j = i ∧ k = run i))
      as [[Hj ->]|[-> ->]].
    { apply record_lookup in Hk as [[Hj ->]|Hk].
      - left. split; [|done]. rewrite Hsplit. apply elem_of_app. right.
        apply elem_of_app. by right.
      - destruct (decide (i = j)) as [->|Hne].
        + rewrite lookup_insert_eq in Hk. injection Hk as <-. by right.
        + rewrite lookup_insert_ne in Hk by done.
          apply record_lookup in Hk as [[Hj ->]|Hk]; [|by rewrite lookup_empty in Hk].
          left. split; [|done]. rewrite Hsplit. apply elem_of_app. by left. }
    + apply (next_len_bound i st j x Hinv); [by apply Hpos|done|done].
    + done.
  - intros i' y [= <-] Hy Hly.
    rewrite record_lookup_other.
    + by rewrite lookup_insert_eq.
    + intros Hin. rewrite Forall_forall in Hhigh. specialize (Hhigh i Hin). lia.
Qed.

Lemma longest_junk_free_diag :
  ∃ p s, longest_junk_free a b2j 0 (length a) 0 (length a) = (p, p, s)
         ∧ p + s ≤ length a.
Proof.
  unfold longest_junk_free. rewrite Nat.sub_0_r.
  assert (∀ i, i ≤ length a →
            diag_inv live a i (foldl (row_step a b2j 0 (length a)) (∅, (0, 0, 0)) (seq 0 i)))
    as Hall.
  { induction i as [|i IH]; intros Hi.
    - constructor; cbn; [exists 0, 0; by split|lia|by intros j k; rewrite lookup_empty|done].
    - rewrite seq_S, foldl_app. cbn [foldl Nat.add]. apply row_step_diag; [lia|].
      apply IH. lia. }
  by apply (inv_best _ _ _ _ (Hall (length a) (le_n _))).
Qed.
End diagonal_facts.

Section self_match.
Context `{Countable A}.
Implicit Types (a : list A) (P : A → bool).

Lemma same_at_diag a P t :
  (∀ y, P y = true) → t < length a → same_at a a P t t = true.
Proof.
  intros HP Ht. unfold same_at. destruct (lookup_lt_is_Some_2 a t Ht) as [y Hy].
  rewrite Hy, HP. by apply bool_decide_eq_true_2.
Qed.

Lemma same_at_never a b P i j : (∀ y, P y = false) → same_at a b P i j = false.
Proof. intros HP. unfold same_at. destruct (b !! j); [by rewrite HP|done]. Qed.

Lemma extend_left_diag a P p s :
  (∀ y, P y = true) → p ≤ length a → extend_left a a P 0 0 p p s = (0, 0, s + p).
Proof.
  intros HP. revert s. induction p as [|p IH]; intros s Hp.
  - cbn. by rewrite Nat.add_0_r.
  - cbn [extend_left]. rewrite same_at_diag by (done || lia).
    cbn. rewrite IH by lia. f_equal. lia.
Qed.

Lemma extend_left_never a b P alo blo besti bestj bestsize :
  (∀ y, P y = false) →
  extend_left a b P alo blo besti bestj bestsize = (besti, bestj, bestsize).
Proof.
  intros HP. destruct besti, bestj; cbn [extend_left]; try done.
  by rewrite same_at_never, andb_false_r.
Qed.

Lemma extend_right_diag a P gap s :
  (∀ y, P y = true) → s + gap = length a →
  extend_right a a P (length a) (length a) 0 0 gap s = length a.
Proof.
  intros HP. revert s. induction gap as [|gap IH]; intros s Hs; cbn [extend_right].
  - lia.
  - cbn [Nat.add]. rewrite same_at_diag by (done || lia).
    rewrite (proj2 (Nat.ltb_lt s (length a))) by lia. cbn. apply IH. lia.
Qed.

Lemma extend_right_never a b P ahi bhi besti bestj gap bestsize :
  (∀ y, P y = false) →
  extend_right a b P ahi bhi besti bestj gap bestsize = bestsize.
Proof.
  intros HP. destruct gap; cbn [extend_right]; [done|].
  by rewrite same_at_never, andb_false_r.
Qed.

(** Against itself, and with no junk, a sequence is one matching block,
    whatever the popularity purge removed from [b2j]. *)
Lemma find_longest_match_self a :
  find_longest_match (λ _, false) a a (chain_b (λ _, false) a) 0 (length a) 0 (length a)
  = (0, 0, length a).
Proof.
  unfold find_longest_match.
  destruct (longest_junk_free_diag a (chain_b (λ _, false) a)) as (p & s & -> & Hps).
  { intros x js. apply chain_b_lookup. }
  unfold extend at 2. cbn [fst snd].
  rewrite extend_left_diag by (done || lia).
  rewrite extend_right_diag by (done || lia).
  unfold extend. cbn [fst snd].
  rewrite extend_left_never by done. by rewrite extend_right_never.
Qed.

Lemma get_matching_blocks_self a :
  get_matching_blocks (λ _, false) a a
  = if length a =? 0 then [(0, 0, 0)] else [(0, 0, length a); (length a, length a, 0)].
Proof.
  unfold get_matching_blocks.
  replace (length a + length a + 1) with (S (length a + length a)) by lia.
  cbn [matching_loop]. rewrite find_longest_match_self.
  destruct (length a) as [|n] eqn:Hn; [done|].
  cbn [Nat.eqb]. rewrite !Nat.ltb_irrefl. cbn [andb matching_loop app].
  reflexivity.
Qed.

Lemma get_opcodes_self a :
  get_opcodes (λ _, false) a a
  = if length a =? 0 then [] else [(Equal, 0, length a, 0, length a)].
Proof.
  unfold get_opcodes. rewrite get_matching_blocks_self.
  destruct (length a) as [|n]; [done|]. cbn [Nat.eqb foldl opcode_step].
  rewrite !Nat.ltb_irrefl. cbn. done.
Qed.
End self_match.

Lemma equal_lines_not_counted (a : list string) :
  filter (λ d, added_or_removed d = true) (Differ.dump " " a 0 (length a)) = [].
Proof.
  unfold Differ.dump. rewrite Nat.sub_0_r, drop_0, firstn_all.
  induction a as [|l a IH]; [done|].
  rewrite fmap_cons, filter_cons_False; [done|]. cbn. done.
Qed.

Lemma ndiff_self (a : list string) : Differ.ndiff a a = Differ.dump " " a 0 (length a).
Proof.
  unfold Differ.ndiff, Differ.compare. rewrite get_opcodes_self.
  destruct (length a) eqn:Hn.
  - apply length_zero_iff_nil in Hn as ->. done.
  - cbn. by rewrite app_nil_r.
Qed.

Lemma count_self (s : string) : count_change_lines s s = 0.
Proof.
  unfold count_change_lines. by rewrite ndiff_self, equal_lines_not_counted.
Qed.

(** ** The diff sizer *)




(** ** Looking paths up *)

Lemma resolve_joined_Some repo_root s target :
  resolve_joined repo_root s = Some target ↔
  (¬ Text.NUL ∈ Text.chars s) ∧ target = realpath repo_root s.
Proof.
  unfold resolve_joined. case_bool_decide; split; try done.
  - by intros [? _].
  - by intros [= <-].
  - by intros [_ ->].
Qed.

Lemma walk_app d dir n rest1 rest2 :
  walk d dir n (rest1 ++ rest2) =
  match walk d dir n rest1 with
  | Found n' => walk d (dir ++ rest1) n' rest2
  | e => e
  end.
Proof.
  revert dir n. induction rest1 as [|c rest1 IH]; intros dir n.
  - cbn. by rewrite app_nil_r.
  - cbn [app walk]. destruct n as [data|]; [done|].
    destruct (NAME_MAX <? Text.encoded_length c); [done|].
    destruct (d !! (dir ++ [c])) as [n'|]; [|done].
    rewrite IH. by rewrite <- app_assoc.
Qed.

Lemma walk_ext d1 d2 dir n rest :
  (∀ rest1, rest1 `prefix_of` rest → d1 !! (dir ++ rest1) = d2 !! (dir ++ rest1)) →
  walk d1 dir n rest = walk d2 dir n rest.
Proof.
  revert dir n. induction rest as [|c rest IH]; intros dir n Hsame; [done|].
  cbn [walk]. destruct n as [data|]; [done|].
  destruct (NAME_MAX <? Text.encoded_length c); [done|].
  rewrite <- (Hsame [c]) by (by exists rest).
  destruct (d1 !! (dir ++ [c])) as [n'|]; [|done].
  apply IH. intros rest1 [k ->]. rewrite <- !app_assoc. apply (Hsame (c :: rest1)).
  by exists k.
Qed.

Lemma stat_ext d1 d2 p :
  (∀ q, q `prefix_of` p → d1 !! q = d2 !! q) → stat d1 p = stat d2 p.
Proof.
  intros Hsame. unfold stat. destruct (PATH_MAX <=? path_length p); [done|].
  by apply walk_ext.
Qed.

(** A write or a removal at [q] is not seen from a path that does not
    pass through [q]. *)
Lemma stat_insert_other d q n p :
  ¬ q `prefix_of` p → stat (<[q := n]> d) p = stat d p.
Proof.
  intros Hq. apply stat_ext. intros q' Hq'. apply lookup_insert_ne. by intros ->.
Qed.

Lemma stat_delete_other (d : gmap path node) q p :
  ¬ q `prefix_of` p → stat (delete q d) p = stat d p.
Proof.
  intros Hq. apply stat_ext. intros q' Hq'. apply lookup_delete_ne. by intros ->.
Qed.

Lemma sibling_not_prefix (dir : path) a b : a ≠ b → ¬ (dir ++ [a]) `prefix_of` (dir ++ [b]).
Proof.
  intros Hne [k Hk]. rewrite <- app_assoc in Hk. apply app_inv_head in Hk.
  by injection Hk as ->.
Qed.

Lemma child_not_prefix (dir : path) a : ¬ (dir ++ [a]) `prefix_of` dir.
Proof.
  intros [k Hk]. apply (f_equal length) in Hk. rewrite !length_app in Hk. cbn in Hk. lia.
Qed.

Lemma path_length_snoc dir c :
  path_length dir ≤ path_length (dir ++ [c]).
Proof.
  unfold path_length. destruct dir as [|c' dir]; cbn [app].
  - cbn. lia.
  - rewrite (sum_list_with_app _ (c' :: dir) [c]). lia.
Qed.

(** The last step of the walk. *)
Lemma stat_snoc d dir c :
  stat d (dir ++ [c]) =
  if PATH_MAX <=? path_length (dir ++ [c]) then ENAMETOOLONG
  else
    match stat d dir with
    | Found Dir =>
        if NAME_MAX <? Text.encoded_length c then ENAMETOOLONG
        else match d !! (dir ++ [c]) with Some n => Found n | None => ENOENT end
    | Found (File _) => ENOTDIR
    | e => e
    end.
Proof.
  unfold stat. destruct (Nat.leb_spec PATH_MAX (path_length (dir ++ [c]))) as [|Hlen]; [done|].
  pose proof (path_length_snoc dir c).
  rewrite (proj2 (Nat.leb_gt PATH_MAX (path_length dir))) by lia.
  rewrite walk_app. by destruct (walk d [] Dir dir) as [[data|]| | |].
Qed.

Lemma stat_root d : stat d [] = Found Dir.
Proof. reflexivity. Qed.

(** What is found at a path below the root is the entry of the disk, in
    a directory that is found too. *)
Lemma stat_found d p n :
  stat d p = Found n → p ≠ [] →
  d !! p = Some n ∧ stat d (removelast p) = Found Dir.
Proof.
  destruct p as [|c dir _] using rev_ind; [intros _ Hne; exfalso; by apply Hne|].
  intros Hstat _.
  rewrite removelast_last. rewrite stat_snoc in Hstat.
  destruct (PATH_MAX <=? path_length (dir ++ [c])); [done|].
  destruct (stat d dir) as [[data|]| | |]; try done.
  destruct (NAME_MAX <? Text.encoded_length c); [done|].
  destruct (d !! (dir ++ [c])) as [n'|] eqn:Hlook; [|done]. injection Hstat as ->.
  split; [exact Hlook|done].
Qed.

Lemma stat_found_file d p data : stat d p = Found (File data) → d !! p = Some (File data).
Proof. intros Hstat. apply stat_found; [done|]. by intros ->. Qed.

(** In a directory that is found, a sibling of an entry is there, is
    missing, or has too long a name. *)
Lemma stat_sibling d dir c c' n :
  stat d (dir ++ [c]) = Found n → stat d (dir ++ [c']) ≠ ENOTDIR.
Proof.
  intros Hstat. apply stat_found in Hstat as [_ Hdir]; [|by destruct dir].
  rewrite removelast_last in Hdir. rewrite stat_snoc, Hdir.
  destruct (PATH_MAX <=? _); [done|]. destruct (NAME_MAX <? _); [done|].
  by destruct (d !! _).
Qed.

(** After a write at [p] in a directory that is found, the file is found
    at [p]. *)
Lemma stat_insert_here d p data n :
  stat d p = ENOENT ∧ stat d (removelast p) = Found Dir ∨ (∃ x, stat d p = Found (File x)) →
  n = File data →
  stat (<[p := n]> d) p = Found n.
Proof.
  intros Hp ->. destruct p as [|c dir _] using rev_ind.
  { destruct Hp as [[? _]|[x ?]]; done. }
  rewrite removelast_last in Hp.
  assert (stat d dir = Found Dir ∧ (PATH_MAX <=? path_length (dir ++ [c])) = false
          ∧ (NAME_MAX <? Text.encoded_length c) = false) as (Hdir & Hlen & Hname).
  { destruct Hp as [[Hp Hdir]|[x Hp]].
    - split; [done|]. rewrite stat_snoc, Hdir in Hp.
      destruct (PATH_MAX <=? _); [done|]. by destruct (NAME_MAX <? _).
    - pose proof Hp as Hp'. apply stat_found in Hp as [_ Hdir]; [|by destruct dir].
      rewrite removelast_last in Hdir. split; [done|]. rewrite stat_snoc, Hdir in Hp'.
      destruct (PATH_MAX <=? _); [done|]. by destruct (NAME_MAX <? _). }
  rewrite stat_snoc, Hlen, Hname, lookup_insert_eq.
  rewrite stat_insert_other by apply child_not_prefix. by rewrite Hdir.
Qed.

(** ** The rounds of the loop *)

(** A write next to a file that is found fails in two ways only. *)
Lemma write_text_sibling dir base base' data text w :
  stat (disk w) (dir ++ [base]) = Found (File data) →
  match stat (disk w) (dir ++ [base']) with
  | Found (File _) | ENOENT =>
      write_text (dir ++ [base']) text w
      = (Return (), World (<[dir ++ [base'] := File text]> (disk w))
                      (journal w ++ [Write (dir ++ [base']) text]))
  | Found Dir => write_text (dir ++ [base']) text w = (Raise IsADirectoryError, w)
  | ENAMETOOLONG => write_text (dir ++ [base']) text w = (Raise OSError, w)
  | ENOTDIR => False
  end.
Proof.
  intros Hfile. pose proof (stat_sibling _ _ _ base' _ Hfile) as Hsib.
  apply stat_found in Hfile as [_ Hdir]; [|by destruct dir].
  rewrite removelast_last in Hdir. unfold write_text.
  destruct (stat (disk w) (dir ++ [base'])) as [[x|]| | |]; try done.
  by rewrite removelast_last, Hdir.
Qed.

Lemma write_text_found p data text w :
  stat (disk w) p = Found (File data) →
  write_text p text w
  = (Return (), World (<[p := File text]> (disk w)) (journal w ++ [Write p text])).
Proof. intros Hstat. unfold write_text. by rewrite Hstat. Qed.

Lemma apply_change_outcome repo_root cfg st change w :
  step_outcome repo_root cfg st change w (apply_change repo_root cfg st change w).
Proof.
  unfold apply_change. rewrite bind_unfold.
  destruct (resolve_joined repo_root (change_path change)) as [target|] eqn:Hres;
    cbn [or_raise]; [|by apply step_unresolved].
  unfold mret at 1, io_ret at 1. rewrite bind_unfold.
  destruct (relative_to target repo_root) as [rel_parts|] eqn:Hrel; cbn [or_raise];
    [|by eapply step_escapes].
  unfold mret at 1, io_ret at 1.
  destruct (within_scope (as_posix rel_parts) cfg) eqn:Hscope; cbn [negb];
    [|by eapply step_out_of_scope].
  rewrite bind_unfold. unfold exists_ at 1.
  destruct (stat (disk w) target) as [[data|]| | |] eqn:Hstat; cbn [negb].
  - rewrite bind_unfold. unfold read_text at 1. rewrite Hstat.
    destruct (Z.ltb_spec (budget cfg) (Z.of_nat (Locals.total_changed st +
       count_change_lines (Text.universal_newlines data) (default "" (change_content change))))).
    { by eapply step_over_budget. }
    rewrite bind_unfold.
    destruct (with_suffix _ _) as [bak|] eqn:Hbak; cbn [or_raise].
    2:{ eapply step_bad_backup; eauto. }
    unfold mret at 1, io_ret at 1. rewrite bind_unfold.
    destruct (with_suffix_backup _ _ Hbak) as (dir & base & Htarget & Hbakeq).
    pose proof (write_text_sibling dir base (base +:+ backup_suffix)
                  data (Text.universal_newlines data) w) as Hwrite.
    rewrite <- Htarget, <- Hbakeq in Hwrite. specialize (Hwrite Hstat).
    assert (stat (<[bak := File (Text.universal_newlines data)]> (disk w)) target
            = Found (File data)) as Hstill.
    { rewrite stat_insert_other; [done|]. rewrite Htarget, Hbakeq.
      apply sibling_not_prefix. by apply string_app_nonempty_ne. }
    destruct (stat (disk w) bak) as [[x|]| | |] eqn:Hb; try done.
    + rewrite Hwrite, bind_unfold, (write_text_found target data) by exact Hstill.
      cbn [disk journal]. rewrite <- app_assoc.
      eapply step_applied; eauto using stat_found_file.
    + rewrite Hwrite. eapply step_bad_backup; eauto 10.
    + rewrite Hwrite, bind_unfold, (write_text_found target data) by exact Hstill.
      cbn [disk journal]. rewrite <- app_assoc.
      eapply step_applied; eauto using stat_found_file.
    + rewrite Hwrite. eapply step_bad_backup; eauto 10.
  - rewrite bind_unfold. unfold read_text at 1. rewrite Hstat.
    by eapply step_directory.
  - eapply step_not_found; eauto. by left.
  - eapply step_not_found; eauto. by right.
  - by eapply step_untestable.
Qed.

(** Case analysis on a round that returned. *)
Ltac round_cases H :=
  let Hs := fresh "Hs" in
  match type of H with
  | apply_change ?root ?cfg ?st ?c ?w = _ =>
      pose proof (apply_change_outcome root cfg st c w) as Hs;
      rewrite H in Hs; inversion Hs; subst; clear Hs;
      repeat match goal with x := _ |- _ => subst x end
  end.

(** The round that applies a change. *)
Lemma apply_change_applied repo_root cfg st change w target rel_parts data bak :
  let old := Text.universal_newlines data in
  let new := default "" (change_content change) in
  resolve_joined repo_root (change_path change) = Some target →
  relative_to target repo_root = Some rel_parts →
  within_scope (as_posix rel_parts) cfg = true →
  stat (disk w) target = Found (File data) →
  (Z.of_nat (Locals.total_changed st + count_change_lines old new) ≤ budget cfg)%Z →
  with_suffix target (suffix target +:+ backup_suffix) = Some bak →
  stat (disk w) bak = ENOENT ∨ (∃ x, stat (disk w) bak = Found (File x)) →
  apply_change repo_root cfg st change w
  = (Return (Locals.Make
               (Locals.changes_applied st ++ [Applied (as_posix rel_parts) (count_change_lines old new)])
               (Locals.backups st ++ [bak])
               (Locals.rejected st)
               (Locals.total_changed st + count_change_lines old new)),
     World (<[target := File new]> (<[bak := File old]> (disk w)))
           (journal w ++ [Write bak old; Write target new])).
Proof.
  intros old new Hres Hrel Hscope Hstat Hbudget Hbak Hfree.
  pose proof (apply_change_outcome repo_root cfg st change w) as Hstep.
  inversion Hstep as
    [ ? | t ? ? | t r ? ? ? | t r ? ? ? Habsent | t r ? ? ? ? | t r ? ? ? ?
    | t r d ? ? ? ? Hover | t r d e ? ? ? ? ? Hbad | t r d b ? ? ? ? ? ? ? ? ];
    try congruence;
    assert (t = target) as -> by congruence;
    try (assert (r = rel_parts) as -> by congruence); try congruence.
  - destruct Habsent; congruence.
  - assert (d = data) as -> by congruence. fold old new in Hover. lia.
  - destruct Hbad as [[? _]|(b & ? & [[Hb _]|[Hb _]])]; [congruence| |];
      assert (b = bak) as -> by congruence; rewrite Hb in Hfree;
      by destruct Hfree as [?|[? ?]].
  - assert (d = data) as -> by congruence. by assert (b = bak) as -> by congruence.
Qed.
(** ** The scope guard *)

Lemma within_scope_excluded rel_path cfg ex :
  ex ∈ default [] (excludes cfg) → Fnmatch.fnmatch rel_path ex = true →
  within_scope rel_path cfg = false.
Proof.
  intros Hin Hm. unfold within_scope.
  destruct (existsb _ _) eqn:Hex; [done|].
  apply not_true_iff_false in Hex. destruct Hex.
  apply existsb_exists. exists ex. by rewrite <- list_elem_of_In.
Qed.

Lemma apply_change_out_of_scope repo_root cfg st change w target rel_parts :
  resolve_joined repo_root (change_path change) = Some target →
  relative_to target repo_root = Some rel_parts →
  within_scope (as_posix rel_parts) cfg = false →
  apply_change repo_root cfg st change w
  = (Return (Locals.reject st (as_posix rel_parts) out_of_scope), w).
Proof.
  intros Hres Hrel Hscope. unfold apply_change. rewrite bind_unfold, Hres. cbn [or_raise].
  unfold mret at 1, io_ret at 1. rewrite bind_unfold, Hrel. cbn [or_raise].
  unfold mret at 1, io_ret at 1. by rewrite Hscope.
Qed.

(** C6. [within_scope] is false for a path that matches an exclude
    pattern, whatever the include patterns say, and a change whose path
    resolves to such a relative path is rejected with [out_of_scope];
    with no include pattern (the key absent or the list empty) and no
    matching exclude pattern it is true. *)
Theorem scope_exclusion_is_absolute (rel_path : string) (cfg : config) :
  ((∃ ex, ex ∈ default [] (excludes cfg) ∧ Fnmatch.fnmatch rel_path ex = true) →
   within_scope rel_path cfg = false
   ∧ ∀ repo_root st change w target rel_parts,
       resolve_joined repo_root (change_path change) = Some target →
       relative_to target repo_root = Some rel_parts →
       as_posix rel_parts = rel_path →
       apply_change repo_root cfg st change w
       = (Return (Locals.reject st rel_path out_of_scope), w))
  ∧ ((∀ ex, ex ∈ default [] (excludes cfg) → Fnmatch.fnmatch rel_path ex = false) →
     file_scopes cfg = None ∨ file_scopes cfg = Some [] →
     within_scope rel_path cfg = true).
Proof.
  split.
  - intros (ex & Hin & Hm).
    assert (within_scope rel_path cfg = false) as Hout
      by eauto using within_scope_excluded.
    split; [done|]. intros repo_root st change w target rel_parts Hres Hrel <-.
    by eapply apply_change_out_of_scope.
  - intros Hnone Hinc. unfold within_scope.
    destruct (existsb _ _) eqn:Hex.
    + apply existsb_exists in Hex as (ex & Hin & Hm).
      rewrite <- list_elem_of_In in Hin. rewrite (Hnone ex Hin) in Hm. done.
    + by destruct Hinc as [-> | ->].
Qed.

Lemma scope_exclusion_witness :
  within_scope "App/Tests/CartTests.swift"
    (Config (Some ["App/Tests/*"]) (Some ["App/*.swift"]) None) = false
  ∧ within_scope "README.md" (Config (Some ["App/Tests/*"]) (Some []) None) = true.
Proof.
  split.
  - apply (proj1 (scope_exclusion_is_absolute _ _)).
    exists "App/Tests/*". split; [apply list_elem_of_here|reflexivity].
  - apply (proj2 (scope_exclusion_is_absolute _ _)).
    + intros ex Hin. apply list_elem_of_singleton in Hin as ->. reflexivity.
    + right. reflexivity.
Defined.

(** ** Targets that are not there *)

Lemma apply_change_not_found repo_root cfg st change w target rel_parts :
  resolve_joined repo_root (change_path change) = Some target →
  relative_to target repo_root = Some rel_parts →
  within_scope (as_posix rel_parts) cfg = true →
  absent (disk w) target →
  apply_change repo_root cfg st change w
  = (Return (Locals.reject st (as_posix rel_parts) not_found), w).
Proof.
  intros Hres Hrel Hscope Habsent. unfold apply_change. rewrite bind_unfold, Hres.
  cbn [or_raise]. unfold mret at 1, io_ret at 1. rewrite bind_unfold, Hrel. cbn [or_raise].
  unfold mret at 1, io_ret at 1. rewrite Hscope. cbn [negb].
  rewrite bind_unfold. unfold exists_ at 1. by destruct Habsent as [-> | ->].
Qed.

Lemma apply_change_untestable repo_root cfg st change w target rel_parts :
  resolve_joined repo_root (change_path change) = Some target →
  relative_to target repo_root = Some rel_parts →
  within_scope (as_posix rel_parts) cfg = true →
  stat (disk w) target = ENAMETOOLONG →
  apply_change repo_root cfg st change w = (Raise OSError, w).
Proof.
  intros Hres Hrel Hscope Hlong. unfold apply_change. rewrite bind_unfold, Hres.
  cbn [or_raise]. unfold mret at 1, io_ret at 1. rewrite bind_unfold, Hrel. cbn [or_raise].
  unfold mret at 1, io_ret at 1. rewrite Hscope. cbn [negb].
  rewrite bind_unfold. unfold exists_ at 1. by rewrite Hlong.
Qed.

Lemma apply_changes_unfold repo_root cfg p w :
  apply_changes repo_root cfg p w =
  match for_each (apply_change repo_root cfg) (default [] (changes p)) Locals.init w with
  | (Return st, w') =>
      match relative_backups repo_root (Locals.backups st) w' with
      | (Return bs, w'') =>
          (Return (ApplyResult (Locals.changes_applied st) (Locals.rejected st)
                     (Locals.total_changed st) bs), w'')
      | (Raise e, w'') => (Raise e, w'')
      end
  | (Raise e, w') => (Raise e, w')
  end.
Proof.
  unfold apply_changes. rewrite bind_unfold.
  destruct (for_each _ _ _ w) as [[st|e] w']; [|done].
  rewrite bind_unfold. by destruct (relative_backups _ _ w') as [[bs|e] w''].
Qed.

(** The claim C8 fails for a target whose existence cannot be tested.
    The first change names a file of [App/] that is in scope and is not on
    the disk, under a name of 262 bytes: [Path.exists] raises [OSError],
    the change is not rejected, no result is returned and the change after
    it is never looked at. *)
Lemma overlong_target_aborts_batch :
  let p := Patch (Some [Scenario.overlong; Scenario.fix_cart]) in
  ∃ target rel_parts,
    resolve_joined Scenario.repo_root (change_path Scenario.overlong) = Some target
    ∧ relative_to target Scenario.repo_root = Some rel_parts
    ∧ within_scope (as_posix rel_parts) Scenario.cfg = true
    ∧ disk Scenario.start !! target = None
    ∧ apply_changes Scenario.repo_root Scenario.cfg p Scenario.start
      = (Raise OSError, Scenario.start)
    ∧ ¬ ∃ r w', apply_changes Scenario.repo_root Scenario.cfg p Scenario.start = (Return r, w').
Proof.
  intros p.
  assert (apply_changes Scenario.repo_root Scenario.cfg p Scenario.start
          = (Raise OSError, Scenario.start)) as Heq.
  { rewrite apply_changes_unfold. cbn [p changes default from_option id].
    rewrite for_each_cons.
    by erewrite apply_change_untestable by (vm_compute; reflexivity). }
  eexists _, _. split; [vm_compute; reflexivity|].
  split; [vm_compute; reflexivity|]. split; [vm_compute; reflexivity|].
  split; [vm_compute; reflexivity|]. split; [exact Heq|].
  intros (r & w' & Hret). rewrite Heq in Hret. discriminate.
Qed.

(** C8, amended. For a change that resolves inside the repository and is
    in scope: when nothing is found at the target, the change is rejected
    with [not_found], the round changes neither the disk nor the journal
    (no backup, no write) and the loop goes on with the next change; when
    the existence test fails, because the walk meets a name of more than
    [NAME_MAX] bytes or the path has [PATH_MAX] bytes or more,
    [apply_changes] raises [OSError] at that change, with the disk and
    the journal as the changes before it left them. *)
Theorem missing_target_rejected (repo_root : path) (cfg : config) (st : Locals.t)
    (change : file_change) (rest : list file_change) (w : world)
    (target rel_parts : path) :
  resolve_joined repo_root (change_path change) = Some target →
  relative_to target repo_root = Some rel_parts →
  within_scope (as_posix rel_parts) cfg = true →
  (absent (disk w) target →
   apply_change repo_root cfg st change w
   = (Return (Locals.reject st (as_posix rel_parts) not_found), w)
   ∧ for_each (apply_change repo_root cfg) (change :: rest) st w
     = for_each (apply_change repo_root cfg) rest
         (Locals.reject st (as_posix rel_parts) not_found) w)
  ∧ (stat (disk w) target = ENAMETOOLONG →
     apply_change repo_root cfg st change w = (Raise OSError, w)
     ∧ for_each (apply_change repo_root cfg) (change :: rest) st w = (Raise OSError, w)).
Proof.
  intros Hres Hrel Hscope. split.
  - intros Habsent.
    pose proof (apply_change_not_found _ _ st _ _ _ _ Hres Hrel Hscope Habsent) as Hstep.
    split; [done|]. by rewrite for_each_cons, Hstep.
  - intros Hlong.
    pose proof (apply_change_untestable _ _ st _ _ _ _ Hres Hrel Hscope Hlong) as Hstep.
    split; [done|]. by rewrite for_each_cons, Hstep.
Qed.

Lemma missing_target_witness :
  let change := FileChange "App/Missing.swift" (Some "x") in
  apply_change Scenario.repo_root Scenario.cfg Locals.init change Scenario.start
  = (Return (Locals.reject Locals.init (as_posix ["App"; "Missing.swift"]) not_found),
     Scenario.start)
  ∧ for_each (apply_change Scenario.repo_root Scenario.cfg) [change; Scenario.fix_cart]
      Locals.init Scenario.start
    = for_each (apply_change Scenario.repo_root Scenario.cfg) [Scenario.fix_cart]
        (Locals.reject Locals.init (as_posix ["App"; "Missing.swift"]) not_found)
        Scenario.start.
Proof.
  intros change.
  apply (proj1 (missing_target_rejected Scenario.repo_root Scenario.cfg Locals.init change
                  [Scenario.fix_cart] Scenario.start
                  (Scenario.in_repo ["App"; "Missing.swift"]) ["App"; "Missing.swift"]
                  ltac:(vm_compute; reflexivity) ltac:(vm_compute; reflexivity)
                  ltac:(vm_compute; reflexivity))).
  left. vm_compute. reflexivity.
Defined.

(** ** Paths that leave the repository *)

Lemma apply_change_escapes repo_root cfg st change w target :
  resolve_joined repo_root (change_path change) = Some target →
  relative_to target repo_root = None →
  apply_change repo_root cfg st change w = (Raise ValueError, w).
Proof.
  intros Hres Hrel. unfold apply_change. rewrite bind_unfold, Hres. cbn [or_raise].
  unfold mret at 1, io_ret at 1. by rewrite bind_unfold, Hrel.
Qed.

(** The claim C2 fails: a change whose path leaves the repository is not
    rejected. [relative_to] raises [ValueError], no result is returned and
    the change after it, which is in scope and fits the budget, is never
    looked at. *)
Lemma escaping_path_aborts_batch :
  let p := Patch (Some [FileChange "../../etc/hosts" (Some "x"); Scenario.fix_cart]) in
  apply_changes Scenario.repo_root Scenario.cfg p Scenario.start
  = (Raise ValueError, Scenario.start)
  ∧ ¬ ∃ r w', apply_changes Scenario.repo_root Scenario.cfg p Scenario.start = (Return r, w').
Proof.
  assert (apply_changes Scenario.repo_root Scenario.cfg
            (Patch (Some [FileChange "../../etc/hosts" (Some "x"); Scenario.fix_cart]))
            Scenario.start = (Raise ValueError, Scenario.start)) as Heq.
  { rewrite apply_changes_unfold. cbn [changes default from_option id].
    rewrite for_each_cons.
    by erewrite apply_change_escapes by (vm_compute; reflexivity). }
  split; [exact Heq|]. intros (r & w' & Hret). rewrite Heq in Hret. discriminate.
Qed.

(** C2, amended. After the changes [pre] have been processed, a change
    whose path resolves to [target] outside the repository root makes
    [apply_changes] raise [ValueError]: the batch stops there, no result
    is returned and the effects of [pre] stay on the disk. A change that
    resolves inside the root but is out of scope is rejected with
    [out_of_scope], touches nothing, and the loop goes on with the changes
    after it. *)
Theorem escaping_path_raises (repo_root : path) (cfg : config)
    (pre : list file_change) (change : file_change) (post : list file_change)
    (w w' : world) (st : Locals.t) (target : path) :
  for_each (apply_change repo_root cfg) pre Locals.init w = (Return st, w') →
  resolve_joined repo_root (change_path change) = Some target →
  (relative_to target repo_root = None →
   apply_change repo_root cfg st change w' = (Raise ValueError, w')
   ∧ apply_changes repo_root cfg (Patch (Some (pre ++ change :: post))) w
     = (Raise ValueError, w'))
  ∧ (∀ rel_parts,
       relative_to target repo_root = Some rel_parts →
       within_scope (as_posix rel_parts) cfg = false →
       apply_change repo_root cfg st change w'
       = (Return (Locals.reject st (as_posix rel_parts) out_of_scope), w')
       ∧ for_each (apply_change repo_root cfg) (pre ++ change :: post) Locals.init w
         = for_each (apply_change repo_root cfg) post
             (Locals.reject st (as_posix rel_parts) out_of_scope) w').
Proof.
  intros Hpre Hres. split.
  - intros Hrel. split; [by eapply apply_change_escapes|].
    rewrite apply_changes_unfold. cbn [changes default from_option id].
    by rewrite for_each_app, Hpre, for_each_cons, (apply_change_escapes _ _ _ _ _ target).
  - intros rel_parts Hrel Hscope. split; [by eapply apply_change_out_of_scope|].
    by rewrite for_each_app, Hpre, for_each_cons,
      (apply_change_out_of_scope _ _ _ _ _ target rel_parts).
Qed.

Lemma escaping_path_witness :
  let w' := (for_each (apply_change Scenario.repo_root Scenario.cfg) [Scenario.fix_cart]
               Locals.init Scenario.start).2 in
  apply_changes Scenario.repo_root Scenario.cfg
    (Patch (Some ([Scenario.fix_cart] ++ FileChange "/etc/hosts" None
                    :: [FileChange "App/Item.swift" (Some "")]))) Scenario.start
  = (Raise ValueError, w').
Proof.
  intros w'.
  refine (proj2 (proj1 (escaping_path_raises Scenario.repo_root Scenario.cfg
            [Scenario.fix_cart] (FileChange "/etc/hosts" None) _ Scenario.start w'
            (Locals.Make [Applied "App/Cart.swift" 1]
               [Scenario.in_repo ["App"; "Cart.swift.apr.bak"]] [] 1) ["etc"; "hosts"]
            _ _) _)).
  - apply io_returns. vm_compute. reflexivity.
  - vm_compute. reflexivity.
  - vm_compute. reflexivity.
Defined.

(** ** The backups of a result *)

Lemma relative_backups_map repo_root (entries : list applied_entry) (bs : list path) w out w' :
  Forall2 (λ e b, ∀ parts, relative_to b repo_root = Some parts →
                           as_posix parts = applied_path e +:+ backup_suffix) entries bs →
  relative_backups repo_root bs w = (Return out, w') →
  out = (λ e, applied_path e +:+ backup_suffix) <$> entries ∧ w' = w.
Proof.
  intros Hall. revert out. induction Hall as [|e b entries bs He _ IH]; intros out Hrun.
  - cbn in Hrun. by injection Hrun as <- <-.
  - cbn [relative_backups] in Hrun. rewrite bind_unfold in Hrun.
    destruct (relative_to b repo_root) as [parts|] eqn:Hb; cbn [or_raise] in Hrun; [|done].
    unfold mret at 1, io_ret at 1 in Hrun. rewrite bind_unfold in Hrun.
    destruct (relative_backups repo_root bs w) as [[rest|e'] w1] eqn:Hrest; [|done].
    injection Hrun as <- <-. destruct (IH rest eq_refl) as [-> ->].
    by rewrite fmap_cons, (He parts).
Qed.

Lemma backups_invariant repo_root cfg changes w st' w' :
  for_each (apply_change repo_root cfg) changes Locals.init w = (Return st', w') →
  Forall2 (λ e b, ∀ parts, relative_to b repo_root = Some parts →
                           as_posix parts = applied_path e +:+ backup_suffix)
    (Locals.changes_applied st') (Locals.backups st').
Proof.
  revert st' w'.
  apply (for_each_ind _ (λ _ st _,
    Forall2 (λ e b, ∀ parts, relative_to b repo_root = Some parts →
                             as_posix parts = applied_path e +:+ backup_suffix)
      (Locals.changes_applied st) (Locals.backups st))); [constructor|].
  intros seen c st1 w1 st2 w2 HI Hstep. round_cases Hstep; try done.
  cbn [Locals.changes_applied Locals.backups]. apply Forall2_app; [done|].
  constructor; [|constructor]. intros parts Hparts. cbn [applied_path].
  by eapply backup_relative.
Qed.

(** C10. The [backups] of a result mirror its [applied] list: same
    length, same order, the i-th backup being the i-th applied path
    followed by [.apr.bak]. With the [changes] key absent or its list
    empty, [apply_changes] returns four empty fields and touches
    nothing. *)
Theorem backups_mirror_applied (repo_root : path) (cfg : config) (p : patch) (w : world) :
  (∀ r w', apply_changes repo_root cfg p w = (Return r, w') →
           backups r = (λ e, applied_path e +:+ ".apr.bak") <$> applied r)
  ∧ (changes p = None ∨ changes p = Some [] →
     apply_changes repo_root cfg p w = (Return (ApplyResult [] [] 0 []), w)).
Proof.
  split.
  - intros r w' Hrun. rewrite apply_changes_unfold in Hrun.
    destruct (for_each _ _ _ w) as [[st|e] w1] eqn:Hloop; [|done].
    destruct (relative_backups _ _ w1) as [[bs|e] w2] eqn:Hbs; [|done].
    injection Hrun as <- <-. cbn [backups applied].
    pose proof (backups_invariant _ _ _ _ _ _ Hloop) as Hinv.
    by destruct (relative_backups_map _ _ _ _ _ _ Hinv Hbs) as [-> _].
  - intros Hempty. rewrite apply_changes_unfold.
    by destruct Hempty as [-> | ->].
Qed.

Lemma backups_mirror_witness :
  backups (ApplyResult [Applied "App/Cart.swift" 1] [] 1 ["App/Cart.swift.apr.bak"])
  = (λ e, applied_path e +:+ ".apr.bak")
      <$> applied (ApplyResult [Applied "App/Cart.swift" 1] [] 1 ["App/Cart.swift.apr.bak"]).
Proof.
  refine (proj1 (backups_mirror_applied Scenario.repo_root Scenario.cfg
                   (Patch (Some [Scenario.fix_cart])) Scenario.start) _
            (apply_changes Scenario.repo_root Scenario.cfg
               (Patch (Some [Scenario.fix_cart])) Scenario.start).2 _).
  apply io_returns. vm_compute. reflexivity.
Defined.

(** ** One outcome per change *)

(** The claim C3 fails when two changes name the same file: with a budget
    of one line the first change to [App/Cart.swift] is applied and the
    second is rejected, so the path is in both lists. *)
Lemma same_path_applied_and_rejected :
  let cfg := Config None None (Some 1%Z) in
  let p := Patch (Some [Scenario.fix_cart; FileChange "App/Cart.swift" (Some "")]) in
  ∃ r w',
    apply_changes Scenario.repo_root cfg p Scenario.start = (Return r, w')
    ∧ "App/Cart.swift" ∈ (applied_path <$> applied r)
    ∧ "App/Cart.swift" ∈ (rejected_path <$> rejected r).
Proof.
  intros cfg p.
  exists (ApplyResult [Applied "App/Cart.swift" 1]
            [Rejected "App/Cart.swift" max_change_lines_exceeded] 1
            ["App/Cart.swift.apr.bak"]),
    (apply_changes Scenario.repo_root cfg p Scenario.start).2.
  split; [apply io_returns; vm_compute; reflexivity|].
  split; apply list_elem_of_here.
Qed.

Lemma outcome_invariant repo_root cfg changes w st' w' :
  for_each (apply_change repo_root cfg) changes Locals.init w = (Return st', w') →
  ∃ rels,
    Forall2 (λ c rel, repo_relative repo_root c = Some rel) changes rels
    ∧ rels ≡ₚ (applied_path <$> Locals.changes_applied st')
              ++ (rejected_path <$> Locals.rejected st').
Proof.
  revert st' w'.
  apply (for_each_ind _ (λ seen st _, ∃ rels,
    Forall2 (λ c rel, repo_relative repo_root c = Some rel) seen rels
    ∧ rels ≡ₚ (applied_path <$> Locals.changes_applied st)
              ++ (rejected_path <$> Locals.rejected st))).
  { exists []. by split; [constructor|]. }
  intros seen c st1 w1 st2 w2 (rels & Hrels & Hperm) Hstep.
  assert (∀ target rel_parts why,
    resolve_joined repo_root (change_path c) = Some target →
    relative_to target repo_root = Some rel_parts →
    ∃ rels',
      Forall2 (λ c rel, repo_relative repo_root c = Some rel) (seen ++ [c]) rels'
      ∧ rels' ≡ₚ (applied_path <$> Locals.changes_applied
                                      (Locals.reject st1 (as_posix rel_parts) why))
                 ++ (rejected_path <$> Locals.rejected
                                      (Locals.reject st1 (as_posix rel_parts) why)))
    as Hrej.
  { intros target rel_parts why Hres Hrel. exists (rels ++ [as_posix rel_parts]). split.
    - apply Forall2_app; [done|]. constructor; [|constructor].
      unfold repo_relative. rewrite Hres. cbn. by rewrite Hrel.
    - cbn [Locals.reject Locals.changes_applied Locals.rejected].
      by rewrite fmap_app, app_assoc, Hperm. }
  round_cases Hstep; eauto.
  exists (rels ++ [as_posix rel_parts]). split.
  - apply Forall2_app; [done|]. constructor; [|constructor].
    unfold repo_relative.
    match goal with H : resolve_joined _ _ = Some _ |- _ => rewrite H end. cbn.
    by match goal with H : relative_to _ _ = Some _ |- _ => rewrite H end.
  - cbn [Locals.changes_applied Locals.rejected]. rewrite fmap_app, Hperm. cbn [fmap list_fmap].
    rewrite <- !app_assoc. apply Permutation_app_head, Permutation_app_comm.
Qed.

(** C3, amended. Every change of a batch that [apply_changes] completes
    gets one entry under its repository-relative path, in [applied] or in
    [rejected]: the paths of the changes are, up to order, the paths of
    [applied] followed by those of [rejected]. When no two changes resolve
    to the same path, each path is in exactly one of the two lists. *)
Theorem one_outcome_per_change (repo_root : path) (cfg : config) (p : patch)
    (w w' : world) (r : apply_result) :
  apply_changes repo_root cfg p w = (Return r, w') →
  ∃ rels,
    Forall2 (λ c rel, repo_relative repo_root c = Some rel) (default [] (changes p)) rels
    ∧ rels ≡ₚ ((applied_path <$> applied r) ++ (rejected_path <$> rejected r))
    ∧ (NoDup rels → ∀ rel, rel ∈ rels →
       (rel ∈ (applied_path <$> applied r) ∧ ¬ rel ∈ (rejected_path <$> rejected r))
       ∨ (¬ rel ∈ (applied_path <$> applied r) ∧ rel ∈ (rejected_path <$> rejected r))).
Proof.
  intros Hrun. rewrite apply_changes_unfold in Hrun.
  destruct (for_each _ _ _ w) as [[st|e] w1] eqn:Hloop; [|done].
  destruct (relative_backups _ _ w1) as [[bs|e] w2] eqn:Hbs; [|done].
  injection Hrun as <- <-. cbn [applied rejected].
  destruct (outcome_invariant _ _ _ _ _ _ Hloop) as (rels & Hrels & Hperm).
  exists rels. split; [done|]. split; [done|].
  intros Hnodup rel Hin. rewrite Hperm in Hnodup, Hin.
  apply NoDup_app in Hnodup as (_ & Hdisj & _).
  apply elem_of_app in Hin as [Hin|Hin].
  - left. split; [done|]. by apply Hdisj.
  - right. split; [|done]. intros Ha. by apply (Hdisj rel).
Qed.

Lemma one_outcome_witness :
  ∃ rels,
    Forall2 (λ c rel, repo_relative Scenario.repo_root c = Some rel)
      [Scenario.fix_cart; FileChange "README.md" None] rels
    ∧ rels ≡ₚ (["App/Cart.swift"] ++ ["README.md"])
    ∧ (NoDup rels → ∀ rel, rel ∈ rels →
       (rel ∈ ["App/Cart.swift"] ∧ ¬ rel ∈ ["README.md"])
       ∨ (¬ rel ∈ ["App/Cart.swift"] ∧ rel ∈ ["README.md"])).
Proof.
  apply (one_outcome_per_change Scenario.repo_root Scenario.cfg
           (Patch (Some [Scenario.fix_cart; FileChange "README.md" None]))
           Scenario.start
           (apply_changes Scenario.repo_root Scenario.cfg
              (Patch (Some [Scenario.fix_cart; FileChange "README.md" None]))
              Scenario.start).2
           (ApplyResult [Applied "App/Cart.swift" 1] [Rejected "README.md" out_of_scope] 1
              ["App/Cart.swift.apr.bak"])).
  apply io_returns. vm_compute. reflexivity.
Defined.

(** ** The change budget *)

Lemma budget_loop_invariant repo_root cfg changes w st w' :
  for_each (apply_change repo_root cfg) changes Locals.init w = (Return st, w') →
  Locals.total_changed st = sum_list (changed_lines <$> Locals.changes_applied st)
  ∧ (Locals.changes_applied st ≠ [] → (Z.of_nat (Locals.total_changed st) ≤ budget cfg)%Z).
Proof.
  revert st w'.
  apply (for_each_ind _ (λ _ st _,
    Locals.total_changed st = sum_list (changed_lines <$> Locals.changes_applied st)
    ∧ (Locals.changes_applied st ≠ [] →
       (Z.of_nat (Locals.total_changed st) ≤ budget cfg)%Z))); [done|].
  intros seen c st1 w1 st2 w2 [Hsum Hle] Hstep. round_cases Hstep; try done.
  cbn [Locals.changes_applied Locals.total_changed]. split; [|done].
  rewrite fmap_app, sum_list_with_app, <- Hsum. cbn. lia.
Qed.

(** C4. At every point of the loop, that is after any prefix [pre] of the
    changes, and in the result: the running total is the sum of the
    [changed_lines] of the applied entries, and it is within the budget
    (given that a change has been applied, or that the budget is not
    negative, as the data model requires). A round either rejects the
    change, and then leaves the disk, the journal, the applied entries and
    the running total as they were, or applies it, and then the test
    against the budget was passed with the count taken from the file as it
    stood before the round. *)
Theorem budget_respected (repo_root : path) (cfg : config) (p : patch)
    (pre post : list file_change) (w w1 : world) (st : Locals.t) :
  default [] (changes p) = pre ++ post →
  for_each (apply_change repo_root cfg) pre Locals.init w = (Return st, w1) →
  Locals.total_changed st = sum_list (changed_lines <$> Locals.changes_applied st)
  ∧ (Locals.changes_applied st ≠ [] ∨ (0 ≤ budget cfg)%Z →
     (Z.of_nat (Locals.total_changed st) ≤ budget cfg)%Z)
  ∧ (∀ change post' st' w2,
       post = change :: post' →
       apply_change repo_root cfg st change w1 = (Return st', w2) →
       (w2 = w1
        ∧ Locals.changes_applied st' = Locals.changes_applied st
        ∧ Locals.total_changed st' = Locals.total_changed st
        ∧ ∃ rel why, Locals.rejected st' = Locals.rejected st ++ [Rejected rel why])
       ∨ (∃ rel data target,
            resolve_joined repo_root (change_path change) = Some target
            ∧ disk w1 !! target = Some (File data)
            ∧ let n := count_change_lines (Text.universal_newlines data)
                         (default "" (change_content change)) in
              (Z.of_nat (Locals.total_changed st + n) ≤ budget cfg)%Z
              ∧ Locals.changes_applied st' = Locals.changes_applied st ++ [Applied rel n]
              ∧ Locals.total_changed st' = Locals.total_changed st + n
              ∧ Locals.rejected st' = Locals.rejected st))
  ∧ (post = [] → ∀ r w',
       apply_changes repo_root cfg p w = (Return r, w') →
       applied r = Locals.changes_applied st
       ∧ total_changed r = Locals.total_changed st
       ∧ total_changed r = sum_list (changed_lines <$> applied r)
       ∧ (applied r ≠ [] ∨ (0 ≤ budget cfg)%Z → (Z.of_nat (total_changed r) ≤ budget cfg)%Z)).
Proof.
  intros Hsplit Hpre.
  destruct (budget_loop_invariant _ _ _ _ _ _ Hpre) as [Hsum Hle].
  assert (Locals.changes_applied st ≠ [] ∨ (0 ≤ budget cfg)%Z →
          (Z.of_nat (Locals.total_changed st) ≤ budget cfg)%Z) as Hbound.
  { intros [Hne|Hpos]; [by apply Hle|].
    destruct (Locals.changes_applied st) eqn:Happ; [|by apply Hle].
    rewrite Hsum. cbn. lia. }
  split; [done|]. split; [done|]. split.
  - intros change post' st' w2 _ Hstep.
    round_cases Hstep; cbn [Locals.reject Locals.changes_applied Locals.total_changed
                              Locals.rejected]; eauto 10.
  - intros -> r w' Hrun. rewrite app_nil_r in Hsplit.
    rewrite apply_changes_unfold, Hsplit, Hpre in Hrun.
    destruct (relative_backups _ _ w1) as [[bs|e] w2]; [|done].
    injection Hrun as <- <-. cbn [applied total_changed]. done.
Qed.

Lemma budget_respected_witness :
  ∃ st,
    Locals.total_changed st = sum_list (changed_lines <$> Locals.changes_applied st)
    ∧ (Z.of_nat (Locals.total_changed st) ≤ 10)%Z.
Proof.
  exists (Locals.Make [Applied "App/Cart.swift" 1]
            [Scenario.in_repo ["App"; "Cart.swift.apr.bak"]] [] 1).
  pose proof (budget_respected Scenario.repo_root Scenario.cfg
                (Patch (Some [Scenario.fix_cart; FileChange "App/Item.swift" (Some "")]))
                [Scenario.fix_cart] [FileChange "App/Item.swift" (Some "")]
                Scenario.start
                (for_each (apply_change Scenario.repo_root Scenario.cfg) [Scenario.fix_cart]
                   Locals.init Scenario.start).2
                (Locals.Make [Applied "App/Cart.swift" 1]
                   [Scenario.in_repo ["App"; "Cart.swift.apr.bak"]] [] 1)
                eq_refl ltac:(apply io_returns; vm_compute; reflexivity))
    as (Hsum & Hle & _).
  split; [exact Hsum|]. apply Hle. right. vm_compute. discriminate.
Defined.

(** ** Snapshots *)

(** The claim C5 fails when two applied changes name the same file: the
    backup of [App/Cart.swift] is written twice, the second time after the
    file's first mutation, and what is left in the backup is the text of
    the first change, not the text the file had before the run. *)
Lemma backup_rewritten_for_same_file :
  let p := Patch (Some [Scenario.fix_cart; FileChange "App/Cart.swift" (Some "")]) in
  let cart := Scenario.in_repo ["App"; "Cart.swift"] in
  let bak := Scenario.in_repo ["App"; "Cart.swift.apr.bak"] in
  ∃ r w',
    apply_changes Scenario.repo_root Scenario.cfg p Scenario.start = (Return r, w')
    ∧ journal w' = [Write bak Scenario.cart_swift; Write cart Scenario.cart_swift_fixed;
                    Write bak Scenario.cart_swift_fixed; Write cart ""]
    ∧ disk Scenario.start !! cart = Some (File Scenario.cart_swift)
    ∧ disk w' !! bak = Some (File Scenario.cart_swift_fixed)
    ∧ Scenario.cart_swift_fixed ≠ Scenario.cart_swift.
Proof.
  intros p cart bak.
  exists (ApplyResult [Applied "App/Cart.swift" 1; Applied "App/Cart.swift" 4] [] 5
            ["App/Cart.swift.apr.bak"; "App/Cart.swift.apr.bak"]),
    (apply_changes Scenario.repo_root Scenario.cfg p Scenario.start).2.
  split; [apply io_returns; vm_compute; reflexivity|].
  repeat split; try (vm_compute; reflexivity). vm_compute. discriminate.
Qed.

Lemma relative_backups_world repo_root bs w out w' :
  relative_backups repo_root bs w = (out, w') → w' = w.
Proof.
  revert out. induction bs as [|b bs IH]; intros out Hrun.
  - cbn in Hrun. by injection Hrun as <- <-.
  - cbn [relative_backups] in Hrun. rewrite bind_unfold in Hrun.
    destruct (relative_to b repo_root) as [parts|]; cbn [or_raise] in Hrun;
      [|by injection Hrun as <- <-].
    unfold mret at 1, io_ret at 1 in Hrun. rewrite bind_unfold in Hrun.
    destruct (relative_backups repo_root bs w) as [[rest|e] w1] eqn:Hrest;
      injection Hrun as <- <-; by eapply IH.
Qed.

Lemma snapshot_invariant repo_root cfg changes w st w' :
  for_each (apply_change repo_root cfg) changes Locals.init w = (Return st, w') →
  ∃ evs targets,
    journal w' = journal w ++ evs
    ∧ snapshotted (disk w) evs targets (disk w')
    ∧ Forall2 (λ t e, as_posix <$> relative_to t repo_root = Some (applied_path e))
        targets (Locals.changes_applied st).
Proof.
  revert st w'.
  apply (for_each_ind _ (λ _ st w', ∃ evs targets,
    journal w' = journal w ++ evs
    ∧ snapshotted (disk w) evs targets (disk w')
    ∧ Forall2 (λ t e, as_posix <$> relative_to t repo_root = Some (applied_path e))
        targets (Locals.changes_applied st))).
  { exists [], []. rewrite app_nil_r. repeat split; constructor. }
  intros seen c st1 w1 st2 w2 (evs & targets & Hj & Hsnap & Hall) Hstep.
  round_cases Hstep; try (by exists evs, targets).
  eexists (evs ++ [_; _]), (targets ++ [_]). cbn [journal disk Locals.changes_applied].
  split; [by rewrite Hj, app_assoc|]. split; [by apply snapshotted_snoc|].
  apply Forall2_app; [done|]. constructor; [|constructor]. cbn [applied_path].
  by match goal with H : relative_to _ _ = Some _ |- _ => rewrite H end.
Qed.

(** C5, amended. The mutations of a completed [apply_changes] are one
    pair of writes per applied entry, in the order of [applied]: first the
    backup of the target, holding the text read from the target as it
    stands at that moment, and immediately after it the new content of the
    target. So no file is overwritten before its snapshot is written. A
    file gets one snapshot per applied change that names it: exactly one
    when the applied paths are distinct; when a file is named again, its
    snapshot is written again, over the earlier one. *)
Theorem snapshot_before_each_overwrite (repo_root : path) (cfg : config) (p : patch)
    (w w' : world) (r : apply_result) :
  apply_changes repo_root cfg p w = (Return r, w') →
  ∃ evs targets,
    journal w' = journal w ++ evs
    ∧ snapshotted (disk w) evs targets (disk w')
    ∧ Forall2 (λ t e, as_posix <$> relative_to t repo_root = Some (applied_path e))
        targets (applied r)
    ∧ (NoDup (applied_path <$> applied r) → NoDup targets).
Proof.
  intros Hrun. rewrite apply_changes_unfold in Hrun.
  destruct (for_each _ _ _ w) as [[st|e] w1] eqn:Hloop; [|done].
  destruct (relative_backups _ _ w1) as [[bs|e] w2] eqn:Hbs; [|done].
  injection Hrun as <- <-. cbn [applied].
  apply relative_backups_world in Hbs as ->.
  destruct (snapshot_invariant _ _ _ _ _ _ Hloop) as (evs & targets & Hj & Hsnap & Hall).
  exists evs, targets. repeat split; try done.
  intros Hnodup.
  apply (NoDup_fmap_1 (λ t, as_posix <$> relative_to t repo_root)).
  assert ((λ t, as_posix <$> relative_to t repo_root) <$> targets
          = Some <$> (applied_path <$> Locals.changes_applied st)) as ->.
  { clear -Hall. induction Hall as [|t e ts es Hte _ IH]; [done|].
    rewrite !fmap_cons. by rewrite Hte, IH. }
  by apply (NoDup_fmap_2 Some).
Qed.

Lemma snapshot_witness :
  ∃ evs targets,
    [Write (Scenario.in_repo ["App"; "Cart.swift.apr.bak"]) Scenario.cart_swift;
     Write (Scenario.in_repo ["App"; "Cart.swift"]) Scenario.cart_swift_fixed]
    = [] ++ evs
    ∧ snapshotted Scenario.tree evs targets
        (<[Scenario.in_repo ["App"; "Cart.swift"] := File Scenario.cart_swift_fixed]>
           (<[Scenario.in_repo ["App"; "Cart.swift.apr.bak"] := File Scenario.cart_swift]>
              Scenario.tree))
    ∧ Forall2 (λ t e, as_posix <$> relative_to t Scenario.repo_root = Some (applied_path e))
        targets [Applied "App/Cart.swift" 1]
    ∧ (NoDup (applied_path <$> [Applied "App/Cart.swift" 1]) → NoDup targets).
Proof.
  apply (snapshot_before_each_overwrite Scenario.repo_root Scenario.cfg
           (Patch (Some [Scenario.fix_cart])) Scenario.start
           (World _ _) (ApplyResult _ [] 1 ["App/Cart.swift.apr.bak"])).
  rewrite apply_changes_unfold. cbn [changes default from_option id].
  rewrite for_each_cons.
  rewrite (apply_change_applied Scenario.repo_root Scenario.cfg Locals.init Scenario.fix_cart
             Scenario.start (Scenario.in_repo ["App"; "Cart.swift"]) ["App"; "Cart.swift"]
             Scenario.cart_swift (Scenario.in_repo ["App"; "Cart.swift.apr.bak"]));
    [reflexivity|first [left; vm_compute; reflexivity | vm_compute; reflexivity
                       | vm_compute; discriminate]..].
Defined.

(** ** Rollback *)

Lemma restore_backup_absent repo_root b w bak :
  resolve_joined repo_root b = Some bak →
  absent (disk w) bak →
  restore_backup repo_root () b w = (Return (), w).
Proof.
  intros Hres Hgone. unfold restore_backup. rewrite bind_unfold, Hres. cbn [or_raise].
  unfold mret at 1, io_ret at 1. rewrite bind_unfold. unfold exists_ at 1.
  by destruct Hgone as [-> | ->].
Qed.

(** C9. Once the first [rollback] has consumed the backups of a result,
    that is when every entry resolves to a path at which nothing is found
    any more, a second [rollback] with the same result skips every entry:
    it returns without touching the disk or the journal, so two calls
    leave what one call leaves. *)
Theorem second_rollback_is_noop (repo_root : path) (r : apply_result)
    (w w1 : world) (o : outcome ()) :
  rollback repo_root r w = (o, w1) →
  (∀ b, b ∈ backups r →
        ∃ bak, resolve_joined repo_root b = Some bak ∧ absent (disk w1) bak) →
  rollback repo_root r w1 = (Return (), w1).
Proof.
  intros _ Hgone. unfold rollback. induction (backups r) as [|b bs IH]; [done|].
  destruct (Hgone b) as (bak & Hres & Habsent); [by left|].
  rewrite for_each_cons, (restore_backup_absent _ _ _ bak) by done.
  apply IH. intros b' Hb'. apply Hgone. by right.
Qed.

Lemma second_rollback_witness :
  let r := ApplyResult [Applied "App/Cart.swift" 1] [] 1 ["App/Cart.swift.apr.bak"] in
  let w := (apply_changes Scenario.repo_root Scenario.cfg (Patch (Some [Scenario.fix_cart]))
              Scenario.start).2 in
  let w1 := (rollback Scenario.repo_root r w).2 in
  rollback Scenario.repo_root r w1 = (Return (), w1).
Proof.
  intros r w w1.
  apply (second_rollback_is_noop Scenario.repo_root r w w1 (Return ())).
  - apply io_returns. vm_compute. reflexivity.
  - intros b Hb. apply list_elem_of_singleton in Hb as ->.
    exists (Scenario.in_repo ["App"; "Cart.swift.apr.bak"]).
    split; [vm_compute; reflexivity|]. left. vm_compute. reflexivity.
Defined.

Lemma rfind_from_app c i last s t :
  Text.rfind_from c i last (s ++ t)
  = Text.rfind_from c (i + length s) (Text.rfind_from c i last s) t.
Proof.
  revert i last. induction s as [|d s IH]; intros i last; cbn [app Text.rfind_from length].
  - by rewrite Nat.add_0_r.
  - rewrite IH. f_equal. lia.
Qed.

(** [with_suffix("")] on a backup path takes off [.bak] only: the result
    still ends in [.apr] and is not the path the backup was made from. *)
Lemma with_suffix_strips_bak_only dir base :
  with_suffix (dir ++ [base +:+ ".apr.bak"]) "" = Some (dir ++ [base +:+ ".apr"]).
Proof.
  assert (name (dir ++ [base +:+ ".apr.bak"]) = base +:+ ".apr.bak") as Hname
    by (unfold name; by rewrite last_snoc).
  assert (suffix (dir ++ [base +:+ ".apr.bak"]) = ".bak") as Hsuffix.
  { unfold suffix. rewrite Hname. unfold Text.rfind.
    rewrite chars_app, rfind_from_app. cbn [Nat.add].
    change (Text.rfind_from "." (length (Text.chars base)) _ (Text.chars ".apr.bak"))
      with (Some (4 + length (Text.chars base))).
    rewrite (Nat.add_comm 4).
    rewrite string_app_length, <- length_chars.
    replace ((0 <? length (Text.chars base) + 4)
             && (length (Text.chars base) + 4
                 <? length (Text.chars base) + String.length ".apr.bak" - 1)) with true.
    2:{ symmetry. apply andb_true_intro. split; apply Nat.ltb_lt; cbn; lia. }
    unfold Text.substring_from. rewrite chars_app, drop_app_add'; [done|lia]. }
  unfold with_suffix. cbn [valid_suffix negb]. rewrite Hsuffix, Hname.
  change (negb (valid_suffix "")) with false. cbn match.
  rewrite bool_decide_eq_false_2.
  2:{ intros Heq. apply (f_equal String.length) in Heq.
      rewrite string_app_length in Heq. cbn in Heq. lia. }
  rewrite bool_decide_eq_false_2 by done.
  rewrite removelast_last. do 3 f_equal.
  unfold Text.substring_to. apply chars_inj.
  rewrite chars_app, !chars_of_chars, chars_app, string_app_length, <- length_chars.
  replace (length (Text.chars base) + String.length ".apr.bak" - String.length ".bak")
    with (length (Text.chars base) + 4) by (cbn; lia).
  rewrite take_app_add' by done. rewrite (chars_app base). cbn. by rewrite app_nil_r.
Qed.

(** C1: the code does not do what the claim says. After [apply_changes]
    has replaced [App/Cart.swift], [rollback] with the returned result
    reads the backup and removes it, but writes the old text to
    [App/Cart.swift.apr]: the file itself keeps the patched text. *)
Lemma rollback_restores_wrong_file :
  let cart := Scenario.in_repo ["App"; "Cart.swift"] in
  let bak := Scenario.in_repo ["App"; "Cart.swift.apr.bak"] in
  let apr := Scenario.in_repo ["App"; "Cart.swift.apr"] in
  ∃ r w1 w2,
    apply_changes Scenario.repo_root Scenario.cfg (Patch (Some [Scenario.fix_cart]))
      Scenario.start = (Return r, w1)
    ∧ applied r = [Applied "App/Cart.swift" 1]
    ∧ rollback Scenario.repo_root r w1 = (Return (), w2)
    ∧ disk Scenario.start !! cart = Some (File Scenario.cart_swift)
    ∧ disk w2 !! cart = Some (File Scenario.cart_swift_fixed)
    ∧ disk w2 !! apr = Some (File Scenario.cart_swift)
    ∧ disk w2 !! bak = None
    ∧ with_suffix bak "" = Some apr.
Proof.
  intros cart bak apr.
  exists (ApplyResult [Applied "App/Cart.swift" 1] [] 1 ["App/Cart.swift.apr.bak"]),
    (apply_changes Scenario.repo_root Scenario.cfg (Patch (Some [Scenario.fix_cart]))
       Scenario.start).2,
    (rollback Scenario.repo_root
       (ApplyResult [Applied "App/Cart.swift" 1] [] 1 ["App/Cart.swift.apr.bak"])
       (apply_changes Scenario.repo_root Scenario.cfg (Patch (Some [Scenario.fix_cart]))
          Scenario.start).2).2.
  split; [apply io_returns; vm_compute; reflexivity|].
  split; [reflexivity|]. split; [apply io_returns; vm_compute; reflexivity|].
  repeat split; vm_compute; reflexivity.
Qed.

(** ** The scenarios of the specification *)

(** Scenario A: one change in scope within the budget. *)
Example scenario_A :
  (apply_changes Scenario.repo_root Scenario.cfg (Patch (Some [Scenario.fix_cart]))
     Scenario.start).1
  = Return (ApplyResult [Applied "App/Cart.swift" 1] [] 1 ["App/Cart.swift.apr.bak"]).
Proof. vm_compute. reflexivity. Qed.

(** Scenario B: a second change outside [App/] is rejected and the first
    one is applied all the same. *)
Example scenario_B :
  (apply_changes Scenario.repo_root Scenario.cfg
     (Patch (Some [Scenario.fix_cart; FileChange "Secrets/Keys.swift" (Some "")]))
     Scenario.start).1
  = Return (ApplyResult [Applied "App/Cart.swift" 1]
              [Rejected "Secrets/Keys.swift" out_of_scope] 1 ["App/Cart.swift.apr.bak"]).
Proof. vm_compute. reflexivity. Qed.

(** Scenario C: with a budget of ten, a change of eight lines is applied
    and a later change of five is rejected; the total stays at eight. *)
Example scenario_C :
  (apply_changes Scenario.repo_root Scenario.cfg
     (Patch (Some [Scenario.rewrite_cart; Scenario.rewrite_item])) Scenario.start).1
  = Return (ApplyResult [Applied "App/Cart.swift" 8]
              [Rejected "App/Item.swift" max_change_lines_exceeded] 8
              ["App/Cart.swift.apr.bak"])
  ∧ (apply_changes Scenario.repo_root (Config None None None)
       (Patch (Some [Scenario.rewrite_item])) Scenario.start).1
    = Return (ApplyResult [Applied "App/Item.swift" 5] [] 5 ["App/Item.swift.apr.bak"]).
Proof. split; vm_compute; reflexivity. Qed.

(** Scenario E: a path that is not on the disk. *)
Example scenario_E :
  apply_changes Scenario.repo_root Scenario.cfg
    (Patch (Some [FileChange "App/Missing.swift" (Some "x")])) Scenario.start
  = (Return (ApplyResult [] [Rejected "App/Missing.swift" not_found] 0 []), Scenario.start).
Proof.
  rewrite apply_changes_unfold. cbn [changes default from_option id].
  rewrite for_each_cons.
  by rewrite (apply_change_not_found Scenario.repo_root Scenario.cfg Locals.init _
                Scenario.start (Scenario.in_repo ["App"; "Missing.swift"])
                ["App"; "Missing.swift"])
    by (try left; vm_compute; reflexivity).
Qed.

(** The example of the [difflib.ndiff] documentation. *)
Example ndiff_documentation :
  Differ.ndiff (Text.splitlines (text_of_lines ["one"; "two"; "three"]))
    (Text.splitlines (text_of_lines ["ore"; "tree"; "emu"]))
  = ["- one" +:+ nl; "+ ore" +:+ nl; "- two" +:+ nl; "- three" +:+ nl;
     "+ tree" +:+ nl; "+ emu" +:+ nl].
Proof. vm_compute. reflexivity. Qed.

Example splitlines_keeps_ends :
  Text.splitlines ("a" +:+ String Text.CR nl +:+ "b" +:+ String Text.CR "c") =
  ["a" +:+ String Text.CR nl; "b" +:+ String Text.CR ""; "c"].
Proof. vm_compute. reflexivity. Qed.

Example fnmatch_star_crosses_slash :
  Fnmatch.fnmatch "App/Views/Cart.swift" "App/*.swift" = true
  ∧ Fnmatch.fnmatch "Tests/Cart.swift" "App/*.swift" = false
  ∧ Fnmatch.fnmatch "a-c" "[!b-z]?[a-c]" = true
  ∧ Fnmatch.fnmatch "[x" "[x" = true.
Proof. repeat split; vm_compute; reflexivity. Qed.

(** ** What the applier touches *)

Lemma for_each_world {A S} (body : S → A → io S) (J : world → Prop) xs st w :
  (∀ st x w, J w → J (body st x w).2) → J w → J (for_each body xs st w).2.
Proof.
  intros Hstep. revert st w. induction xs as [|x xs IH]; intros st w HJ; [done|].
  rewrite for_each_cons. pose proof (Hstep st x w HJ) as HJ'.
  destruct (body st x w) as [[st'|e] w']; [by apply IH|done].
Qed.

Lemma apply_change_confined repo_root cfg st change w0 w :
  (∃ evs targets,
     journal w = journal w0 ++ evs
     ∧ snapshotted (disk w0) evs targets (disk w)
     ∧ Forall (in_scope_target repo_root cfg) targets) →
  ∃ evs targets,
    journal (apply_change repo_root cfg st change w).2 = journal w0 ++ evs
    ∧ snapshotted (disk w0) evs targets (disk (apply_change repo_root cfg st change w).2)
    ∧ Forall (in_scope_target repo_root cfg) targets.
Proof.
  intros (evs & targets & Hj & Hsnap & Hscope).
  destruct (apply_change_outcome repo_root cfg st change w); cbn [snd];
    try (by exists evs, targets).
  eexists (evs ++ [_; _]), (targets ++ [_]). cbn [journal disk].
  split; [by rewrite Hj, app_assoc|]. split; [by apply snapshotted_snoc|].
  apply Forall_app. split; [done|]. constructor; [|constructor]. by exists rel_parts.
Qed.

(** X1. Whatever [apply_changes] does, and also when it raises, its
    mutations are pairs of writes: the backup of a target, then the target
    itself; every target lies in the repository, is in scope and was a
    regular file when it was overwritten. Nothing is ever removed, and no
    out-of-scope file is written except as the backup next to a target. *)
Theorem apply_changes_confined (repo_root : path) (cfg : config) (p : patch) (w : world) :
  ∃ evs targets,
    journal (apply_changes repo_root cfg p w).2 = journal w ++ evs
    ∧ snapshotted (disk w) evs targets (disk (apply_changes repo_root cfg p w).2)
    ∧ Forall (in_scope_target repo_root cfg) targets.
Proof.
  assert (∃ evs targets,
    journal (for_each (apply_change repo_root cfg) (default [] (changes p)) Locals.init w).2
    = journal w ++ evs
    ∧ snapshotted (disk w) evs targets
        (disk (for_each (apply_change repo_root cfg) (default [] (changes p)) Locals.init w).2)
    ∧ Forall (in_scope_target repo_root cfg) targets) as Hloop.
  { apply (for_each_world _ (λ w', ∃ evs targets,
      journal w' = journal w ++ evs ∧ snapshotted (disk w) evs targets (disk w')
      ∧ Forall (in_scope_target repo_root cfg) targets)).
    - intros st x w'. apply apply_change_confined.
    - exists [], []. rewrite app_nil_r. repeat split; constructor. }
  rewrite apply_changes_unfold.
  destruct (for_each _ _ _ w) as [[st|e] w1]; [|done]. cbn [snd] in Hloop.
  destruct (relative_backups _ _ w1) as [[bs|e] w2] eqn:Hbs;
    apply relative_backups_world in Hbs as ->; done.
Qed.

Lemma snapshotted_no_target d evs d' :
  snapshotted d evs [] d' → evs = [] ∧ d' = d.
Proof.
  intros Hsnap. remember [] as none eqn:Hnone.
  destruct Hsnap as [|evs targets]; [done|]. by destruct targets.
Qed.

Lemma apply_changes_Return repo_root cfg p w r w' :
  apply_changes repo_root cfg p w = (Return r, w') →
  ∃ st,
    for_each (apply_change repo_root cfg) (default [] (changes p)) Locals.init w
    = (Return st, w')
    ∧ relative_backups repo_root (Locals.backups st) w' = (Return (backups r), w')
    ∧ applied r = Locals.changes_applied st
    ∧ rejected r = Locals.rejected st
    ∧ total_changed r = Locals.total_changed st.
Proof.
  intros Hrun. rewrite apply_changes_unfold in Hrun.
  destruct (for_each _ _ _ w) as [[st|e] w1] eqn:Hloop; [|done].
  destruct (relative_backups _ _ w1) as [[bs|e] w2] eqn:Hbs; [|done].
  pose proof (relative_backups_world _ _ _ _ _ Hbs) as ->.
  injection Hrun as <- <-. by exists st.
Qed.

Lemma no_applied_no_effect repo_root cfg p w w' r :
  apply_changes repo_root cfg p w = (Return r, w') →
  applied r = [] →
  w' = w ∧ backups r = [] ∧ total_changed r = 0.
Proof.
  intros Hrun Hnone.
  destruct (apply_changes_Return _ _ _ _ _ _ Hrun) as (st & Hloop & Hbs & Happ & _ & Htot).
  destruct (snapshot_invariant _ _ _ _ _ _ Hloop) as (evs & targets & Hj & Hsnap & Hall).
  rewrite <- Happ, Hnone in Hall. apply Forall2_nil_inv_r in Hall as ->.
  apply snapshotted_no_target in Hsnap as [-> Hdisk].
  rewrite app_nil_r in Hj. split; [|split].
  - destruct w, w'. cbn in *. by subst.
  - pose proof (backups_invariant _ _ _ _ _ _ Hloop) as Hinv.
    destruct (relative_backups_map _ _ _ _ _ _ Hinv Hbs) as [-> _].
    by rewrite <- Happ, Hnone.
  - rewrite Htot. destruct (budget_loop_invariant _ _ _ _ _ _ Hloop) as [-> _].
    by rewrite <- Happ, Hnone.
Qed.

(** X2. When a completed [apply_changes] has applied nothing, because
    every change was rejected or there was none, it has left the disk and
    the journal exactly as they were, and its result has no backup and a
    total of zero. *)
Theorem nothing_applied_nothing_touched (repo_root : path) (cfg : config) (p : patch)
    (w w' : world) (r : apply_result) :
  apply_changes repo_root cfg p w = (Return r, w') →
  applied r = [] →
  w' = w ∧ backups r = [] ∧ total_changed r = 0.
Proof. apply no_applied_no_effect. Qed.

Lemma nothing_applied_witness :
  (apply_changes Scenario.repo_root Scenario.cfg
     (Patch (Some [FileChange "README.md" (Some "x"); FileChange "App/Missing.swift" None]))
     Scenario.start).2 = Scenario.start.
Proof.
  refine (proj1 (nothing_applied_nothing_touched Scenario.repo_root Scenario.cfg
                   (Patch (Some [FileChange "README.md" (Some "x");
                                 FileChange "App/Missing.swift" None]))
                   Scenario.start _
                   (ApplyResult [] [Rejected "README.md" out_of_scope;
                                    Rejected "App/Missing.swift" not_found] 0 []) _ eq_refl)).
  apply io_returns. vm_compute. reflexivity.
Defined.

Lemma negative_budget_none repo_root cfg p w r w' :
  (budget cfg < 0)%Z →
  apply_changes repo_root cfg p w = (Return r, w') → applied r = [].
Proof.
  intros Hneg Hrun.
  destruct (apply_changes_Return _ _ _ _ _ _ Hrun) as (st & Hloop & _ & Happ & _).
  destruct (budget_loop_invariant _ _ _ _ _ _ Hloop) as [_ Hle].
  rewrite Happ. destruct (Locals.changes_applied st); [done|].
  specialize (Hle ltac:(done)). lia.
Qed.

(** X3. With a negative [max_change_lines], a completed [apply_changes]
    applies nothing and touches nothing. *)
Theorem negative_budget_applies_nothing (repo_root : path) (cfg : config) (p : patch)
    (w w' : world) (r : apply_result) :
  (budget cfg < 0)%Z →
  apply_changes repo_root cfg p w = (Return r, w') →
  applied r = [] ∧ w' = w.
Proof.
  intros Hneg Hrun.
  pose proof (negative_budget_none _ _ _ _ _ _ Hneg Hrun) as Hnone.
  split; [done|]. by eapply no_applied_no_effect.
Qed.

Lemma negative_budget_witness :
  applied (ApplyResult [] [Rejected "App/Cart.swift" max_change_lines_exceeded] 0 []) = []
  ∧ (apply_changes Scenario.repo_root (Config None None (Some (-1)%Z))
       (Patch (Some [Scenario.fix_cart])) Scenario.start).2 = Scenario.start.
Proof.
  apply (negative_budget_applies_nothing Scenario.repo_root (Config None None (Some (-1)%Z))
           (Patch (Some [Scenario.fix_cart])) Scenario.start).
  - reflexivity.
  - apply io_returns. vm_compute. reflexivity.
Defined.

Lemma truthful_invariant repo_root cfg changes w st w' :
  for_each (apply_change repo_root cfg) changes Locals.init w = (Return st, w') →
  Forall (λ e, within_scope (applied_path e) cfg = true) (Locals.changes_applied st)
  ∧ Forall (truthful cfg) (Locals.rejected st).
Proof.
  revert st w'.
  apply (for_each_ind _ (λ _ st _,
    Forall (λ e, within_scope (applied_path e) cfg = true) (Locals.changes_applied st)
    ∧ Forall (truthful cfg) (Locals.rejected st))); [by split; constructor|].
  intros seen c st1 w1 st2 w2 [Happ Hrej] Hstep.
  round_cases Hstep; cbn [Locals.reject Locals.changes_applied Locals.rejected];
    (split; [try done|try done]);
    try (apply Forall_app; split; [done|]; constructor; [done|constructor]).
Qed.

(** X4. In the result of [apply_changes] every applied path is in scope,
    a rejection with [out_of_scope] names a path the scope guard refuses,
    and a rejection with [not_found] or [max_change_lines_exceeded] names
    a path the scope guard accepts. *)
Theorem outcomes_agree_with_scope (repo_root : path) (cfg : config) (p : patch)
    (w w' : world) (r : apply_result) :
  apply_changes repo_root cfg p w = (Return r, w') →
  Forall (λ e, within_scope (applied_path e) cfg = true) (applied r)
  ∧ Forall (truthful cfg) (rejected r).
Proof.
  intros Hrun.
  destruct (apply_changes_Return _ _ _ _ _ _ Hrun) as (st & Hloop & _ & -> & -> & _).
  by eapply truthful_invariant.
Qed.

Lemma outcomes_agree_witness :
  Forall (λ e, within_scope (applied_path e) Scenario.cfg = true)
    [Applied "App/Cart.swift" 1]
  ∧ Forall (truthful Scenario.cfg)
      [Rejected "README.md" out_of_scope; Rejected "App/Missing.swift" not_found].
Proof.
  eapply (outcomes_agree_with_scope Scenario.repo_root Scenario.cfg
           (Patch (Some [FileChange "README.md" (Some "x"); Scenario.fix_cart;
                         FileChange "App/Missing.swift" None]))
           Scenario.start _
           (ApplyResult [Applied "App/Cart.swift" 1]
              [Rejected "README.md" out_of_scope; Rejected "App/Missing.swift" not_found] 1
              ["App/Cart.swift.apr.bak"])).
  apply io_returns. vm_compute. reflexivity.
Defined.

Lemma snapshotted_frame d evs targets d' q :
  snapshotted d evs targets d' →
  (∀ t, t ∈ targets → q ≠ t ∧ with_suffix t (suffix t +:+ backup_suffix) ≠ Some q) →
  d' !! q = d !! q.
Proof.
  induction 1 as [|evs targets d' target data new bak _ IH Hfile Hbak]; intros Hq; [done|].
  destruct (Hq target) as [Hne Hnb]; [apply elem_of_app; right; by left|].
  rewrite lookup_insert_ne by done. rewrite lookup_insert_ne by congruence.
  apply IH. intros t Ht. apply Hq, elem_of_app. by left.
Qed.

Lemma targets_invariant repo_root cfg changes w st w' :
  for_each (apply_change repo_root cfg) changes Locals.init w = (Return st, w') →
  ∃ evs targets,
    snapshotted (disk w) evs targets (disk w')
    ∧ Forall2 (λ t e, as_posix <$> relative_to t repo_root = Some (applied_path e))
        targets (Locals.changes_applied st)
    ∧ Forall2 (λ t b, with_suffix t (suffix t +:+ backup_suffix) = Some b)
        targets (Locals.backups st).
Proof.
  revert st w'.
  apply (for_each_ind _ (λ _ st w', ∃ evs targets,
    snapshotted (disk w) evs targets (disk w')
    ∧ Forall2 (λ t e, as_posix <$> relative_to t repo_root = Some (applied_path e))
        targets (Locals.changes_applied st)
    ∧ Forall2 (λ t b, with_suffix t (suffix t +:+ backup_suffix) = Some b)
        targets (Locals.backups st))).
  { exists [], []. repeat split; constructor. }
  intros seen c st1 w1 st2 w2 (evs & targets & Hsnap & Happ & Hbak) Hstep.
  round_cases Hstep; try (by exists evs, targets).
  eexists (evs ++ [_; _]), (targets ++ [_]).
  cbn [journal disk Locals.changes_applied Locals.backups].
  split; [by apply snapshotted_snoc|].
  split; (apply Forall2_app; [done|]; constructor; [|constructor]); [|done].
  cbn [applied_path].
  by match goal with H : relative_to _ _ = Some _ |- _ => rewrite H end.
Qed.

Lemma relative_backups_each repo_root bs w out w' :
  relative_backups repo_root bs w = (Return out, w') →
  Forall2 (λ b o, as_posix <$> relative_to b repo_root = Some o) bs out.
Proof.
  revert out. induction bs as [|b bs IH]; intros out Hrun.
  - cbn in Hrun. injection Hrun as <- <-. constructor.
  - cbn [relative_backups] in Hrun. rewrite bind_unfold in Hrun.
    destruct (relative_to b repo_root) as [parts|] eqn:Hb; cbn [or_raise] in Hrun; [|done].
    unfold mret at 1, io_ret at 1 in Hrun. rewrite bind_unfold in Hrun.
    destruct (relative_backups repo_root bs w) as [[rest|e] w1] eqn:Hrest; [|done].
    injection Hrun as <- <-. constructor; [by rewrite Hb|]. by eapply IH.
Qed.

(** X5. A completed [apply_changes] leaves every path alone whose
    repository-relative name is listed neither in [applied] nor in
    [backups]: files of rejected changes, files no change names and files
    outside the repository keep the node they had. *)
Theorem unlisted_paths_untouched (repo_root : path) (cfg : config) (p : patch)
    (w w' : world) (r : apply_result) (q : path) :
  apply_changes repo_root cfg p w = (Return r, w') →
  (∀ e, e ∈ applied r → as_posix <$> relative_to q repo_root ≠ Some (applied_path e)) →
  (∀ b, b ∈ backups r → as_posix <$> relative_to q repo_root ≠ Some b) →
  disk w' !! q = disk w !! q.
Proof.
  intros Hrun Happlied Hbackups.
  destruct (apply_changes_Return _ _ _ _ _ _ Hrun) as (st & Hloop & Hbs & Happ & _).
  destruct (targets_invariant _ _ _ _ _ _ Hloop) as (evs & targets & Hsnap & Hte & Htb).
  apply relative_backups_each in Hbs.
  eapply snapshotted_frame; [done|]. intros t Ht. split.
  - intros ->. apply list_elem_of_lookup in Ht as [i Hi].
    destruct (Forall2_lookup_l _ _ _ _ _ Hte Hi) as (e & He & Hrel).
    apply (Happlied e); [|done]. rewrite Happ. by eapply list_elem_of_lookup_2.
  - intros Hq. apply list_elem_of_lookup in Ht as [i Hi].
    destruct (Forall2_lookup_l _ _ _ _ _ Htb Hi) as (b & Hb & Hsfx).
    rewrite Hq in Hsfx. injection Hsfx as <-.
    destruct (Forall2_lookup_l _ _ _ _ _ Hbs Hb) as (o & Ho & Hrel).
    apply (Hbackups o); [|done]. by eapply list_elem_of_lookup_2.
Qed.

Lemma unlisted_paths_witness :
  disk (apply_changes Scenario.repo_root Scenario.cfg (Patch (Some [Scenario.fix_cart]))
          Scenario.start).2 !! Scenario.in_repo ["App"; "Item.swift"]
  = disk Scenario.start !! Scenario.in_repo ["App"; "Item.swift"].
Proof.
  apply (unlisted_paths_untouched Scenario.repo_root Scenario.cfg
           (Patch (Some [Scenario.fix_cart])) Scenario.start _
           (ApplyResult [Applied "App/Cart.swift" 1] [] 1 ["App/Cart.swift.apr.bak"])).
  - apply io_returns. vm_compute. reflexivity.
  - intros e ->%list_elem_of_singleton. vm_compute. discriminate.
  - intros b ->%list_elem_of_singleton. vm_compute. discriminate.
Defined.


(** ** Paths and their relative names *)

Lemma elem_of_rev {A} (x : A) l : x ∈ rev l ↔ x ∈ l.
Proof. rewrite !list_elem_of_In. symmetry. apply in_rev. Qed.

(** The pieces of a split hold no separator, and no character that the
    string did not hold. *)
Lemma split_from_pieces sep cur s :
  (¬ sep ∈ cur) →
  Forall (λ piece, (¬ sep ∈ Text.chars piece)
                   ∧ ∀ c, c ∈ Text.chars piece → c ∈ cur ∨ c ∈ s)
    (Text.split_from sep cur s).
Proof.
  revert cur. induction s as [|d s IH]; intros cur Hcur; cbn [Text.split_from].
  - constructor; [|constructor]. rewrite chars_of_chars. split.
    + by rewrite elem_of_rev.
    + intros c Hc. left. by apply elem_of_rev.
  - case_bool_decide as Hd.
    + constructor.
      * rewrite chars_of_chars. split; [by rewrite elem_of_rev|].
        intros c Hc. left. by apply elem_of_rev.
      * eapply Forall_impl; [apply IH, not_elem_of_nil|].
        intros piece [Hsep Hin]. split; [done|]. intros c Hc.
        destruct (Hin c Hc) as [Hnil|Hs]; [by apply elem_of_nil in Hnil|].
        right. by right.
    + eapply Forall_impl; [apply IH|].
      * rewrite elem_of_cons. intros [->|?]; done.
      * intros piece [Hsep Hin]. split; [done|]. intros c Hc.
        destruct (Hin c Hc) as [[->|Hcur']%elem_of_cons|Hs].
        -- right. by left.
        -- by left.
        -- right. by right.
Qed.

Lemma removelast_resolved p : resolved p → resolved (removelast p).
Proof.
  intros Hp. destruct p as [|c p _] using rev_ind; [done|].
  rewrite removelast_last. by apply Forall_app in Hp as [? _].
Qed.

Lemma resolve_step_resolved p c :
  resolved p → (¬ "/"%char ∈ Text.chars c) → (¬ Text.NUL ∈ Text.chars c) →
  resolved (resolve_step p c).
Proof.
  intros Hp Hc Hnul. unfold resolve_step.
  case_bool_decide as H1; [done|]. case_bool_decide as H2; [done|]. cbn [orb].
  case_bool_decide as H3; [by apply removelast_resolved|].
  apply Forall_app. split; [done|]. by repeat constructor.
Qed.

Lemma foldl_resolve_step_resolved p cs :
  resolved p →
  Forall (λ c, (¬ "/"%char ∈ Text.chars c) ∧ (¬ Text.NUL ∈ Text.chars c)) cs →
  resolved (foldl resolve_step p cs).
Proof.
  intros Hp Hcs. revert p Hp. induction Hcs as [|c cs [Hc Hnul] _ IH]; intros p Hp; [done|].
  cbn [foldl]. by apply IH, resolve_step_resolved.
Qed.

Lemma realpath_resolved repo_root s :
  resolved repo_root → (¬ Text.NUL ∈ Text.chars s) → resolved (realpath repo_root s).
Proof.
  intros Hroot Hnul. unfold realpath. apply foldl_resolve_step_resolved.
  - destruct (Text.startswith "/" s); [constructor|done].
  - eapply Forall_impl; [apply split_from_pieces, not_elem_of_nil|].
    intros piece [Hsep Hin]. split; [done|]. intros Hc.
    destruct (Hin _ Hc) as [Hnil|Hs]; [by apply elem_of_nil in Hnil|done].
Qed.

Lemma resolve_joined_resolved repo_root s target :
  resolved repo_root → resolve_joined repo_root s = Some target → resolved target.
Proof.
  intros Hroot [Hnul ->]%resolve_joined_Some. by apply realpath_resolved.
Qed.

Lemma foldl_resolve_step_components p rel :
  resolved rel → foldl resolve_step p rel = p ++ rel.
Proof.
  intros Hrel. revert p. induction Hrel as [|c rel (H1 & H2 & H3 & _) _ IH]; intros p.
  - by rewrite app_nil_r.
  - cbn [foldl]. rewrite IH. unfold resolve_step.
    rewrite !bool_decide_eq_false_2 by done. cbn [orb]. by rewrite <- app_assoc.
Qed.

Lemma split_from_piece sep cur c rest :
  (¬ sep ∈ Text.chars c) →
  Text.split_from sep cur (Text.chars c ++ rest)
  = Text.split_from sep (rev (Text.chars c) ++ cur) rest.
Proof.
  generalize (Text.chars c) as l. intros l. revert cur.
  induction l as [|d l IH]; intros cur Hl; [done|].
  cbn [app Text.split_from]. rewrite bool_decide_eq_false_2.
  2:{ intros ->. apply Hl. by left. }
  rewrite IH by (intros ?; apply Hl; by right).
  cbn [rev]. by rewrite <- app_assoc.
Qed.

(** [split] undoes [join]. *)
Lemma split_join rel :
  rel ≠ [] → Forall (λ c, ¬ "/"%char ∈ Text.chars c) rel →
  Text.split "/" (Text.join "/" rel) = rel.
Proof.
  intros Hne Hrel. unfold Text.split.
  induction Hrel as [|c rel Hc Hrel IH]; [done|]. clear Hne.
  destruct rel as [|c' rel].
  - cbn [Text.join]. rewrite <- (app_nil_r (Text.chars c)), split_from_piece by done.
    cbn [Text.split_from]. by rewrite app_nil_r, rev_involutive, of_chars_chars.
  - rewrite join_cons by done. rewrite !chars_app, split_from_piece by done.
    change (Text.chars "/") with ["/"%char]. cbn [app Text.split_from].
    rewrite bool_decide_eq_true_2 by done.
    rewrite app_nil_r, rev_involutive, of_chars_chars. f_equal. by apply IH.
Qed.

Lemma join_startswith rel :
  resolved rel → Text.startswith "/" (Text.join "/" rel) = false.
Proof.
  destruct 1 as [|c rel (Hne & _ & _ & Hc & _) _]; [done|].
  assert (Text.startswith "/" c = false) as Hstart.
  { destruct c as [|d c]; [done|]. cbn. apply bool_decide_eq_false_2.
    intros ->. apply Hc. cbn. by left. }
  destruct rel as [|c' rel]; [done|]. rewrite join_cons by done.
  destruct c; [done|]. exact Hstart.
Qed.

Lemma join_chars sep rel c :
  c ∈ Text.chars (Text.join sep rel) →
  c ∈ Text.chars sep ∨ ∃ x, x ∈ rel ∧ c ∈ Text.chars x.
Proof.
  induction rel as [|x rel IH]; [by intros ?%elem_of_nil|].
  destruct rel as [|y rel].
  - intros Hc. right. exists x. split; [by left|done].
  - rewrite join_cons by done. rewrite !chars_app, !elem_of_app.
    intros [Hx|[Hsep|Hrest]].
    + right. exists x. split; [by left|done].
    + by left.
    + destruct (IH Hrest) as [?|(z & Hz & Hcz)]; [by left|].
      right. exists z. split; [by right|done].
Qed.

(** The relative name of a path below the root resolves to that path. *)
Lemma resolve_as_posix repo_root rel :
  resolved rel → resolve_joined repo_root (as_posix rel) = Some (repo_root ++ rel).
Proof.
  intros Hrel. apply resolve_joined_Some. split.
  - unfold as_posix. destruct rel as [|c rel].
    { intros Hnul. vm_compute in Hnul.
      by repeat (apply elem_of_cons in Hnul as [?|Hnul]; [done|]); apply elem_of_nil in Hnul. }
    intros [Hsep|(x & Hx & Hnul)]%join_chars.
    + vm_compute in Hsep.
      by repeat (apply elem_of_cons in Hsep as [?|Hsep]; [done|]); apply elem_of_nil in Hsep.
    + unfold resolved in Hrel. rewrite Forall_forall in Hrel.
      by destruct (Hrel x Hx) as (_ & _ & _ & _ & ?).
  - unfold realpath, as_posix. destruct rel as [|c rel].
    + cbn. by rewrite app_nil_r.
    + rewrite join_startswith by done. rewrite split_join.
      * symmetry. by apply foldl_resolve_step_components.
      * done.
      * eapply Forall_impl; [exact Hrel|]. by intros ? (_ & _ & _ & ? & _).
Qed.

(** X6. In a resolved repository root, the relative path that
    [apply_changes] reports for a change names the file the change
    resolved to: joined to the root and resolved again, it gives the same
    path. *)
Theorem relative_path_names_same_file (repo_root : path) (s : string) (target rel : path) :
  resolved repo_root →
  resolve_joined repo_root s = Some target →
  relative_to target repo_root = Some rel →
  resolve_joined repo_root (as_posix rel) = Some target.
Proof.
  intros Hroot Hres Hrel. pose proof (resolve_joined_resolved _ _ _ Hroot Hres) as Htarget.
  apply relative_to_Some in Hrel as ->.
  apply Forall_app in Htarget as [_ Hrel]. by apply resolve_as_posix.
Qed.

Lemma resolved_scenario_root : resolved Scenario.repo_root.
Proof.
  repeat constructor; try discriminate;
    intros Hin; vm_compute in Hin;
    by repeat (apply elem_of_cons in Hin as [?|Hin]; [done|]); apply elem_of_nil in Hin.
Qed.

Lemma relative_path_witness :
  resolve_joined Scenario.repo_root (as_posix ["App"; "Cart.swift"])
  = Some (Scenario.in_repo ["App"; "Cart.swift"]).
Proof.
  apply (relative_path_names_same_file Scenario.repo_root "App/Views/../Cart.swift").
  - exact resolved_scenario_root.
  - vm_compute. reflexivity.
  - vm_compute. reflexivity.
Defined.

(** ** What rollback does *)

Lemma write_text_cases p text w :
  (∃ e, write_text p text w = (Raise e, w))
  ∨ write_text p text w
    = (Return (), World (<[p := File text]> (disk w)) (journal w ++ [Write p text])).
Proof.
  unfold write_text.
  destruct (stat (disk w) p) as [[x|]| | |];
    try destruct (stat (disk w) (removelast p)) as [[y|]| | |]; eauto.
Qed.

(** One round of [rollback], case by case. *)
Lemma restore_backup_cases repo_root b w :
  restore_backup repo_root () b w =
  match resolve_joined repo_root b with
  | None => (Raise ValueError, w)
  | Some bak =>
      match stat (disk w) bak with
      | ENAMETOOLONG => (Raise OSError, w)
      | ENOENT | ENOTDIR => (Return (), w)
      | Found n =>
          match with_suffix bak "" with
          | None => (Raise ValueError, w)
          | Some orig =>
              match n with
              | Dir => (Return (), w)
              | File data =>
                  match write_text orig (Text.universal_newlines data) w with
                  | (Raise _, _) => (Return (), w)
                  | (Return _, w1) =>
                      (Return (), World (delete bak (disk w1)) (journal w1 ++ [Unlink bak]))
                  end
              end
          end
      end
  end.
Proof.
  unfold restore_backup. rewrite bind_unfold.
  destruct (resolve_joined repo_root b) as [bak|]; cbn [or_raise]; [|done].
  unfold mret at 1, io_ret at 1. rewrite bind_unfold. unfold exists_ at 1.
  destruct (stat (disk w) bak) as [n| | |] eqn:Hbak; try done.
  rewrite bind_unfold.
  destruct (with_suffix bak "") as [orig|] eqn:Horig; cbn [or_raise]; [|done].
  unfold mret at 1, io_ret at 1. unfold try_except_pass. rewrite bind_unfold.
  unfold read_text at 1. rewrite Hbak. destruct n as [data|]; [|done].
  rewrite bind_unfold.
  destruct (write_text_cases orig (Text.universal_newlines data) w) as [[e ->]| ->]; [done|].
  unfold unlink. cbn [disk journal].
  assert (stat (<[orig := File (Text.universal_newlines data)]> (disk w)) bak
          = Found (File (if decide (orig = bak) then Text.universal_newlines data else data)))
    as ->; [|done].
  destruct (decide (orig = bak)) as [->|Hne].
  - apply (stat_insert_here _ _ (Text.universal_newlines data)); [|done]. right. eauto.
  - rewrite stat_insert_other; [done|].
    unfold with_suffix in Horig. change (negb (valid_suffix "")) with false in Horig.
    cbn match in Horig. case_bool_decide as Hname; [done|]. injection Horig as <-.
    destruct bak as [|c dir _] using rev_ind; [done|].
    rewrite removelast_last in Hne |- *. apply sibling_not_prefix. congruence.
Qed.

Lemma restore_backup_raises repo_root b w e w' :
  restore_backup repo_root () b w = (Raise e, w') →
  w' = w
  ∧ ((e = ValueError ∧ resolve_joined repo_root b = None)
     ∨ ∃ bak, resolve_joined repo_root b = Some bak
              ∧ ((e = OSError ∧ stat (disk w) bak = ENAMETOOLONG)
                 ∨ (e = ValueError ∧ name bak = "" ∧ ∃ n, stat (disk w) bak = Found n))).
Proof.
  rewrite restore_backup_cases.
  destruct (resolve_joined repo_root b) as [bak|]; [|intros [= <- <-]; by eauto].
  destruct (stat (disk w) bak) as [n| | |] eqn:Hbak; try done.
  - destruct (with_suffix bak "") as [orig|] eqn:Hsfx.
    + destruct n as [data|]; [|done].
      by destruct (write_text orig (Text.universal_newlines data) w) as [[[]|?] ?].
    + intros [= <- <-]. split; [done|]. right. exists bak. split; [done|]. right.
      split; [done|]. split; [|by eauto].
      unfold with_suffix in Hsfx. change (negb (valid_suffix "")) with false in Hsfx.
      cbn match in Hsfx. by case_bool_decide.
  - intros [= <- <-]. split; [done|]. right. exists bak. eauto.
Qed.

Lemma rollback_raises repo_root bs w e w' :
  for_each (restore_backup repo_root) bs () w = (Raise e, w') →
  ∃ b, b ∈ bs
       ∧ ((e = ValueError ∧ resolve_joined repo_root b = None)
          ∨ ∃ bak, resolve_joined repo_root b = Some bak
                   ∧ ((e = OSError ∧ stat (disk w') bak = ENAMETOOLONG)
                      ∨ (e = ValueError ∧ name bak = "" ∧ ∃ n, stat (disk w') bak = Found n))).
Proof.
  revert w. induction bs as [|b bs IH]; intros w; [done|].
  rewrite for_each_cons.
  destruct (restore_backup repo_root () b w) as [[[]|e1] w1] eqn:Hstep.
  - intros (b' & Hb' & Hwhy)%IH. exists b'. split; [by right|done].
  - intros [= <- <-]. apply restore_backup_raises in Hstep as [-> Hwhy].
    exists b. split; [by left|done].
Qed.

(** X7. [rollback] fails only ahead of its [try] block: with
    [ValueError] when an entry of [backups] holds a NUL or resolves to a
    path with an empty name, which is the root directory, and with
    [OSError] when the existence test of a backup fails on a name or a
    path that is too long. Whatever goes wrong while a backup is read,
    written back or removed is swallowed. *)
Theorem rollback_fails_before_try_only (repo_root : path) (r : apply_result)
    (w w' : world) (e : exn) :
  rollback repo_root r w = (Raise e, w') →
  ∃ b, b ∈ backups r
       ∧ ((e = ValueError ∧ resolve_joined repo_root b = None)
          ∨ ∃ bak, resolve_joined repo_root b = Some bak
                   ∧ ((e = OSError ∧ stat (disk w') bak = ENAMETOOLONG)
                      ∨ (e = ValueError ∧ name bak = "" ∧ ∃ n, stat (disk w') bak = Found n))).
Proof. apply rollback_raises. Qed.

Lemma rollback_fails_witness :
  ∃ b, b ∈ ["App/Cart.swift.apr.bak"; "/"]
       ∧ ((ValueError = ValueError ∧ resolve_joined Scenario.repo_root b = None)
          ∨ ∃ bak, resolve_joined Scenario.repo_root b = Some bak
                   ∧ ((ValueError = OSError
                       ∧ stat (disk (rollback Scenario.repo_root
                                       (ApplyResult [] [] 0 ["App/Cart.swift.apr.bak"; "/"])
                                       Scenario.start).2) bak = ENAMETOOLONG)
                      ∨ (ValueError = ValueError ∧ name bak = ""
                         ∧ ∃ n, stat (disk (rollback Scenario.repo_root
                                              (ApplyResult [] [] 0 ["App/Cart.swift.apr.bak"; "/"])
                                              Scenario.start).2) bak = Found n))).
Proof.
  apply (rollback_fails_before_try_only Scenario.repo_root
           (ApplyResult [] [] 0 ["App/Cart.swift.apr.bak"; "/"]) Scenario.start).
  apply io_raises. vm_compute. reflexivity.
Defined.

Lemma restore_backup_frame repo_root b w q :
  (∀ bak, resolve_joined repo_root b = Some bak →
          q ≠ bak ∧ with_suffix bak "" ≠ Some q) →
  disk (restore_backup repo_root () b w).2 !! q = disk w !! q.
Proof.
  intros Hq. rewrite restore_backup_cases.
  destruct (resolve_joined repo_root b) as [bak|]; [|done].
  destruct (Hq bak eq_refl) as [Hbak Horig].
  destruct (stat (disk w) bak) as [[data|]| | |]; try done;
    destruct (with_suffix bak "") as [orig|]; try done.
  destruct (write_text_cases orig (Text.universal_newlines data) w) as [[e ->]| ->]; [done|].
  cbn [snd disk]. rewrite lookup_delete_ne, lookup_insert_ne by congruence. done.
Qed.

Lemma rollback_frame repo_root bs w q :
  (∀ b bak, b ∈ bs → resolve_joined repo_root b = Some bak →
            q ≠ bak ∧ with_suffix bak "" ≠ Some q) →
  disk (for_each (restore_backup repo_root) bs () w).2 !! q = disk w !! q.
Proof.
  revert w. induction bs as [|b bs IH]; intros w Hq; [done|].
  rewrite for_each_cons.
  pose proof (restore_backup_frame repo_root b w q) as Hstep.
  destruct (restore_backup repo_root () b w) as [[[]|e] w1]; cbn [snd] in Hstep |- *.
  - rewrite IH by (intros b' bak Hb'; apply Hq; by right).
    apply Hstep. intros bak. apply Hq. by left.
  - apply Hstep. intros bak. apply Hq. by left.
Qed.

(** X8. Whatever the result it is given and whether it returns or
    raises, [rollback] leaves every path alone that is neither a listed
    backup nor the path [with_suffix("")] makes of one: no other file is
    written or removed. *)
Theorem rollback_confined (repo_root : path) (r : apply_result) (w : world) (q : path) :
  (∀ b bak, b ∈ backups r → resolve_joined repo_root b = Some bak →
            q ≠ bak ∧ with_suffix bak "" ≠ Some q) →
  disk (rollback repo_root r w).2 !! q = disk w !! q.
Proof. apply rollback_frame. Qed.

Lemma rollback_confined_witness :
  let w := (apply_changes Scenario.repo_root Scenario.cfg (Patch (Some [Scenario.fix_cart]))
              Scenario.start).2 in
  disk (rollback Scenario.repo_root
          (ApplyResult [Applied "App/Cart.swift" 1] [] 1 ["App/Cart.swift.apr.bak"]) w).2
    !! Scenario.in_repo ["App"; "Cart.swift"]
  = disk w !! Scenario.in_repo ["App"; "Cart.swift"].
Proof.
  intros w.
  apply (rollback_confined Scenario.repo_root
           (ApplyResult [Applied "App/Cart.swift" 1] [] 1 ["App/Cart.swift.apr.bak"]) w).
  intros b bak ->%list_elem_of_singleton Hres. vm_compute in Hres. injection Hres as <-.
  split; [discriminate|]. vm_compute. discriminate.
Defined.

(** ** Apply, then rollback *)

Lemma name_snoc dir base : name (dir ++ [base]) = base.
Proof. unfold name. by rewrite last_snoc. Qed.

(** Below a path at which something is found, every proper prefix is a
    directory. *)
Lemma stat_prefix_dir d q k n :
  stat d (q ++ k) = Found n → k ≠ [] → stat d q = Found Dir.
Proof.
  revert n. induction k as [|c k IH] using rev_ind; intros n Hstat Hk; [done|].
  rewrite app_assoc in Hstat. apply stat_found in Hstat as [_ Hdir]; [|by destruct (q ++ k)].
  rewrite removelast_last in Hdir. destruct k as [|c' k]; [by rewrite app_nil_r in Hdir|].
  by eapply IH.
Qed.

Lemma stat_short_enough d p n : stat d p = Found n → short_enough p.
Proof.
  revert n. induction p as [|c dir IH] using rev_ind; intros n Hstat.
  { split; [cbn; unfold PATH_MAX; lia|constructor]. }
  rewrite stat_snoc in Hstat.
  destruct (Nat.leb_spec PATH_MAX (path_length (dir ++ [c]))) as [|Hlen]; [done|].
  destruct (stat d dir) as [[data|]| | |] eqn:Hdir; try done.
  destruct (Nat.ltb_spec NAME_MAX (Text.encoded_length c)) as [|Hname]; [done|].
  destruct (IH Dir eq_refl) as [_ Hnames].
  split; [done|]. apply Forall_app. split; [done|]. constructor; [done|constructor].
Qed.

Lemma short_enough_stat d p : short_enough p → stat d p ≠ ENAMETOOLONG.
Proof.
  induction p as [|c dir IH] using rev_ind; intros [Hlen Hnames]; [done|].
  apply Forall_app in Hnames as [Hdir Hc]. apply Forall_cons in Hc as [Hc _].
  pose proof (path_length_snoc dir c). rewrite stat_snoc.
  rewrite (proj2 (Nat.leb_gt _ _)) by done.
  assert (stat d dir ≠ ENAMETOOLONG) as Hnot by (apply IH; split; [lia|done]).
  destruct (stat d dir) as [[data|]| | |]; try done.
  rewrite (proj2 (Nat.ltb_ge _ _)) by done. by destruct (d !! (dir ++ [c])).
Qed.

(** A file that is found stays a file that is found when a file is
    written where a file was or where nothing was in a directory. *)
Lemma stat_insert_keeps d q text p x :
  stat d q = ENOENT ∧ stat d (removelast q) = Found Dir ∨ (∃ y, stat d q = Found (File y)) →
  stat d p = Found (File x) →
  ∃ x', stat (<[q := File text]> d) p = Found (File x').
Proof.
  intros Hq Hp. destruct (decide (q = p)) as [->|Hne].
  { exists text. by eapply stat_insert_here. }
  destruct (decide (q `prefix_of` p)) as [[k ->]|Hpre].
  - assert (k ≠ []) as Hk by (intros ->; by rewrite app_nil_r in Hne).
    pose proof (stat_prefix_dir _ _ _ _ Hp Hk) as Hdir.
    destruct Hq as [[Hq _]|[y Hq]]; congruence.
  - exists x. by rewrite stat_insert_other.
Qed.

(** The backups made by the loop in a resolved root: each sits next to
    its target under the target's name with [.apr.bak] appended, is a
    resolved path, and is a file that is found on the disk. *)
Lemma backup_component base : component base → component (base +:+ backup_suffix).
Proof.
  intros (Hne & _ & _ & Hslash & Hnul).
  assert (8 ≤ String.length (base +:+ backup_suffix)) as Hlen
    by (rewrite string_app_length; cbn; lia).
  repeat split; try (intros Heq; rewrite Heq in Hlen; cbn in Hlen; lia);
    rewrite chars_app, elem_of_app; (intros [?|Hin]; [done|]);
    vm_compute in Hin;
    by repeat (apply elem_of_cons in Hin as [?|Hin]; [done|]); apply elem_of_nil in Hin.
Qed.

Lemma backups_on_disk repo_root cfg changes w st w' :
  resolved repo_root →
  for_each (apply_change repo_root cfg) changes Locals.init w = (Return st, w') →
  Forall (λ bak, (∃ dir base, bak = dir ++ [base +:+ backup_suffix])
                 ∧ resolved bak ∧ ∃ data, stat (disk w') bak = Found (File data))
    (Locals.backups st).
Proof.
  intros Hroot. revert st w'.
  apply (for_each_ind _ (λ _ st w',
    Forall (λ bak, (∃ dir base, bak = dir ++ [base +:+ backup_suffix])
                   ∧ resolved bak ∧ ∃ data, stat (disk w') bak = Found (File data))
      (Locals.backups st))).
  { constructor. }
  intros seen c st1 w1 st2 w2 Hall Hstep.
  round_cases Hstep; try done.
  match goal with H : with_suffix _ _ = Some _ |- _ =>
    pose proof H as Hsfx; apply with_suffix_backup in H as (dir & base & Htarget & Hbak) end.
  match goal with H : stat (disk w1) target = Found _ |- _ => rename H into Hstat end.
  match goal with H : stat (disk w1) bak = ENOENT ∨ _ |- _ => rename H into Hfree end.
  assert (stat (disk w1) bak = ENOENT ∧ stat (disk w1) (removelast bak) = Found Dir
          ∨ (∃ y, stat (disk w1) bak = Found (File y))) as Hfree'.
  { destruct Hfree as [Hfree|Hfree]; [left|by right]. split; [done|].
    apply stat_found in Hstat as [_ Hdir]; [|by rewrite Htarget; destruct dir].
    by rewrite Hbak, removelast_last, <- (removelast_last dir base), <- Htarget. }
  assert (∀ p x, stat (disk w1) p = Found (File x) →
            ∃ x', stat (<[target := File (default "" (change_content c))]>
                          (<[bak := File (Text.universal_newlines data)]> (disk w1))) p
                  = Found (File x')) as Hkeep.
  { intros p x Hp.
    destruct (stat_insert_keeps _ bak (Text.universal_newlines data) _ _ Hfree' Hp) as [x1 Hp1].
    destruct (stat_insert_keeps _ bak (Text.universal_newlines data) _ _ Hfree' Hstat)
      as [x2 Ht1].
    eapply stat_insert_keeps; [right; eauto|done]. }
  cbn [disk Locals.backups]. apply Forall_app. split.
  - eapply Forall_impl; [exact Hall|]. intros b (Hshape & Hres & x & Hfile).
    repeat split; [done..|]. by eapply Hkeep.
  - constructor; [|constructor]. split; [by exists dir, base|]. split.
    + match goal with H : resolve_joined _ _ = Some _ |- _ =>
        pose proof (resolve_joined_resolved _ _ _ Hroot H) as Hres end.
      rewrite Htarget in Hres. apply Forall_app in Hres as [Hdir Hbase]. rewrite Hbak.
      apply Forall_app. split; [done|]. constructor; [|constructor].
      apply backup_component. by inversion Hbase.
    + destruct (stat_insert_keeps _ bak (Text.universal_newlines data) _ _ Hfree' Hstat)
        as [x2 Ht1].
      eapply stat_insert_keeps; [right; eauto|].
      by eapply stat_insert_here.
Qed.

(** The entries of [backups] in the result resolve back to those files. *)
Lemma backups_resolve repo_root cfg p w r w' :
  resolved repo_root →
  apply_changes repo_root cfg p w = (Return r, w') →
  Forall (λ b, ∃ dir base data,
            resolve_joined repo_root b = Some (dir ++ [base +:+ backup_suffix])
            ∧ stat (disk w') (dir ++ [base +:+ backup_suffix]) = Found (File data))
    (backups r).
Proof.
  intros Hroot Hrun.
  destruct (apply_changes_Return _ _ _ _ _ _ Hrun) as (st & Hloop & Hbs & _).
  apply backups_on_disk in Hloop; [|done]. apply relative_backups_each in Hbs.
  revert Hloop. induction Hbs as [|bak b baks bs Hb _ IH]; intros Hloop; [constructor|].
  apply Forall_cons in Hloop as [((dir & base & Hshape) & Hres & data & Hfile) Hloop].
  constructor; [|by apply IH].
  destruct (relative_to bak repo_root) as [parts|] eqn:Hparts; [|done].
  injection Hb as <-. apply relative_to_Some in Hparts.
  exists dir, base, data. rewrite <- Hshape. split; [|done].
  rewrite Hparts in Hres |- *. apply Forall_app in Hres as [_ Hres].
  by apply resolve_as_posix.
Qed.

(** X9. In a resolved root, every entry of [backups] in a result of
    [apply_changes] resolves to a regular file that is found on the disk
    the run leaves: [rollback] with that result finds each backup it
    looks for. *)
Theorem listed_backups_are_files (repo_root : path) (cfg : config) (p : patch)
    (w w1 : world) (r : apply_result) (b : string) :
  resolved repo_root →
  apply_changes repo_root cfg p w = (Return r, w1) →
  b ∈ backups r →
  ∃ bak data, resolve_joined repo_root b = Some bak ∧ stat (disk w1) bak = Found (File data).
Proof.
  intros Hroot Hrun Hb. pose proof (backups_resolve _ _ _ _ _ _ Hroot Hrun) as Hbs.
  rewrite Forall_forall in Hbs. destruct (Hbs b Hb) as (dir & base & data & Hres & Hfile).
  eauto.
Qed.

Lemma listed_backups_witness :
  ∃ bak data,
    resolve_joined Scenario.repo_root "App/Cart.swift.apr.bak" = Some bak
    ∧ stat (disk (apply_changes Scenario.repo_root Scenario.cfg
                    (Patch (Some [Scenario.fix_cart])) Scenario.start).2) bak
      = Found (File data).
Proof.
  apply (listed_backups_are_files Scenario.repo_root Scenario.cfg
           (Patch (Some [Scenario.fix_cart])) Scenario.start _
           (ApplyResult [Applied "App/Cart.swift" 1] [] 1 ["App/Cart.swift.apr.bak"])).
  - exact resolved_scenario_root.
  - apply io_returns. vm_compute. reflexivity.
  - apply list_elem_of_here.
Defined.

Lemma app_last_char s t c u d :
  c ≠ d → s +:+ t +:+ String c "" ≠ u +:+ String d "".
Proof.
  intros Hcd Heq. apply (f_equal (λ x, rev (Text.chars x))) in Heq. cbn beta in Heq.
  rewrite !chars_app, !rev_app_distr in Heq. cbn in Heq. congruence.
Qed.

Lemma backup_name_not_apr base base' : base +:+ ".apr.bak" ≠ base' +:+ ".apr".
Proof.
  change ".apr.bak" with (".apr.ba" +:+ "k"). change ".apr" with (".ap" +:+ "r").
  rewrite <- (string_app_assoc base' ".ap" "r"). apply app_last_char. done.
Qed.

(** X10. In a resolved root, [rollback] with the result of an
    [apply_changes] that returned does not fail, and it changes files
    named [*.apr] and [*.apr.bak] only: a patched file of any other name
    still holds the patched text after the rollback. *)
Theorem rollback_keeps_patched_files (repo_root : path) (cfg : config) (p : patch)
    (w w1 : world) (r : apply_result) :
  resolved repo_root →
  apply_changes repo_root cfg p w = (Return r, w1) →
  (rollback repo_root r w1).1 = Return ()
  ∧ ∀ q, (∀ base, name q ≠ base +:+ ".apr" ∧ name q ≠ base +:+ ".apr.bak") →
         disk (rollback repo_root r w1).2 !! q = disk w1 !! q.
Proof.
  intros Hroot Hrun. pose proof (backups_resolve _ _ _ _ _ _ Hroot Hrun) as Hbs.
  rewrite Forall_forall in Hbs. split.
  - unfold rollback.
    destruct (for_each (restore_backup repo_root) (backups r) () w1) as [[[]|e] w2] eqn:Hrb;
      [done|].
    apply rollback_raises in Hrb as (b & Hb & Hwhy).
    destruct (Hbs b Hb) as (dir & base & data & Hres & Hfile). rewrite Hres in Hwhy.
    destruct Hwhy as [[_ ?]|(bak & [= <-] & [[_ Hlong]|(_ & Hname & _)])]; [done| |].
    + by apply short_enough_stat in Hlong; [|eapply stat_short_enough].
    + rewrite name_snoc in Hname. apply (f_equal String.length) in Hname.
      rewrite string_app_length in Hname. cbn in Hname. lia.
  - intros q Hq. apply rollback_frame. intros b bak Hb Hres.
    destruct (Hbs b Hb) as (dir & base & data & Hres' & _).
    rewrite Hres in Hres'. injection Hres' as ->.
    unfold backup_suffix. destruct (Hq base) as [Hapr Hbak]. split.
    + intros ->. by rewrite name_snoc in Hbak.
    + rewrite (with_suffix_strips_bak_only dir base). intros [= <-].
      by rewrite name_snoc in Hapr.
Qed.

Lemma not_apr_name s c base sfx d :
  c ≠ d → s +:+ String c "" ≠ base +:+ sfx +:+ String d "".
Proof.
  intros Hcd Heq. apply (f_equal (λ x, rev (Text.chars x))) in Heq. cbn beta in Heq.
  rewrite !chars_app, !rev_app_distr in Heq. cbn in Heq. congruence.
Qed.

Lemma rollback_keeps_witness :
  let w1 := (apply_changes Scenario.repo_root Scenario.cfg (Patch (Some [Scenario.fix_cart]))
               Scenario.start).2 in
  let r := ApplyResult [Applied "App/Cart.swift" 1] [] 1 ["App/Cart.swift.apr.bak"] in
  (rollback Scenario.repo_root r w1).1 = Return ()
  ∧ disk (rollback Scenario.repo_root r w1).2 !! Scenario.in_repo ["App"; "Cart.swift"]
    = disk w1 !! Scenario.in_repo ["App"; "Cart.swift"].
Proof.
  intros w1 r.
  destruct (rollback_keeps_patched_files Scenario.repo_root Scenario.cfg
              (Patch (Some [Scenario.fix_cart])) Scenario.start w1 r) as [Hret Hkeep].
  - exact resolved_scenario_root.
  - apply io_returns. vm_compute. reflexivity.
  - split; [exact Hret|]. apply Hkeep. intros base.
    change (name (Scenario.in_repo ["App"; "Cart.swift"])) with ("Cart.swif" +:+ "t").
    split.
    + change ".apr" with (".ap" +:+ "r"). by apply not_apr_name.
    + change ".apr.bak" with (".apr.ba" +:+ "k"). by apply not_apr_name.
Defined.

(** ** Rollback consumes the backups *)

Lemma encoded_length_app s1 s2 :
  Text.encoded_length (s1 +:+ s2) = Text.encoded_length s1 + Text.encoded_length s2.
Proof. unfold Text.encoded_length. by rewrite chars_app, sum_list_with_app. Qed.

Lemma path_length_snoc_eq dir c :
  path_length (dir ++ [c])
  = sum_list_with (λ c, 1 + Text.encoded_length c) dir + (1 + Text.encoded_length c).
Proof.
  unfold path_length. rewrite sum_list_with_app. cbn [sum_list_with].
  destruct dir; cbn [app]; lia.
Qed.

(** The name without [.bak] is short enough when the backup's name is. *)
Lemma short_enough_orig dir base :
  short_enough (dir ++ [base +:+ ".apr.bak"]) → short_enough (dir ++ [base +:+ ".apr"]).
Proof.
  intros [Hlen Hnames]. rewrite path_length_snoc_eq, encoded_length_app in Hlen.
  apply Forall_app in Hnames as [Hdir Hc]. apply Forall_cons in Hc as [Hc _].
  rewrite encoded_length_app in Hc. change (Text.encoded_length ".apr.bak") with 8 in Hlen, Hc.
  split.
  - rewrite path_length_snoc_eq, encoded_length_app.
    change (Text.encoded_length ".apr") with 4. lia.
  - apply Forall_app. split; [done|]. constructor; [|constructor].
    rewrite encoded_length_app. change (Text.encoded_length ".apr") with 4. lia.
Qed.

(** In a directory that is found, a short enough name is found or is
    missing. *)
Lemma stat_in_dir d dir c :
  stat d dir = Found Dir → short_enough (dir ++ [c]) →
  stat d (dir ++ [c]) = match d !! (dir ++ [c]) with Some n => Found n | None => ENOENT end.
Proof.
  intros Hdir [Hlen Hnames]. apply Forall_app in Hnames as [_ Hc].
  apply Forall_cons in Hc as [Hc _]. rewrite stat_snoc, Hdir.
  rewrite (proj2 (Nat.leb_gt _ _)) by done. by rewrite (proj2 (Nat.ltb_ge _ _)) by done.
Qed.

(** A path at which no directory is found is not on the way to a
    directory that is found. *)
Lemma not_dir_not_prefix d q p :
  stat d q ≠ Found Dir → stat d p = Found Dir → ¬ q `prefix_of` p.
Proof.
  intros Hq Hp [k ->]. destruct k as [|c k].
  - by rewrite app_nil_r in Hp.
  - by apply stat_prefix_dir in Hp.
Qed.

Lemma found_dir_lookup (o : option node) :
  match o with Some n => Found n | None => ENOENT end ≠ Found Dir ↔ o ≠ Some Dir.
Proof. destruct o as [[x|]|]; split; congruence. Qed.

Lemma snoc_ne (dir dir' : path) x y : x ≠ y → dir ++ [x] ≠ dir' ++ [y].
Proof. intros Hne Heq. apply app_inj_tail in Heq as [_ ?]. done. Qed.

(** The slots are kept, and stay empty if they were, when a backup that
    is a file is written to the place of its restore and removed. *)
Lemma slot_preserved (d : gmap path node) dir base data text p :
  stat d (dir ++ [base +:+ ".apr.bak"]) = Found (File data) →
  stat d (dir ++ [base +:+ ".apr"]) ≠ Found Dir →
  backup_slot d p →
  backup_slot (delete (dir ++ [base +:+ ".apr.bak"])
                 (<[dir ++ [base +:+ ".apr"] := File text]> d)) p
  ∧ (d !! p = None →
     delete (dir ++ [base +:+ ".apr.bak"]) (<[dir ++ [base +:+ ".apr"] := File text]> d) !! p
     = None).
Proof.
  intros Hbak Horig (dir' & base' & -> & Hshort & Hdir' & Hnd & Horig').
  assert (stat (delete (dir ++ [base +:+ ".apr.bak"])
                  (<[dir ++ [base +:+ ".apr"] := File text]> d)) dir' = Found Dir) as Hdir1.
  { rewrite stat_delete_other, stat_insert_other; [done| |].
    - by apply (not_dir_not_prefix d).
    - apply (not_dir_not_prefix d); [by rewrite Hbak|done]. }
  assert (∀ q, d !! q ≠ Some Dir →
            delete (dir ++ [base +:+ ".apr.bak"])
              (<[dir ++ [base +:+ ".apr"] := File text]> d) !! q ≠ Some Dir) as Hlook.
  { intros q Hq. destruct (decide (q = dir ++ [base +:+ ".apr.bak"])) as [->|Hne1];
      [by rewrite lookup_delete_eq|]. rewrite lookup_delete_ne by done.
    destruct (decide (q = dir ++ [base +:+ ".apr"])) as [->|Hne2];
      [by rewrite lookup_insert_eq|]. by rewrite lookup_insert_ne. }
  split.
  - exists dir', base'. split; [done|]. split; [done|]. split; [done|].
    split; [by apply Hlook|].
    pose proof (short_enough_orig _ _ Hshort) as Hshort'.
    rewrite (stat_in_dir _ _ _ Hdir' Hshort') in Horig'.
    rewrite (stat_in_dir _ _ _ Hdir1 Hshort').
    by apply found_dir_lookup, Hlook, found_dir_lookup.
  - intros Hnone.
    destruct (decide (dir' ++ [base' +:+ ".apr.bak"] = dir ++ [base +:+ ".apr.bak"]))
      as [->|Hne]; [by rewrite lookup_delete_eq|].
    rewrite lookup_delete_ne, lookup_insert_ne; [done| |done].
    apply snoc_ne. intros Heq. by apply (backup_name_not_apr base' base).
Qed.

(** One round of [rollback] on a slot. *)
Lemma restore_backup_slot repo_root b w bak :
  resolve_joined repo_root b = Some bak →
  backup_slot (disk w) bak →
  ∃ w1, restore_backup repo_root () b w = (Return (), w1)
        ∧ disk w1 !! bak = None
        ∧ ∀ p, backup_slot (disk w) p →
               backup_slot (disk w1) p ∧ (disk w !! p = None → disk w1 !! p = None).
Proof.
  intros Hres Hslot. pose proof Hslot as (dir & base & -> & Hshort & Hdir & Hnd & Horig).
  pose proof (restore_backup_cases repo_root b w) as Hcases. rewrite Hres in Hcases.
  pose proof (stat_in_dir _ _ _ Hdir Hshort) as Hbak.
  destruct (disk w !! (dir ++ [base +:+ ".apr.bak"])) as [[data|]|] eqn:Hlook; [|done|].
  - rewrite Hbak, with_suffix_strips_bak_only in Hcases.
    pose proof (stat_in_dir _ _ _ Hdir (short_enough_orig _ _ Hshort)) as Hstat.
    assert (write_text (dir ++ [base +:+ ".apr"]) (Text.universal_newlines data) w
            = (Return (), World (<[dir ++ [base +:+ ".apr"]
                                    := File (Text.universal_newlines data)]> (disk w))
                            (journal w ++ [Write (dir ++ [base +:+ ".apr"])
                                             (Text.universal_newlines data)]))) as Hwrite.
    { unfold write_text.
      destruct (stat (disk w) (dir ++ [base +:+ ".apr"])) as [[x|]| | |] eqn:Ho; try done.
      - by rewrite removelast_last, Hdir.
      - by destruct (disk w !! (dir ++ [base +:+ ".apr"])).
      - by destruct (disk w !! (dir ++ [base +:+ ".apr"])). }
    rewrite Hwrite in Hcases. cbn [disk journal] in Hcases.
    eexists. split; [exact Hcases|]. cbn [disk]. split; [by rewrite lookup_delete_eq|].
    intros p Hp. by eapply slot_preserved.
  - rewrite Hbak in Hcases. exists w. split; [done|]. split; [exact Hlook|]. by intros p Hp.
Qed.

(** What is missing from a slot is absent. *)
Lemma empty_slot_absent d p : backup_slot d p → d !! p = None → absent d p.
Proof.
  intros (dir & base & -> & Hshort & Hdir & _) Hnone. left.
  rewrite (stat_in_dir _ _ _ Hdir Hshort).
  by rewrite (Hnone : d !! (dir ++ [base +:+ ".apr.bak"]) = None).
Qed.

Lemma rollback_clears repo_root bs w (gone : list path) :
  (∀ b, b ∈ bs → ∃ bak, resolve_joined repo_root b = Some bak ∧ backup_slot (disk w) bak) →
  (∀ p, p ∈ gone → backup_slot (disk w) p ∧ disk w !! p = None) →
  (for_each (restore_backup repo_root) bs () w).1 = Return ()
  ∧ (∀ b, b ∈ bs →
       ∃ bak, resolve_joined repo_root b = Some bak
              ∧ absent (disk (for_each (restore_backup repo_root) bs () w).2) bak)
  ∧ (∀ p, p ∈ gone → absent (disk (for_each (restore_backup repo_root) bs () w).2) p).
Proof.
  revert w gone. induction bs as [|b bs IH]; intros w gone Hbs Hgone.
  { split; [done|]. split; [by intros b ?%elem_of_nil|].
    intros p Hp. destruct (Hgone p Hp). by apply empty_slot_absent. }
  rewrite for_each_cons.
  destruct (Hbs b) as (bak & Hres & Hslot); [by left|].
  destruct (restore_backup_slot repo_root b w bak Hres Hslot) as (w1 & -> & Hnone & Hkeep).
  destruct (IH w1 (bak :: gone)) as (Hret & Hrest & Hgone1).
  { intros b' Hb'. destruct (Hbs b') as (bak' & Hres' & Hslot'); [by right|].
    exists bak'. split; [done|]. by apply Hkeep. }
  { intros p [->|Hp]%elem_of_cons.
    - split; [by apply Hkeep|done].
    - destruct (Hgone p Hp) as [Hslot' Hnone']. destruct (Hkeep p Hslot'). eauto. }
  split; [done|]. split.
  - intros b' [->|Hb']%elem_of_cons; [|by apply Hrest].
    exists bak. split; [done|]. apply Hgone1. by left.
  - intros p Hp. apply Hgone1. by right.
Qed.

(** The backups of a returned result are slots, given that no directory
    stands where they are restored to. *)
Lemma backups_are_slots repo_root cfg p w w1 r :
  resolved repo_root →
  apply_changes repo_root cfg p w = (Return r, w1) →
  (∀ b bak orig, b ∈ backups r → resolve_joined repo_root b = Some bak →
                 with_suffix bak "" = Some orig → stat (disk w1) orig ≠ Found Dir) →
  ∀ b, b ∈ backups r →
       ∃ bak, resolve_joined repo_root b = Some bak ∧ backup_slot (disk w1) bak.
Proof.
  intros Hroot Hrun Hnodir b Hb.
  pose proof (backups_resolve _ _ _ _ _ _ Hroot Hrun) as Hbs. rewrite Forall_forall in Hbs.
  destruct (Hbs b Hb) as (dir & base & data & Hres & Hfile).
  exists (dir ++ [base +:+ backup_suffix]). split; [done|].
  exists dir, base. split; [done|]. split; [by eapply stat_short_enough|].
  pose proof Hfile as Hfile'.
  apply stat_found in Hfile as [Hlook Hdir]; [|by destruct dir].
  rewrite removelast_last in Hdir. split; [done|]. split.
  - intros Heq. discriminate (eq_trans (eq_sym Hlook) Heq).
  - apply (Hnodir b _ _ Hb Hres). apply with_suffix_strips_bak_only.
Qed.

(** X11. In a resolved root, [rollback] with the result of an
    [apply_changes] that returned consumes every backup of the result,
    given that no directory stands where a backup is restored to: after
    it, nothing is found at any entry of [backups], which is when a second
    [rollback] does nothing. *)
Theorem rollback_consumes_backups (repo_root : path) (cfg : config) (p : patch)
    (w w1 : world) (r : apply_result) :
  resolved repo_root →
  apply_changes repo_root cfg p w = (Return r, w1) →
  (∀ b bak orig, b ∈ backups r → resolve_joined repo_root b = Some bak →
                 with_suffix bak "" = Some orig → stat (disk w1) orig ≠ Found Dir) →
  ∀ b, b ∈ backups r →
       ∃ bak, resolve_joined repo_root b = Some bak
              ∧ absent (disk (rollback repo_root r w1).2) bak.
Proof.
  intros Hroot Hrun Hnodir.
  apply (rollback_clears repo_root (backups r) w1 []); [|by intros ? ?%elem_of_nil].
  by eapply backups_are_slots.
Qed.

Lemma rollback_consumes_witness :
  let w1 := (apply_changes Scenario.repo_root Scenario.cfg (Patch (Some [Scenario.fix_cart]))
               Scenario.start).2 in
  let r := ApplyResult [Applied "App/Cart.swift" 1] [] 1 ["App/Cart.swift.apr.bak"] in
  ∃ bak, resolve_joined Scenario.repo_root "App/Cart.swift.apr.bak" = Some bak
         ∧ absent (disk (rollback Scenario.repo_root r w1).2) bak.
Proof.
  intros w1 r.
  apply (rollback_consumes_backups Scenario.repo_root Scenario.cfg
           (Patch (Some [Scenario.fix_cart])) Scenario.start w1 r).
  - exact resolved_scenario_root.
  - apply io_returns. vm_compute. reflexivity.
  - intros b bak orig ->%list_elem_of_singleton Hres Horig.
    vm_compute in Hres. injection Hres as <-.
    vm_compute in Horig. injection Horig as <-. vm_compute. discriminate.
  - apply list_elem_of_here.
Defined.

Lemma rollback_absent_noop repo_root bs w :
  (∀ b, b ∈ bs → ∃ bak, resolve_joined repo_root b = Some bak ∧ absent (disk w) bak) →
  for_each (restore_backup repo_root) bs () w = (Return (), w).
Proof.
  induction bs as [|b bs IH]; intros Hgone; [done|].
  destruct (Hgone b) as (bak & Hres & Habsent); [by left|].
  rewrite for_each_cons, (restore_backup_absent _ _ _ bak) by done.
  apply IH. intros b' Hb'. apply Hgone. by right.
Qed.

(** X18. In a resolved root and with no directory where a backup is
    restored to, a second [rollback] with the result of an
    [apply_changes] changes nothing: it returns and leaves the disk and
    the journal as the first [rollback] left them. *)
Theorem rollback_twice_is_rollback_once (repo_root : path) (cfg : config) (p : patch)
    (w w1 : world) (r : apply_result) :
  resolved repo_root →
  apply_changes repo_root cfg p w = (Return r, w1) →
  (∀ b bak orig, b ∈ backups r → resolve_joined repo_root b = Some bak →
                 with_suffix bak "" = Some orig → stat (disk w1) orig ≠ Found Dir) →
  rollback repo_root r (rollback repo_root r w1).2
  = (Return (), (rollback repo_root r w1).2).
Proof.
  intros Hroot Hrun Hnodir. apply rollback_absent_noop.
  apply (rollback_clears repo_root (backups r) w1 []); [|by intros ? ?%elem_of_nil].
  by eapply backups_are_slots.
Qed.

Lemma rollback_twice_witness :
  let w1 := (apply_changes Scenario.repo_root Scenario.cfg (Patch (Some [Scenario.fix_cart]))
               Scenario.start).2 in
  let r := ApplyResult [Applied "App/Cart.swift" 1] [] 1 ["App/Cart.swift.apr.bak"] in
  rollback Scenario.repo_root r (rollback Scenario.repo_root r w1).2
  = (Return (), (rollback Scenario.repo_root r w1).2).
Proof.
  intros w1 r.
  apply (rollback_twice_is_rollback_once Scenario.repo_root Scenario.cfg
           (Patch (Some [Scenario.fix_cart])) Scenario.start w1 r).
  - exact resolved_scenario_root.
  - apply io_returns. vm_compute. reflexivity.
  - intros b bak orig ->%list_elem_of_singleton Hres Horig.
    vm_compute in Hres. injection Hres as <-.
    vm_compute in Horig. injection Horig as <-. vm_compute. discriminate.
Defined.

(** ** The diff sizer against an empty text *)

Lemma get_matching_blocks_empty {A} `{Countable A} (isjunk : A → bool) (a b : list A) :
  a = [] ∨ b = [] →
  Difflib.get_matching_blocks isjunk a b = [(length a, length b, 0)].
Proof.
  intros Hempty. unfold Difflib.get_matching_blocks.
  replace (length a + length b + 1) with (S (length a + length b)) by lia.
  cbn [Difflib.matching_loop].
  pose proof (find_longest_match_inside isjunk a b (Difflib.chain_b isjunk b)
                0 (length a) 0 (length b) ltac:(lia) ltac:(lia)) as Hin.
  destruct (Difflib.find_longest_match isjunk a b (Difflib.chain_b isjunk b)
              0 (length a) 0 (length b)) as [[i j] k].
  destruct Hin as (_ & _ & Hi & Hj). cbn in Hi, Hj.
  assert (k = 0) as -> by (destruct Hempty as [-> | ->]; cbn in Hi, Hj; lia).
  cbn [Nat.eqb]. by destruct (length a + length b).
Qed.

Lemma dump_counted tag (x : list string) :
  added_or_removed (tag +:+ " ") = true →
  length (filter (λ d, added_or_removed d = true) (Differ.dump tag x 0 (length x)))
  = length x.
Proof.
  intros Htag. unfold Differ.dump. rewrite Nat.sub_0_r, drop_0, firstn_all.
  induction x as [|l x IH]; [done|].
  rewrite fmap_cons, filter_cons_True; [cbn; by rewrite IH|].
  destruct tag as [|c tag]; [done|]. exact Htag.
Qed.

(** X12. Against an empty text every line counts: emptying a file costs
    the number of its lines, and so does filling an empty file. *)
Theorem count_change_lines_empty (s : string) :
  count_change_lines s "" = length (Text.splitlines s)
  ∧ count_change_lines "" s = length (Text.splitlines s).
Proof.
  unfold count_change_lines, Differ.ndiff, Differ.compare, Difflib.get_opcodes.
  change (Text.splitlines "") with (@nil string).
  split.
  - rewrite get_matching_blocks_empty by (by right).
    destruct (Text.splitlines s) as [|l ls]; [reflexivity|].
    cbn -[Differ.dump filter]. rewrite app_nil_r.
    exact (dump_counted "-" (l :: ls) eq_refl).
  - rewrite get_matching_blocks_empty by (by left).
    destruct (Text.splitlines s) as [|l ls]; [reflexivity|].
    cbn -[Differ.dump filter]. rewrite app_nil_r.
    exact (dump_counted "+" (l :: ls) eq_refl).
Qed.

(** ** Patterns without wildcards, and a wildcard at the end *)

Lemma translate_chars_literal fuel l rest :
  Forall (λ c, c ≠ "*"%char ∧ c ≠ "?"%char ∧ c ≠ "["%char) l →
  length l + length rest ≤ fuel →
  Fnmatch.translate_chars fuel (l ++ rest)
  = (Fnmatch.Lit <$> l) ++ Fnmatch.translate_chars (fuel - length l) rest.
Proof.
  intros Hl. revert fuel. induction Hl as [|c l (H1 & H2 & H3) _ IH]; intros fuel Hfuel.
  - cbn. by rewrite Nat.sub_0_r.
  - destruct fuel as [|fuel]; [cbn in Hfuel; lia|].
    cbn [app Fnmatch.translate_chars length fmap list_fmap Nat.sub].
    rewrite !bool_decide_eq_false_2 by done. rewrite IH by (cbn in Hfuel; lia). done.
Qed.

Lemma matches_literal l s :
  Fnmatch.matches (Fnmatch.Lit <$> l) s = bool_decide (s = l).
Proof.
  revert s. induction l as [|c l IH]; intros s.
  - by destruct s.
  - destruct s as [|d s]; [done|]. cbn [fmap list_fmap Fnmatch.matches Fnmatch.item_matches].
    rewrite IH. by repeat case_bool_decide; simplify_eq.
Qed.

Lemma matches_star s : Fnmatch.matches [Fnmatch.Star] s = true.
Proof. induction s as [|c s IH]; [done|]. cbn. cbn in IH. by rewrite IH. Qed.

Lemma matches_literal_star l s :
  Fnmatch.matches ((Fnmatch.Lit <$> l) ++ [Fnmatch.Star]) s = bool_decide (l `prefix_of` s).
Proof.
  revert s. induction l as [|c l IH]; intros s.
  - cbn [fmap list_fmap app]. rewrite matches_star. symmetry.
    apply bool_decide_eq_true_2, prefix_nil.
  - destruct s as [|d s]; cbn [fmap list_fmap app Fnmatch.matches Fnmatch.item_matches].
    + symmetry. apply bool_decide_eq_false_2. intros [k Hk]. done.
    + rewrite IH, <- bool_decide_and. apply bool_decide_ext. split.
      * intros [-> Hp]. by apply prefix_cons.
      * intros Hp. split; [symmetry; by eapply prefix_cons_inv_1|by eapply prefix_cons_inv_2].
Qed.

Lemma fnmatch_literal name pat :
  literal pat → Fnmatch.fnmatch name pat = bool_decide (name = pat).
Proof.
  intros Hlit. unfold Fnmatch.fnmatch, Fnmatch.translate.
  rewrite <- (app_nil_r (Text.chars pat)) at 2.
  rewrite translate_chars_literal by (cbn; lia || done).
  rewrite Nat.sub_diag. cbn [Fnmatch.translate_chars]. rewrite app_nil_r, matches_literal.
  apply bool_decide_ext. split; [apply chars_inj|by intros ->].
Qed.

Lemma fnmatch_trailing_star name lit :
  literal lit →
  Fnmatch.fnmatch name (lit +:+ "*") = true ↔ ∃ rest, name = lit +:+ rest.
Proof.
  intros Hlit. unfold Fnmatch.fnmatch, Fnmatch.translate.
  rewrite chars_app, translate_chars_literal by (rewrite ?length_app; cbn; lia || done).
  replace (length (Text.chars lit ++ Text.chars "*") - length (Text.chars lit)) with 1
    by (rewrite length_app; cbn; lia).
  change (Fnmatch.translate_chars 1 (Text.chars "*")) with [Fnmatch.Star].
  rewrite matches_literal_star, bool_decide_eq_true. split.
  - intros [k Hk]. exists (Text.of_chars k). apply chars_inj.
    by rewrite chars_app, chars_of_chars.
  - intros [rest ->]. exists (Text.chars rest). apply chars_app.
Qed.

Lemma existsb_fnmatch_literal rel pats :
  Forall literal pats → existsb (Fnmatch.fnmatch rel) pats = bool_decide (rel ∈ pats).
Proof.
  induction 1 as [|pat pats Hpat _ IH]; cbn [existsb].
  - symmetry. apply bool_decide_eq_false_2, not_elem_of_nil.
  - rewrite IH, fnmatch_literal, <- bool_decide_or by done.
    apply bool_decide_ext. rewrite elem_of_cons. done.
Qed.

(** X13. With [excludes] and [file_scopes] that list files by their
    paths, without [*], [?] or [[], a path is in scope exactly when it is
    one of the [file_scopes] and none of the [excludes]. *)
Theorem listed_files_scope (rel : string) (cfg : config) (excl pats : list string) :
  excludes cfg = Some excl → file_scopes cfg = Some pats →
  Forall literal excl → Forall literal pats → pats ≠ [] →
  within_scope rel cfg = true ↔ (¬ rel ∈ excl) ∧ rel ∈ pats.
Proof.
  intros Hex Hsc Hlex Hlsc Hne. unfold within_scope. rewrite Hex, Hsc.
  cbn [default from_option id]. rewrite !existsb_fnmatch_literal by done.
  destruct pats as [|pat pats]; [done|].
  destruct (decide (rel ∈ excl)) as [Hin|Hout].
  - rewrite bool_decide_eq_true_2 by done. split; [done|]. by intros [? _].
  - rewrite bool_decide_eq_false_2 by done. rewrite bool_decide_eq_true. by split; [|intros [_ ?]].
Qed.

Lemma listed_files_witness :
  within_scope "App/Cart.swift"
    (Config (Some ["App/Keys.swift"]) (Some ["App/Cart.swift"; "App/Keys.swift"]) None) = true
  ↔ (¬ "App/Cart.swift" ∈ ["App/Keys.swift"])
    ∧ "App/Cart.swift" ∈ ["App/Cart.swift"; "App/Keys.swift"].
Proof.
  apply (listed_files_scope "App/Cart.swift" _ ["App/Keys.swift"]
           ["App/Cart.swift"; "App/Keys.swift"]); try reflexivity; try discriminate;
    repeat constructor; discriminate.
Defined.

(** X14. With one entry in [file_scopes], a literal text followed by
    [*], a path is in scope exactly when it starts with the text and
    matches no exclude pattern, whatever follows the text, slashes
    included: the pattern of a directory covers the whole tree below it. *)
Theorem directory_scope_covers_subtree (rel lit : string) (cfg : config) :
  literal lit →
  file_scopes cfg = Some [lit +:+ "*"] →
  within_scope rel cfg = true ↔
  (∀ ex, ex ∈ default [] (excludes cfg) → Fnmatch.fnmatch rel ex = false)
  ∧ ∃ rest, rel = lit +:+ rest.
Proof.
  intros Hlit Hsc. unfold within_scope. rewrite Hsc. cbn [existsb]. rewrite orb_false_r.
  rewrite <- (fnmatch_trailing_star rel lit Hlit).
  destruct (existsb (Fnmatch.fnmatch rel) (default [] (excludes cfg))) eqn:Hex.
  - split; [done|]. intros [Hnone _].
    apply existsb_exists in Hex as (ex & Hin & Hm).
    rewrite <- list_elem_of_In in Hin. by rewrite (Hnone ex Hin) in Hm.
  - split; [|by intros [_ ?]]. intros Hm. split; [|done]. intros ex Hin.
    destruct (Fnmatch.fnmatch rel ex) eqn:Hmex; [|done].
    apply not_true_iff_false in Hex. destruct Hex. apply existsb_exists.
    exists ex. by rewrite <- list_elem_of_In.
Qed.

Lemma directory_scope_witness :
  within_scope "App/Views/Cart/Row.swift"
    (Config (Some ["*Tests*"]) (Some ["App/" +:+ "*"]) None) = true
  ↔ (∀ ex, ex ∈ ["*Tests*"] → Fnmatch.fnmatch "App/Views/Cart/Row.swift" ex = false)
    ∧ ∃ rest, "App/Views/Cart/Row.swift" = "App/" +:+ rest.
Proof.
  apply (directory_scope_covers_subtree "App/Views/Cart/Row.swift" "App/"
           (Config (Some ["*Tests*"]) (Some ["App/" +:+ "*"]) None)); [|reflexivity].
  repeat constructor; discriminate.
Defined.

(** ** A change that is applied *)

Lemma rfind_from_spec c i0 last s j :
  Text.rfind_from c i0 last s = Some j →
  last = Some j ∨ (i0 ≤ j ∧ s !! (j - i0) = Some c).
Proof.
  revert i0 last. induction s as [|d s IH]; intros i0 last; cbn [Text.rfind_from].
  - by left.
  - intros [Hlast|[Hle Hlook]]%IH.
    + case_bool_decide as Hd; [|by left]. injection Hlast as <-. right.
      split; [done|]. rewrite Nat.sub_diag. by subst d.
    + right. split; [lia|]. by replace (j - i0) with (S (j - S i0)) by lia.
Qed.

(** The suffix of a name starts with a dot, if there is one. *)
Lemma suffix_starts_with_dot p :
  suffix p = "" ∨ ∃ rest, Text.chars (suffix p) = "."%char :: rest.
Proof.
  unfold suffix. destruct (Text.rfind "." (name p)) as [i|] eqn:Hfind; [|by left].
  destruct ((0 <? i) && (i <? String.length (name p) - 1)); [|by left]. right.
  apply rfind_from_spec in Hfind as [?|[_ Hlook]]; [done|]. rewrite Nat.sub_0_r in Hlook.
  unfold Text.substring_from. rewrite chars_of_chars.
  exists (drop (S i) (Text.chars (name p))). by apply drop_S.
Qed.

Lemma suffix_chars p c : c ∈ Text.chars (suffix p) → c ∈ Text.chars (name p).
Proof.
  unfold suffix. destruct (Text.rfind "." (name p)) as [i|]; [|by intros ?%elem_of_nil].
  destruct ((0 <? i) && (i <? String.length (name p) - 1)); [|by intros ?%elem_of_nil].
  unfold Text.substring_from. rewrite chars_of_chars. intros Hc.
  rewrite <- (take_drop i (Text.chars (name p))). apply elem_of_app. by right.
Qed.

(** The backup of a path with a name can be named. *)
Lemma with_suffix_backup_Some dir base :
  base ≠ "" → (¬ "/"%char ∈ Text.chars base) →
  with_suffix (dir ++ [base]) (suffix (dir ++ [base]) +:+ backup_suffix)
  = Some (dir ++ [base +:+ backup_suffix]).
Proof.
  intros Hne Hslash.
  assert (is_Some (with_suffix (dir ++ [base]) (suffix (dir ++ [base]) +:+ backup_suffix)))
    as [bak Hbak].
  { unfold with_suffix.
    assert (valid_suffix (suffix (dir ++ [base]) +:+ backup_suffix) = true) as ->.
    { unfold valid_suffix. apply andb_true_intro. split; [apply andb_true_intro; split|].
      - apply negb_true_iff, bool_decide_eq_false_2. rewrite chars_app, elem_of_app.
        intros [Hin%suffix_chars|Hin].
        + by rewrite name_snoc in Hin.
        + vm_compute in Hin.
          by repeat (apply elem_of_cons in Hin as [?|Hin]; [done|]); apply elem_of_nil in Hin.
      - apply orb_true_intro. right.
        destruct (suffix_starts_with_dot (dir ++ [base])) as [->|[rest Hrest]]; [done|].
        destruct (suffix (dir ++ [base])) as [|d sfx]; [done|].
        cbn in Hrest. injection Hrest as -> _. cbn. by apply bool_decide_eq_true_2.
      - apply negb_true_iff, bool_decide_eq_false_2. intros Heq.
        apply (f_equal String.length) in Heq. rewrite string_app_length in Heq.
        cbn in Heq. lia. }
    cbn [negb]. rewrite name_snoc. rewrite bool_decide_eq_false_2 by done. eauto. }
  rewrite Hbak. destruct (with_suffix_backup _ _ Hbak) as (dir' & base' & Heq & ->).
  by apply app_inj_tail in Heq as [-> ->].
Qed.



(** ** The errors of [apply_changes] *)

Lemma for_each_raises {A S} (body : S → A → io S) xs st w e w' :
  for_each body xs st w = (Raise e, w') →
  ∃ st1 x w1, x ∈ xs ∧ body st1 x w1 = (Raise e, w').
Proof.
  revert st w. induction xs as [|x xs IH]; intros st w; [done|].
  rewrite for_each_cons. destruct (body st x w) as [[st1|e1] w1] eqn:Hstep.
  - intros (st2 & y & w2 & Hy & Hraise)%IH. exists st2, y, w2. split; [by right|done].
  - intros [= <- <-]. exists st, x, w. split; [by left|done].
Qed.

Lemma relative_backups_raises repo_root bs w e w' :
  relative_backups repo_root bs w = (Raise e, w') → e = ValueError.
Proof.
  revert w'. induction bs as [|b bs IH]; intros w'; [done|].
  cbn [relative_backups]. rewrite bind_unfold.
  destruct (relative_to b repo_root) as [parts|]; cbn [or_raise]; [|by intros [= <- _]].
  unfold mret at 1, io_ret at 1. rewrite bind_unfold.
  destruct (relative_backups repo_root bs w) as [[rest|e1] w1] eqn:Hrest; [done|].
  intros [= <- <-]. by eapply IH.
Qed.



(** ** What is read from a file *)

Lemma universal_newlines_chars_no_CR l :
  ¬ Text.CR ∈ Text.universal_newlines_chars l.
Proof.
  assert (∀ n l, length l ≤ n → ¬ Text.CR ∈ Text.universal_newlines_chars l) as Hall.
  { clear l. induction n as [|n IH]; intros l Hlen.
    { destruct l; [apply not_elem_of_nil|cbn in Hlen; lia]. }
    destruct l as [|c l]; [apply not_elem_of_nil|]. cbn in Hlen.
    cbn [Text.universal_newlines_chars]. case_bool_decide as Hc.
    - destruct l as [|c' l].
      + intros [?|?%elem_of_nil]%elem_of_cons; done.
      + case_bool_decide.
        * intros [?|Hin]%elem_of_cons; [done|]. apply (IH l); [cbn in Hlen; lia|done].
        * intros [?|Hin]%elem_of_cons; [done|]. apply (IH (c' :: l)); [lia|done].
    - intros [?|Hin]%elem_of_cons; [done|]. apply (IH l); [lia|done]. }
  by apply (Hall (length l)).
Qed.

Lemma universal_newlines_chars_id l :
  (¬ Text.CR ∈ l) → Text.universal_newlines_chars l = l.
Proof.
  induction l as [|c l IH]; intros Hl; [done|].
  cbn [Text.universal_newlines_chars]. rewrite bool_decide_eq_false_2.
  - rewrite IH; [done|]. intros ?. apply Hl. by right.
  - intros ->. apply Hl. by left.
Qed.


